(** * Tile Aasen factorization: the task stream of [plasma_pzhetrf_aa]

    Shallow embedding of compute/pzhetrf_aa.c.  The routine is an
    orchestrator: it walks the tile columns and submits tile kernels
    (core_omp_zgemm, core_omp_zgeadd, ...) in program order.  The embedding
    keeps that shape: every stage of the column loop is a function that
    returns the list of kernel calls it submits, with the operand tiles,
    transposition flags and alpha/beta coefficients of the source.  The
    calls are then run, in submission order, over a store of tiles.

    The tile kernels themselves live in core_blas, outside this file; they
    enter as the operations of a tile algebra ([TileOps]) on the live view
    of a tile, and the only laws used are that tile addition is an exact
    commutative, associative addition with a zero tile, over which
    negation distributes.

    The reduction trees of control/plasma_rh_tree.c, which fix the order of
    the kernels of the tile QR factorization, are embedded in a part of
    their own after the task stream.

    Conventions.  The [int] quantities of the routine (tile indices, slot
    numbers, offsets) are integers of [Z]; [/] and [%] are the truncating
    [Z.quot] and [Z.rem] of C.  The calls are run in the order in which the
    routine submits them, which is the order the [depend] clauses of the
    tasks enforce, and on the path where the sequence status stays
    [PlasmaSuccess]. *)

From Stdlib Require Import ZArith Lia List.
From stdpp Require Import base decidable list list_numbers.

Local Open Scope Z_scope.
Set Default Proof Using "Type*".

(** ** Constants and descriptors *)

(** The [plasma_enum_t] constants that occur in the routine. *)
Inductive plasma_enum_t :=
| PlasmaNoTrans | PlasmaConjTrans
| PlasmaUpper | PlasmaLower
| PlasmaLeft | PlasmaRight
| PlasmaNonUnit | PlasmaUnit
| PlasmaRowwise.

(** The three complex constants declared at the top of the routine
    ([zzero = 0.0], [zone = 1.0], [zmone = -1.0]); no other coefficient is
    ever passed to a kernel. *)
Inductive coef := zzero | zone | zmone.

#[global] Instance plasma_enum_eq_dec : EqDecision plasma_enum_t.
Proof. solve_decision. Defined.
#[global] Instance coef_eq_dec : EqDecision coef.
Proof. solve_decision. Defined.

(** [PlasmaSuccess] is the zero status. *)
Definition PlasmaSuccess : Z := 0.

Module desc.
(** The fields of [plasma_desc_t] read by the routine. *)
Record plasma_desc_t := mk {
  m : Z;   (* rows of the matrix *)
  n : Z;   (* columns of the matrix *)
  mb : Z;  (* tile rows *)
  nb : Z;  (* tile columns *)
  mt : Z;  (* number of tile rows *)
  nt : Z   (* number of tile columns *)
}.
End desc.
Abbreviation plasma_desc_t := desc.plasma_desc_t.

Module ctx.
(** The fields of [plasma_context_t] read by the routine. *)
Record plasma_context_t := mk {
  ib : Z;
  num_panel_threads : Z;
  max_threads : Z
}.
End ctx.
Abbreviation plasma_context_t := ctx.plasma_context_t.

(** ** Tile addresses

    [plasma_tile_addr] (plasma_descriptor.h) is kept symbolic: an address is
    the matrix it belongs to and its tile coordinates, so two addresses are
    the same tile exactly when they name the same coordinates of the same
    matrix. *)
Inductive matrix_id := mat_A | mat_T | mat_W.

Inductive tile_addr := plasma_tile_addr (D : matrix_id) (m n : Z).

#[global] Instance matrix_id_eq_dec : EqDecision matrix_id.
Proof. solve_decision. Defined.
#[global] Instance tile_addr_eq_dec : EqDecision tile_addr.
Proof. solve_decision. Defined.

Definition imin (a b : Z) : Z := if a <? b then a else b.

(** ** Kernel calls *)

(** One constructor per kernel submitted by the lower branch, plus the two
    in-line loops of the routine that touch tile entries directly:
    [conj_expand] is the loop "expanding to full matrix"
    ([T(k,k)[i+j*ldtk] = conj(T(k,k)[j+i*ldtk])] for [i < j]), and
    [conj_mirror] is the loop that fills [T(k,k+1)] from [T(k+1,k)].
    [omp_taskwait] marks a [#pragma omp taskwait] of the submitting thread.
    Operand shapes (mvak, ldak, ...) are the live dimensions of the operand
    tiles and are not recorded. *)
Inductive call :=
| core_omp_zgemm (transa transb : plasma_enum_t) (alpha : coef)
                 (a b : tile_addr) (beta : coef) (c : tile_addr)
| core_omp_zgeadd (transa : plasma_enum_t) (alpha : coef) (a : tile_addr)
                  (beta : coef) (b : tile_addr)
| core_omp_zlacpy (uplo : plasma_enum_t) (a b : tile_addr)
| core_omp_zlaset (uplo : plasma_enum_t) (alpha beta : coef) (a : tile_addr)
| core_omp_zhegst (itype : Z) (uplo : plasma_enum_t) (a b : tile_addr)
| core_omp_ztrsm (side uplo transa diag : plasma_enum_t) (alpha : coef)
                 (a b : tile_addr)
| conj_expand (t : tile_addr)
| conj_mirror (src dst : tile_addr)
| omp_taskwait.

(** The tiles a call names, in argument order. *)
Definition operands (c : call) : list tile_addr :=
  match c with
  | core_omp_zgemm _ _ _ a b _ c => [a; b; c]
  | core_omp_zgeadd _ _ a _ b => [a; b]
  | core_omp_zlacpy _ a b => [a; b]
  | core_omp_zlaset _ _ _ a => [a]
  | core_omp_zhegst _ _ a b => [a; b]
  | core_omp_ztrsm _ _ _ _ _ a b => [a; b]
  | conj_expand t => [t]
  | conj_mirror src dst => [src; dst]
  | omp_taskwait => []
  end.

(** The tile a call writes, if any. *)
Definition dest (c : call) : option tile_addr :=
  match c with
  | core_omp_zgemm _ _ _ _ _ _ c => Some c
  | core_omp_zgeadd _ _ _ _ b => Some b
  | core_omp_zlacpy _ _ b => Some b
  | core_omp_zlaset _ _ _ a => Some a
  | core_omp_zhegst _ _ a _ => Some a
  | core_omp_ztrsm _ _ _ _ _ _ b => Some b
  | conj_expand t => Some t
  | conj_mirror _ dst => Some dst
  | omp_taskwait => None
  end.

(** The [beta] of a multiply-accumulate. *)
Definition gemm_beta (c : call) : option coef :=
  match c with
  | core_omp_zgemm _ _ _ _ _ beta _ => Some beta
  | _ => None
  end.

(** What the submitting thread emits besides tile kernels: the panel task
    (one [core_zgetrf] per rank on the view
    [plasma_desc_view(A, tempi, tempj, tempm, mvak)], with the tiles [a00]
    and [a20] of its depend clauses), the loop that shifts the new pivots by
    [tempi], the row interchanges on the earlier columns, the symmetric
    interchange on the trailing matrix, and the two extra kernels of the
    upper branch. *)
Inductive task :=
| submit (c : call)
| panel_zgetrf (k : Z) (a00 a20 : tile_addr) (tempi tempj tempm mvak : Z)
| ipiv_shift (k count tempi : Z)
| core_zlaswp (colrow : plasma_enum_t) (akk : tile_addr)
              (view : Z * Z * Z * Z) (k1 k2 incx : Z)
| core_omp_zlaswp_sym (uplo : plasma_enum_t) (k1 k2 incx : Z)
| core_omp_zpotrf (uplo : plasma_enum_t) (a : tile_addr) (iinfo : Z)
| core_omp_zherk (uplo trans : plasma_enum_t) (alpha : coef) (a : tile_addr)
                 (beta : coef) (c : tile_addr).

Definition task_operands (t : task) : list tile_addr :=
  match t with
  | submit c => operands c
  | panel_zgetrf _ a00 a20 _ _ _ _ => [a00; a20]
  | ipiv_shift _ _ _ => []
  | core_zlaswp _ akk _ _ _ _ => [akk]
  | core_omp_zlaswp_sym _ _ _ _ => []
  | core_omp_zpotrf _ a _ => [a]
  | core_omp_zherk _ _ _ a _ c => [a; c]
  end.

(** ** The shared status *)

Module async.
Record plasma_sequence_t := mk_sequence { status : Z }.
Record plasma_request_t := mk_request { request_status : Z }.
End async.
Abbreviation plasma_sequence_t := async.plasma_sequence_t.
Abbreviation plasma_request_t := async.plasma_request_t.

(** Modelled from the spec: [plasma_request_fail] (plasma_async.c is not
    among the translated sources) records a failure code on the shared
    sequence and request; the first failure sets the status, once. *)
Definition plasma_request_fail
    (sr : plasma_sequence_t * plasma_request_t) (status : Z)
    : plasma_sequence_t * plasma_request_t :=
  if decide (async.status sr.1 = PlasmaSuccess)
  then (async.mk_sequence status, async.mk_request status)
  else sr.

(** ** The tile algebra of the kernels *)

Class TileOps (tile : Type) := {
  tile_zero : tile;
  tile_add : tile → tile → tile;
  tile_opp : tile → tile;
  tile_mul : tile → tile → tile;
  (* conjugate transpose *)
  tile_ctrans : tile → tile;
  (* [zlacpy uplo a b]: [b] with its [uplo] triangle replaced by that of [a] *)
  zlacpy : plasma_enum_t → tile → tile → tile;
  (* [zlaset uplo alpha beta a]: [a] with the off-diagonal of its [uplo]
     triangle set to [alpha] and its diagonal to [beta] *)
  zlaset : plasma_enum_t → coef → coef → tile → tile;
  (* [zhegst itype uplo a b]: the reduction of [a] under the factor [b] *)
  zhegst : Z → plasma_enum_t → tile → tile → tile;
  (* [ztrsm side uplo transa diag a b]: the solution that overwrites [b] *)
  ztrsm : plasma_enum_t → plasma_enum_t → plasma_enum_t → plasma_enum_t →
          tile → tile → tile;
  (* the full Hermitian tile whose lower triangle is that of the argument *)
  hermitian_full : tile → tile
}.

Class TileLaws (tile : Type) {ops : TileOps tile} : Prop := {
  tile_add_comm : ∀ x y : tile, tile_add x y = tile_add y x;
  tile_add_assoc : ∀ x y z : tile,
    tile_add x (tile_add y z) = tile_add (tile_add x y) z;
  tile_add_zero_l : ∀ x : tile, tile_add tile_zero x = x;
  tile_opp_add : ∀ x y : tile,
    tile_opp (tile_add x y) = tile_add (tile_opp x) (tile_opp y);
  tile_opp_zero : tile_opp tile_zero = (tile_zero : tile)
}.

Section Kernels.
Context {tile : Type} {ops : TileOps tile}.

Definition scal (c : coef) (x : tile) : tile :=
  match c with
  | zzero => tile_zero
  | zone => x
  | zmone => tile_opp x
  end.

Definition op (trans : plasma_enum_t) (x : tile) : tile :=
  match trans with
  | PlasmaConjTrans => tile_ctrans x
  | _ => x
  end.

(** C := alpha*op(A)*op(B) + beta*C.  With [beta = zzero] the old C does
    not enter the result. *)
Definition zgemm (transa transb : plasma_enum_t) (alpha : coef)
    (a b : tile) (beta : coef) (c : tile) : tile :=
  tile_add (scal beta c) (scal alpha (tile_mul (op transa a) (op transb b))).

(** B := alpha*op(A) + beta*B. *)
Definition zgeadd (transa : plasma_enum_t) (alpha : coef) (a : tile)
    (beta : coef) (b : tile) : tile :=
  tile_add (scal alpha (op transa a)) (scal beta b).

(** *** Running calls over a store of tiles *)

Definition store := tile_addr → tile.

Definition upd (s : store) (a : tile_addr) (v : tile) : store :=
  λ b, if decide (a = b) then v else s b.

Definition exec_call (s : store) (c : call) : store :=
  match c with
  | core_omp_zgemm ta tb alpha a b beta c =>
      upd s c (zgemm ta tb alpha (s a) (s b) beta (s c))
  | core_omp_zgeadd ta alpha a beta b =>
      upd s b (zgeadd ta alpha (s a) beta (s b))
  | core_omp_zlacpy uplo a b => upd s b (zlacpy uplo (s a) (s b))
  | core_omp_zlaset uplo alpha beta a => upd s a (zlaset uplo alpha beta (s a))
  | core_omp_zhegst itype uplo a b => upd s a (zhegst itype uplo (s a) (s b))
  | core_omp_ztrsm side uplo ta diag alpha a b =>
      upd s b (ztrsm side uplo ta diag (s a) (scal alpha (s b)))
  | conj_expand t => upd s t (hermitian_full (s t))
  | conj_mirror src dst => upd s dst (tile_ctrans (s src))
  | omp_taskwait => s
  end.

Definition exec (cs : list call) (s : store) : store :=
  fold_left exec_call cs s.

(** Sum of a list of tiles, and of a function over a range [lo, hi). *)
Definition tile_sum (l : list tile) : tile := foldr tile_add tile_zero l.

Definition range_sum (f : Z → tile) (lo hi : Z) : tile :=
  tile_sum (f <$> seqZ lo (hi - lo)).
End Kernels.
Arguments store : clear implicits.

(** ** The column loop of the lower branch *)

Section Lower.
(** [dA] and [dW] are the descriptors [A] and [W]; [plasma] is the context
    returned by [plasma_context_self].  [ceil_log2 p] stands for the
    floating-point expression [ceil(log10((double)p)/log10(2.0))],
    converted to [int]. *)
Variables (dA dW : plasma_desc_t) (plasma : plasma_context_t).
Variable ceil_log2 : Z → Z.

(** The addressing macros. *)
Definition A (m n : Z) := plasma_tile_addr mat_A m n.
Definition T (m n : Z) := plasma_tile_addr mat_T m n.
Definition L (m n : Z) := plasma_tile_addr mat_A m (n - 1).
Definition U (m n : Z) := plasma_tile_addr mat_A (m - 1) n.
Definition W (j : Z) := plasma_tile_addr mat_W j 0.
Definition W2 (j : Z) := plasma_tile_addr mat_W (j + desc.mt dA) 0.
Definition W3 (j : Z) := plasma_tile_addr mat_W (j + 3 * desc.mt dA) 0.
Definition W4 (j : Z) := plasma_tile_addr mat_W (j + 3 * desc.mt dA) 0.
Definition H (uplo : plasma_enum_t) (m n : Z) :=
  if decide (uplo = PlasmaLower) then W2 m else W2 n.

Definition tot : Z := desc.mt dW - 3 * desc.mt dA.

(** [ceil(((double)num_players)/2.0)] *)
Definition ceil_half (num_players : Z) : Z := (num_players + 1) `div` 2.

(** The tournament loop: [rounds] rounds; each bracket of a round submits
    [body m1 m2] for its two contenders. *)
Fixpoint tournament (rounds : nat) (num_players skip : Z)
    (body : Z → Z → list call) : list call :=
  match rounds with
  | O => []
  | S rounds' =>
      (bracket ← seqZ 0 (num_players `quot` 2);
         body (skip * bracket) (skip * bracket + skip `quot` 2))
      ++ tournament rounds' (ceil_half num_players) (2 * skip) body
  end.

(** -- computing offdiagonals H(1:k-1, k) -- : the body of the loop over
    [m], then the loop. *)
Definition offdiag_row (k m : Z) : list call :=
  [core_omp_zgemm PlasmaNoTrans PlasmaConjTrans
     zone (T m m) (L k m) zzero (H PlasmaLower m k)]
  ++ (if decide (m > 1) then
        [core_omp_zgemm PlasmaNoTrans PlasmaConjTrans
           zone (T m (m - 1)) (L k (m - 1)) zone (H PlasmaLower m k)]
      else [])
  ++ [core_omp_zgemm PlasmaConjTrans PlasmaConjTrans
        zone (T (m + 1) m) (L k (m + 1)) zone (H PlasmaLower m k)].

Definition offdiag (k : Z) : list call :=
  m ← seqZ 1 (k - 1); offdiag_row k m.

(** The accumulation loop of the diagonal assembly. *)
Definition diag_accumulate (k num : Z) : list call :=
  m ← seqZ 1 (k - 1);
  let id := (m - 1) `rem` num in
  let beta := if decide (m < num + 1) then zzero else zone in
  [core_omp_zgemm PlasmaNoTrans PlasmaNoTrans
     zmone (L k m) (H PlasmaLower m k) beta (W3 id)].

Definition diag_reduce (num : Z) : list call :=
  tournament (Z.to_nat (ceil_log2 num)) num 2
    (λ m1 m2, [core_omp_zgeadd PlasmaNoTrans zone (W3 m2) zone (W3 m1)]).

(** -- computing diagonal T(k, k) -- *)
Definition assemble_diag (k : Z) : list call :=
  if decide (k > 1) then
    let num := imin tot (k - 1) in
    diag_accumulate k num
    ++ diag_reduce num
    ++ [core_omp_zlacpy PlasmaLower (A k k) (T k k);
        core_omp_zgeadd PlasmaNoTrans zone (W3 0) zone (T k k)]
  else
    [core_omp_zlacpy PlasmaLower (A k k) (T k k);
     omp_taskwait;
     conj_expand (T k k)].

(** The block guarded by [if (k > 0)]: the two-step multiply chain and the
    symmetric solve with L(k,k). *)
Definition congruence (k : Z) : list call :=
  if decide (k > 0) then
    (if decide (k > 1) then
       [core_omp_zgemm PlasmaNoTrans PlasmaNoTrans
          zone (L k k) (T k (k - 1)) zzero (W 0);
        core_omp_zgemm PlasmaNoTrans PlasmaConjTrans
          zmone (W 0) (L k (k - 1)) zone (T k k)]
     else [])
    ++ [core_omp_zhegst 1 PlasmaLower (T k k) (L k k);
        omp_taskwait;
        conj_expand (T k k)]
  else [].

(** /* computing H(k, k) */ : the part before [if (k+1 < A.nt)]; the
    second component is the value of [beta] it leaves. *)
Definition trailing_H (k : Z) : list call * coef :=
  if decide (k > 1) then
    ([core_omp_zgemm PlasmaNoTrans PlasmaConjTrans
        zone (T k (k - 1)) (L k (k - 1)) zzero (H PlasmaLower k k)], zone)
  else ([], zzero).

Definition trailing_H_diag (k : Z) (beta : coef) : list call :=
  if decide (k > 0) then
    [core_omp_zgemm PlasmaNoTrans PlasmaConjTrans
       zone (T k k) (L k k) beta (H PlasmaLower k k)]
  else [].

(** The workspace branch of the column update
    ([A.mt-k < plasma->max_threads]). *)
Definition column_accumulate (k num : Z) : list call :=
  n ← seqZ 1 k;
  m ← seqZ (k + 1) (desc.mt dA - (k + 1));
  let id := (m - k - 1) * num + (n - 1) `rem` num in
  let beta := if decide (n < num + 1) then zzero else zone in
  if decide (n < num + 1 ∨ n > k - num) then
    [core_omp_zgemm PlasmaNoTrans PlasmaNoTrans
       zmone (L m n) (H PlasmaLower n k) beta (W4 id)]
  else
    [core_omp_zgemm PlasmaNoTrans PlasmaNoTrans
       zmone (L m n) (H PlasmaLower n k) beta (W4 id)].

Definition column_reduce (k num : Z) : list call :=
  tournament (Z.to_nat (ceil_log2 num)) num 2
    (λ m1 m2,
       m ← seqZ (k + 1) (desc.mt dA - (k + 1));
       [core_omp_zgeadd PlasmaNoTrans
          zone (W4 ((m - k - 1) * num + m2))
          zone (W4 ((m - k - 1) * num + m1))]).

Definition column_collect (k num : Z) : list call :=
  m ← seqZ (k + 1) (desc.mt dA - (k + 1));
  [core_omp_zgeadd PlasmaNoTrans
     zone (W4 ((m - k - 1) * num)) zone (L m (k + 1))].

Definition column_update_workspace (k : Z) : list call :=
  let num := imin k (tot `quot` (desc.mt dA - k - 1)) in
  column_accumulate k num ++ column_reduce k num ++ column_collect k num.

(** The other branch: term-by-term accumulation into L(m,k+1). *)
Definition column_update_direct (k : Z) : list call :=
  n ← seqZ 1 k;
  m ← seqZ (k + 1) (desc.mt dA - (k + 1));
  [core_omp_zgemm PlasmaNoTrans PlasmaNoTrans
     zmone (L m n) (H PlasmaLower n k) zone (L m (k + 1))].

Definition column_update (k : Z) : list call :=
  if decide (desc.mt dA - k < ctx.max_threads plasma)
  then column_update_workspace k
  else column_update_direct k.

(** /* computing T(k+1, k) */ *)
Definition band_finalize (k : Z) : list call :=
  [core_omp_zlacpy PlasmaUpper (L (k + 1) (k + 1)) (T (k + 1) k);
   core_omp_zlaset PlasmaUpper zzero zone (L (k + 1) (k + 1))]
  ++ (if decide (k > 0) then
        [core_omp_ztrsm PlasmaRight PlasmaLower PlasmaConjTrans PlasmaUnit
           zone (L k k) (T (k + 1) k)]
      else [])
  ++ [omp_taskwait; conj_mirror (T (k + 1) k) (T k (k + 1))].

(** *** Panel factorization, pivoting and the whole loop *)

(** [plasma_tile_mview] (plasma_descriptor.h): the number of live rows of
    a tile row. *)
Variable plasma_tile_mview : plasma_desc_t → Z → Z.

(** == PLASMA recursive LU == and the two pivoting passes. *)
Definition panel_tasks (k : Z) : list task :=
  let mvak := plasma_tile_mview dA k in
  let tempi := (k + 1) * desc.mb dA in
  let tempj := k * desc.nb dA in
  let tempm := desc.m dA - tempi in
  [submit omp_taskwait;
   panel_zgetrf k (L (k + 1) (k + 1)) (L (desc.mt dA - 1) (k + 1))
     tempi tempj tempm mvak;
   submit omp_taskwait;
   ipiv_shift k (imin tempm mvak) tempi]
  ++ (n ← seqZ 1 k;
      let k1 := 1 + (k + 1) * desc.nb dA in
      let k2 := imin tempm mvak + (k + 1) * desc.nb dA in
      let mvan := plasma_tile_mview dA n in
      [core_zlaswp PlasmaRowwise (L (k + 1) n)
         (0, (n - 1) * desc.nb dA, desc.m dA, mvan) k1 k2 1])
  ++ [submit omp_taskwait;
      core_omp_zlaswp_sym PlasmaLower
        ((k + 1) * desc.mb dA + 1)
        ((k + 1) * desc.mb dA + imin tempm mvak) 1].

(** The status side of the panel task: [core_zgetrf rank] is the value
    returned to thread [rank]; a non-zero value is reported at
    [k*A.mb+info]. *)
Definition panel_status (k : Z) (core_zgetrf : Z → Z)
    (sr : plasma_sequence_t * plasma_request_t)
    : plasma_sequence_t * plasma_request_t :=
  if decide (async.status sr.1 = PlasmaSuccess) then
    fold_left
      (λ sr rank,
         let info := core_zgetrf rank in
         if decide (info ≠ 0)
         then plasma_request_fail sr (k * desc.mb dA + info)
         else sr)
      (seqZ 0 (ctx.num_panel_threads plasma)) sr
  else sr.

(** One iteration of [for (int k = 0; k < A.mt; k++)]. *)
Definition column_tasks (k : Z) : list task :=
  (submit <$> offdiag k)
  ++ (submit <$> assemble_diag k)
  ++ (submit <$> congruence k)
  ++ (submit <$> (trailing_H k).1)
  ++ (if decide (k + 1 < desc.nt dA) then
        (submit <$> trailing_H_diag k (trailing_H k).2)
        ++ (submit <$> column_update k)
        ++ panel_tasks k
        ++ (submit <$> band_finalize k)
      else []).

(** The upper branch. *)
Definition upper_tasks (k : Z) : list task :=
  [core_omp_zpotrf PlasmaUpper (A k k) (desc.nb dA * k)]
  ++ (m ← seqZ (k + 1) (desc.nt dA - (k + 1));
      [submit (core_omp_ztrsm PlasmaLeft PlasmaUpper PlasmaConjTrans
                 PlasmaNonUnit zone (A k k) (A k m))])
  ++ (m ← seqZ (k + 1) (desc.nt dA - (k + 1));
      [core_omp_zherk PlasmaUpper PlasmaConjTrans
         zmone (A k m) zone (A m m)]
      ++ (n ← seqZ (k + 1) (m - (k + 1));
          [submit (core_omp_zgemm PlasmaConjTrans PlasmaNoTrans
                     zmone (A k n) (A k m) zone (A n m))])).

Definition plasma_pzhetrf_aa (uplo : plasma_enum_t)
    (sequence : plasma_sequence_t) : list task :=
  if decide (async.status sequence ≠ PlasmaSuccess) then []
  else if decide (uplo = PlasmaLower) then
    k ← seqZ 0 (desc.mt dA); column_tasks k
  else
    k ← seqZ 0 (desc.nt dA); upper_tasks k.
End Lower.

(** ** The two in-line loops, on tile entries

    A tile is addressed column-major: entry [(i, j)] of a tile with leading
    dimension [ld] sits at offset [i + j*ld] from the tile address.  A
    buffer maps offsets to entries. *)

Section EntryLoops.
Context {entry : Type} (conj : entry → entry).

Definition buffer := Z → entry.

Definition poke (t : buffer) (off : Z) (v : entry) : buffer :=
  λ x, if decide (x = off) then v else t x.

(** [for (j = 0; j < mvak; j++) for (i = 0; i < j; i++)
       T(k,k)[i+j*ldtk] = conj(T(k,k)[j+i*ldtk]);] *)
Definition expand_to_full (mvak ldtk : Z) (t : buffer) : buffer :=
  fold_left
    (λ t j,
       fold_left (λ t i, poke t (i + j * ldtk) (conj (t (j + i * ldtk))))
         (seqZ 0 j) t)
    (seqZ 0 mvak) t.

(** [for (j = 0; j < mvakp1; j++) for (i = 0; i < mvak; i++)
       T(k,k+1)[i+j*ldtk] = conj(T(k+1,k)[j+i*ldtkp1]);] *)
Definition mirror_band (mvakp1 mvak ldtk ldtkp1 : Z) (src dst : buffer)
    : buffer :=
  fold_left
    (λ d j,
       fold_left (λ d i, poke d (i + j * ldtk) (conj (src (j + i * ldtkp1))))
         (seqZ 0 mvak) d)
    (seqZ 0 mvakp1) dst.

End EntryLoops.
Arguments buffer : clear implicits.

(** ** The pivot shift of the panel *)

(** [for (int i = 0; i < imin(tempm, mvak); i++) IPIV(k+1)[i] += tempi;]
    on the array [ipiv], with [IPIV(i) = ipiv + i*A.mb]; [count] is the
    bound of the loop. *)
Definition shift_pivots (dA : plasma_desc_t) (k count tempi : Z)
    (ipiv : buffer Z) : buffer Z :=
  fold_left
    (λ ipiv i,
       poke ipiv ((k + 1) * desc.mb dA + i)
         (ipiv ((k + 1) * desc.mb dA + i) + tempi))
    (seqZ 0 count) ipiv.

(** What the [ipiv_shift] task of a task list does to [ipiv]. *)
Definition run_pivot_shift (dA : plasma_desc_t) (ipiv : buffer Z) (t : task)
    : buffer Z :=
  match t with
  | ipiv_shift k count tempi => shift_pivots dA k count tempi ipiv
  | _ => ipiv
  end.

(** * Reduction trees of the tile QR factorization

    Shallow embedding of control/plasma_rh_tree.c.  Each routine fills the
    array [*operations] with rows of four [int]s and counts them in
    [iops]; the counter is returned through [*noperations].  A routine
    is a function of the allocated array; the two loops whose number of
    iterations is not a bound of the loop itself, [rd *= 2] of
    PLASMA-Tree and the [while] of the greedy tree, take one unit of fuel
    per iteration and give [None] when it runs out. *)

(** The kernel codes of plasma_rh_tree.h, and [no_kernel] for the [-1]
    that the initialisation loop of the flat tree writes in their place. *)
Inductive kernel_t :=
| PlasmaGEKernel | PlasmaTTKernel | PlasmaTSKernel | no_kernel.

#[global] Instance kernel_eq_dec : EqDecision kernel_t.
Proof. solve_decision. Defined.

Module op.
(** One row of the array: [kernel, col, row, rowpiv]. *)
Record operation := mk {
  kernel : kernel_t;
  col : Z;
  row : Z;
  rowpiv : Z
}.
End op.
Abbreviation operation := op.operation.

#[global] Instance operation_eq_dec : EqDecision operation.
Proof. solve_decision. Defined.

(** [plasma_rh_tree_operation_insert] (plasma_rh_tree.h, which is not
    among the translated sources): modelled from its calls, where the four
    values after the row number are the kernel, the column, the row and
    the row of the pivot, as the debug output beside each call names
    them; they are stored in row [iops] of the array.  A list leaves a
    store outside its length without effect, where the C store is out of
    bounds. *)
Definition plasma_rh_tree_operation_insert (operations : list operation)
    (iops : Z) (kernel : kernel_t) (col row rowpiv : Z) : list operation :=
  <[Z.to_nat iops := op.mk kernel col row rowpiv]> operations.

(** The array and the counter [iops]; [insert_next] is a call of
    [plasma_rh_tree_operation_insert] at row [iops] followed by [iops++]. *)
Definition tree_state : Type := list operation * Z.

Definition insert_next (st : tree_state) (kernel : kernel_t)
    (col row rowpiv : Z) : tree_state :=
  (plasma_rh_tree_operation_insert st.1 st.2 kernel col row rowpiv,
   st.2 + 1).

(** What a routine hands back: the array, [*noperations], and whether the
    message about the number of operations was printed. *)
Module tree.
Record result := mk {
  operations : list operation;
  noperations : Z;
  message : bool
}.
End tree.

(** [for (x = lo; x < hi; x += step)], for a positive [step]. *)
Definition strided (lo hi step : Z) : list Z :=
  (λ i, lo + i * step) <$> seqZ 0 ((hi - lo + step - 1) `div` step).

(** [for (x = hi - 1; x >= lo; x--)] *)
Definition downto (lo hi : Z) : list Z := reverse (seqZ lo (hi - lo)).

(** ** The flat tree *)

(** [block] is what [malloc(nops*4*sizeof(int))] returns: [nops] rows of
    unspecified content. *)
Definition plasma_rh_tree_flat (mt nt : Z) (block : list operation)
    : tree.result :=
  let minnt := imin mt nt in
  let num_triangularized_tiles := minnt in
  let num_anihilated_tiles :=
    mt * minnt - ((minnt + 1) * minnt) `quot` 2 in
  let nops := num_triangularized_tiles + num_anihilated_tiles in
  let operations :=
    fold_left
      (λ ops i, plasma_rh_tree_operation_insert ops i no_kernel (-1) (-1) (-1))
      (seqZ 1 (nops - 1)) block in
  let st :=
    fold_left
      (λ st k,
         fold_left (λ st m, insert_next st PlasmaTSKernel k m k)
           (seqZ (k + 1) (mt - (k + 1)))
           (insert_next st PlasmaGEKernel k k (-1)))
      (seqZ 0 minnt) (operations, 0) in
  tree.mk st.1 st.2 (bool_decide (st.2 ≠ nops)).

(** ** PLASMA-Tree *)

Definition BS : Z := 4.

(** [for (int rd = BS; rd < mt-k; rd *= 2)]: one unit of fuel per round;
    [None] when the fuel runs out before the loop condition fails. *)
Fixpoint plasmatree_rounds (fuel : nat) (mt k rd : Z) (st : tree_state)
    : option tree_state :=
  if decide (rd < mt - k) then
    match fuel with
    | O => None
    | S fuel' =>
        plasmatree_rounds fuel' mt k (rd * 2)
          (fold_left (λ st M, insert_next st PlasmaTTKernel k (M + rd) M)
             (strided k (mt - rd) (2 * rd)) st)
    end
  else Some st.

(** The body of the loop over the columns [k]. *)
Definition plasmatree_column (fuel : nat) (mt : Z) (st : tree_state)
    (k : Z) : option tree_state :=
  plasmatree_rounds fuel mt k BS
    (fold_left
       (λ st M,
          fold_left (λ st m, insert_next st PlasmaTSKernel k m M)
            (seqZ (M + 1) (imin (M + BS) mt - (M + 1)))
            (insert_next st PlasmaGEKernel k M (-1)))
       (strided k mt BS) st).

Definition plasma_rh_tree_plasmatree (fuel : nat) (mt nt : Z)
    (block : list operation) : option tree.result :=
  let minnt := imin mt nt in
  let num_triangularized_tiles := (mt `quot` BS + 1) * minnt in
  let num_anihilated_tiles :=
    mt * minnt - ((minnt + 1) * minnt) `quot` 2 in
  let nops := num_triangularized_tiles + num_anihilated_tiles in
  st ← fold_left (λ st k, st ← st; plasmatree_column fuel mt st k)
         (seqZ 0 minnt) (Some (block, 0));
  Some (tree.mk st.1 st.2 (bool_decide (st.2 > nops))).

(** ** The greedy tree *)

Module greedy.
(** The column counters and the output of the greedy tree. *)
Record state := mk {
  NZ : list Z;
  NT : list Z;
  out : tree_state
}.
End greedy.

(** The body of [for (int j = minnt-1; j >= 0; j--)].  [nTnew] and [nZnew]
    are assigned before they are read in every iteration. *)
Definition greedy_column (mt : Z) (st : greedy.state) (j : Z)
    : greedy.state :=
  let NTj := greedy.NT st !!! Z.to_nat j in
  let NZj := greedy.NZ st !!! Z.to_nat j in
  let '(nTnew, out) :=
    if decide (j = 0) then
      (NTj + (mt - NTj),
       if decide (mt - NTj > 0) then
         fold_left (λ out k, insert_next out PlasmaGEKernel j k (-1))
           (downto 0 mt) (greedy.out st)
       else greedy.out st)
    else
      let nTnew := greedy.NZ st !!! Z.to_nat (j - 1) in
      (nTnew,
       fold_left
         (λ out k, let kk := mt - k - 1 in
                   insert_next out PlasmaGEKernel j kk (-1))
         (seqZ NTj (nTnew - NTj)) (greedy.out st)) in
  let batch := (NTj - NZj) `quot` 2 in
  let nZnew := NZj + batch in
  let out :=
    fold_left
      (λ out kk, let pmkk := mt - kk - 1 in
                 let pivpmkk := pmkk - batch in
                 insert_next out PlasmaTTKernel j pmkk pivpmkk)
      (seqZ NZj (nZnew - NZj)) out in
  greedy.mk (<[Z.to_nat j := nZnew]> (greedy.NZ st))
            (<[Z.to_nat j := nTnew]> (greedy.NT st)) out.

(** The condition of the [while] loop. *)
Definition greedy_unfinished (mt minnt : Z) (st : greedy.state) : Prop :=
  greedy.NT st !!! Z.to_nat (minnt - 1) < mt - minnt + 1
  ∨ greedy.NZ st !!! Z.to_nat (minnt - 1) < mt - minnt.

#[global] Instance greedy_unfinished_dec mt minnt st :
  Decision (greedy_unfinished mt minnt st).
Proof. unfold greedy_unfinished. apply _. Defined.

(** The [while] loop: one unit of fuel per pass over the columns. *)
Fixpoint greedy_loop (fuel : nat) (mt minnt : Z) (st : greedy.state)
    : option greedy.state :=
  if decide (greedy_unfinished mt minnt st) then
    match fuel with
    | O => None
    | S fuel' =>
        greedy_loop fuel' mt minnt
          (fold_left (greedy_column mt) (downto 0 minnt) st)
    end
  else Some st.

Definition plasma_rh_tree_greedy (fuel : nat) (mt nt : Z)
    (block : list operation) : option tree.result :=
  let minnt := imin mt nt in
  let num_triangularized_tiles :=
    mt * minnt - ((minnt - 1) * minnt) `quot` 2 in
  let num_anihilated_tiles :=
    mt * minnt - ((minnt + 1) * minnt) `quot` 2 in
  let nops := num_triangularized_tiles + num_anihilated_tiles in
  let zeros := (λ _, 0) <$> seqZ 0 minnt in
  st ← greedy_loop fuel mt minnt (greedy.mk zeros zeros (block, 0));
  Some (tree.mk (greedy.out st).1 (greedy.out st).2
          (bool_decide ((greedy.out st).2 ≠ nops))).

(** The algorithm in use. *)
Definition plasma_rh_tree_operations (mt nt : Z) (block : list operation)
    : tree.result :=
  plasma_rh_tree_flat mt nt block.

(** * Vocabulary of the statements *)

Section Vocabulary.
Context {tile : Type} {ops : TileOps tile}.
Variable dA : plasma_desc_t.
Implicit Types (s : store tile).

(** The contender pairs [(m1, m2)] of the tournament loop, in submission
    order; [tournament] submits [body m1 m2] for each of them. *)
Definition round_pairs (num_players skip : Z) : list (Z * Z) :=
  (λ bracket, (skip * bracket, skip * bracket + skip `quot` 2))
    <$> seqZ 0 (num_players `quot` 2).

Fixpoint tournament_pairs (rounds : nat) (num_players skip : Z)
    : list (Z * Z) :=
  match rounds with
  | O => []
  | S rounds' =>
      round_pairs num_players skip
      ++ tournament_pairs rounds' (ceil_half num_players) (2 * skip)
  end.

(** The reduction seen on the vector of slots: [slot[m1] += slot[m2]]. *)
Definition add_into (v : Z → tile) (p : Z * Z) : Z → tile :=
  λ x, if decide (x = p.1)
       then zgeadd PlasmaNoTrans zone (v p.2) zone (v p.1)
       else v x.

Definition reduce_pairs (ps : list (Z * Z)) (v : Z → tile) : Z → tile :=
  fold_left add_into ps v.

Definition stride_pairs (q : Z) (n : nat) : list (Z * Z) :=
  (λ b, (2 * q * b, 2 * q * b + q)) <$> seqZ 0 (Z.of_nat n).

(** The reduction of the column update, seen on the slots of one tile
    row [m0]. *)
Definition row_slot (k num m0 j : Z) : tile_addr :=
  W4 dA ((m0 - k - 1) * num + j).

Definition row_bracket (k num m1 m2 : Z) (ms : list Z) : list call :=
  m ← ms;
  [core_omp_zgeadd PlasmaNoTrans
     zone (W4 dA ((m - k - 1) * num + m2))
     zone (W4 dA ((m - k - 1) * num + m1))].

(** The slot class of a contributor, and the [beta] it is submitted with. *)
Definition slot_of (num n : Z) : Z := (n - 1) `rem` num.

Definition beta_of (num n : Z) : coef :=
  if decide (n < num + 1) then zzero else zone.

(** The contributors of slot [j] among [1 .. M]. *)
Definition class (num j : Z) (M : Z) : list Z :=
  filter (λ n, slot_of num n = j) (seqZ 1 M).

(** The fold of one slot under the round-robin rule: contributor [n]
    goes to slot [(n-1) % num], overwriting when [n < num+1]. *)
Definition slot_step (num j : Z) (term : Z → tile) (acc : tile) (n : Z)
    : tile :=
  if decide (slot_of num n = j)
  then tile_add (scal (beta_of num n) acc) (term n)
  else acc.

(** Calls that write only workspace tiles leave [A] and [T] alone. *)
Definition writes_workspace (c : call) : Prop :=
  match dest c with
  | Some (plasma_tile_addr mat_W _ _) | None => True
  | Some _ => False
  end.

Definition in_workspace (a : tile_addr) : Prop :=
  match a with plasma_tile_addr mat_W _ _ => True | _ => False end.

(** The contribution of tile-row [m] to the diagonal block:
    [zmone * L(k,m) * H(m,k)]. *)
Definition diag_term (k : Z) s (m : Z) : tile :=
  tile_opp (tile_mul (s (L k m)) (s (H dA PlasmaLower m k))).

(** The three products that make up H(m,k). *)
Definition H_diag_part (k m : Z) s : tile :=
  tile_mul (s (T m m)) (tile_ctrans (s (L k m))).

Definition H_sub_part (k m : Z) s : tile :=
  tile_mul (s (T m (m - 1))) (tile_ctrans (s (L k (m - 1)))).

Definition H_super_part (k m : Z) s : tile :=
  tile_mul (tile_ctrans (s (T (m + 1) m))) (tile_ctrans (s (L k (m + 1)))).

Definition H_value (k m : Z) s : tile :=
  tile_add
    (tile_add (H_diag_part k m s)
              (if decide (m > 1) then H_sub_part k m s else tile_zero))
    (H_super_part k m s).

(** The calls submitted before the first [core_omp_zhegst]. *)
Fixpoint before_hegst (cs : list call) : list call :=
  match cs with
  | [] => []
  | core_omp_zhegst _ _ _ _ :: _ => []
  | c :: cs' => c :: before_hegst cs'
  end.

(** [T(k,k) - (L(k,k)*T(k,k-1)) * L(k,k-1)^H] *)
Definition chain_update (k : Z) s : tile :=
  tile_add (s (T k k))
    (tile_opp
       (tile_mul (tile_mul (s (L k k)) (s (T k (k - 1))))
                 (tile_ctrans (s (L k (k - 1)))))).

(** "The two-step multiply chain is performed for column [k]": the two
    multiplies head the congruence block, and the [T(k,k)] that reaches
    [core_omp_zhegst] is the updated one. *)
Definition two_step_chain_performed (k : Z) s : Prop :=
  (∃ rest,
      congruence k
      = core_omp_zgemm PlasmaNoTrans PlasmaNoTrans
          zone (L k k) (T k (k - 1)) zzero (W 0)
        :: core_omp_zgemm PlasmaNoTrans PlasmaConjTrans
             zmone (W 0) (L k (k - 1)) zone (T k k)
        :: core_omp_zhegst 1 PlasmaLower (T k k) (L k k)
        :: rest)
  ∧ exec (before_hegst (congruence k)) s (T k k) = chain_update k s.

(** The tile rows below the diagonal of column [k]. *)
Definition rows (k : Z) : list Z := seqZ (k + 1) (desc.mt dA - (k + 1)).

(** The multiply-accumulate submitted for contributor [n] and row [m]. *)
Definition column_call (k num n m : Z) : call :=
  core_omp_zgemm PlasmaNoTrans PlasmaNoTrans
    zmone (L m n) (H dA PlasmaLower n k)
    (beta_of num n) (W4 dA ((m - k - 1) * num + slot_of num n)).

Definition direct_call (k n m : Z) : call :=
  core_omp_zgemm PlasmaNoTrans PlasmaNoTrans
    zmone (L m n) (H dA PlasmaLower n k) zone (L m (k + 1)).

(** The contribution of column [n] to row [m0]: [zmone*L(m0,n)*H(n,k)]. *)
Definition column_term (k m0 : Z) s (n : Z) : tile :=
  tile_opp (tile_mul (s (L m0 n)) (s (H dA PlasmaLower n k))).

(** In a list of calls, every multiply-accumulate either is the first call
    to write its tile and has [beta = zzero], or comes after a call that
    wrote the same tile and has [beta = zone]. *)
Definition overwrite_then_accumulate (cs : list call) : Prop :=
  ∀ pre c post, cs = pre ++ c :: post →
    (gemm_beta c = Some zzero ∧ ∀ c', c' ∈ pre → dest c' ≠ dest c)
    ∨ (gemm_beta c = Some zone ∧ ∃ c', c' ∈ pre ∧ dest c' = dest c).

(** Two stores that differ at most on the reduction slots
    [W3(0), W3(1), ...] (the same tiles as [W4(0), W4(1), ...]). *)
Definition agree_outside_slots s s' : Prop :=
  ∀ a, (∀ j, 0 ≤ j → a ≠ W3 dA j) → s a = s' a.

(** A tile of [T] is in the band when its coordinates differ by at most
    one; tiles of [A] and [W] are not constrained. *)
Definition band_ok (a : tile_addr) : Prop :=
  match a with
  | plasma_tile_addr mat_T i j => -1 ≤ i - j ≤ 1
  | _ => True
  end.

Definition call_in_band (c : call) : Prop := Forall band_ok (operands c).

Definition task_in_band (t : task) : Prop := Forall band_ok (task_operands t).

(** The panel of column [k] is the view of [A] that starts at row
    [tempi = (k+1)*A.mb] and column [tempj = k*A.nb] (both counted from
    zero) and has [tempm = A.m - tempi] rows.  Counted from one, its rows
    are [tempi + 1 .. tempi + tempm]. *)
Definition in_panel_rows (dA : plasma_desc_t) (k pos : Z) : Prop :=
  let tempi := (k + 1) * desc.mb dA in
  let tempm := desc.m dA - tempi in
  tempi < pos ≤ tempi + tempm.

(** Counted from one, the columns of tile column [k]. *)
Definition in_tile_column (dA : plasma_desc_t) (k pos : Z) : Prop :=
  k * desc.nb dA < pos ≤ (k + 1) * desc.nb dA.

(** What one thread of the panel task does with the value returned by
    [core_zgetrf]. *)
Definition report (k : Z) (core_zgetrf : Z → Z)
    (sr : plasma_sequence_t * plasma_request_t) (rank : Z) :=
  let info := core_zgetrf rank in
  if decide (info ≠ 0)
  then plasma_request_fail sr (k * desc.mb dA + info)
  else sr.

End Vocabulary.

(** ** A concrete tile algebra: 1x1 integer tiles

    Tiles of block size one over the integers: a tile is its single entry,
    which is its diagonal, so both triangles are the entry itself and the
    conjugate transpose is the identity. *)
Definition coef_Z (c : coef) : Z :=
  match c with zzero => 0 | zone => 1 | zmone => -1 end.

#[global] Instance Z_tile_ops : TileOps Z := {|
  tile_zero := 0;
  tile_add := Z.add;
  tile_opp := Z.opp;
  tile_mul := Z.mul;
  tile_ctrans := λ x, x;
  zlacpy := λ _ a _, a;
  zlaset := λ _ _ beta _, coef_Z beta;
  zhegst := λ _ _ a b, a `div` (b * b);
  ztrsm := λ _ _ _ diag a b,
    if decide (diag = PlasmaUnit) then b else b `div` a;
  hermitian_full := λ x, x
|}.

(** A 3x3-tile matrix with 2x2 tiles, a workspace of 3*mt + 4 tiles, and a
    store whose tiles are numbered by their coordinates. *)
Definition desc_A3 : plasma_desc_t := desc.mk 6 6 2 2 3 3.

Definition desc_W3 : plasma_desc_t := desc.mk 26 2 2 2 13 1.

Definition ctx_4 : plasma_context_t := ctx.mk 1 1 4.

Definition numbered_store : store Z :=
  λ a, match a with
       | plasma_tile_addr mat_A m n => 100 + 10 * m + n
       | plasma_tile_addr mat_T m n => 200 + 10 * m + n
       | plasma_tile_addr mat_W m n => 300 + m
       end.

(** A 5x5-tile matrix with a workspace of 3*mt + 6 tiles, and a store that
    differs from the numbered one on every reduction slot of that
    workspace and nowhere else. *)
Definition desc_A5 : plasma_desc_t := desc.mk 10 10 2 2 5 5.

Definition desc_W5 : plasma_desc_t := desc.mk 42 2 2 2 21 1.

Definition stale_store : store Z :=
  λ a, match a with
       | plasma_tile_addr mat_W m n =>
           if decide (15 ≤ m ∧ n = 0) then 7000 + m else 300 + m
       | _ => numbered_store a
       end.

(** The reading under which the recorded position is a row of the panel,
    for every panel and every non-zero [info]. *)
Definition failure_recorded_in_panel_rows : Prop :=
  ∀ (dA : plasma_desc_t) (plasma : plasma_context_t) (k : Z)
    (core_zgetrf : Z → Z),
    0 ≤ k → 0 < desc.mb dA → desc.nb dA = desc.mb dA →
    (∀ rank, 0 ≤ core_zgetrf rank ≤ desc.mb dA) →
    (∃ rank, 0 ≤ rank < ctx.num_panel_threads plasma
             ∧ core_zgetrf rank ≠ 0) →
    in_panel_rows dA k
      (async.status
         (panel_status dA plasma k core_zgetrf
            (async.mk_sequence PlasmaSuccess,
             async.mk_request PlasmaSuccess)).1).

(** ** Tile ranges and written tiles *)

(** A tile of [A] on or below the diagonal, a tile of [T], and a tile of
    the workspace, inside the tile grids of their descriptors. *)
Definition tile_in_range (dA dW : plasma_desc_t) (a : tile_addr) : Prop :=
  match a with
  | plasma_tile_addr mat_A i j => 0 ≤ j ≤ i ∧ i < desc.mt dA
  | plasma_tile_addr mat_T i j => 0 ≤ i < desc.mt dA ∧ 0 ≤ j < desc.mt dA
  | plasma_tile_addr mat_W i j => j = 0 ∧ 0 ≤ i < desc.mt dW
  end.

Definition in_matrix (D : matrix_id) (a : tile_addr) : Prop :=
  match a with plasma_tile_addr D' _ _ => D' = D end.

(** The operands of [A] and [T], and those of [W]. *)
Definition factor_tiles_in_range (dA dW : plasma_desc_t) (t : task) : Prop :=
  Forall (λ a, ¬ in_matrix mat_W a → tile_in_range dA dW a) (task_operands t).

Definition workspace_tiles_in_range (dA dW : plasma_desc_t) (t : task)
    : Prop :=
  Forall (λ a, in_matrix mat_W a → tile_in_range dA dW a) (task_operands t).

Definition factor_call_in_range (dA dW : plasma_desc_t) (c : call) : Prop :=
  factor_tiles_in_range dA dW (submit c).

Definition workspace_call_in_range (dA dW : plasma_desc_t) (c : call)
    : Prop :=
  workspace_tiles_in_range dA dW (submit c).

(** The tasks of the pivoted panel factorization. *)
Definition is_pivoting (t : task) : Prop :=
  match t with
  | panel_zgetrf _ _ _ _ _ _ _ | ipiv_shift _ _ _
  | core_zlaswp _ _ _ _ _ _ | core_omp_zlaswp_sym _ _ _ _ => True
  | _ => False
  end.

(** What a kernel call of column [k] may write: a workspace tile, one of
    the three band tiles of the column, or a tile of column [k] of [A]
    below the diagonal. *)
Definition written_in_column (k : Z) (a : tile_addr) : Prop :=
  match a with
  | plasma_tile_addr mat_W _ _ => True
  | plasma_tile_addr mat_T i j =>
      (i = k ∧ j = k) ∨ (i = k + 1 ∧ j = k) ∨ (i = k ∧ j = k + 1)
  | plasma_tile_addr mat_A i j => j = k ∧ k < i
  end.

Definition call_writes_in_column (k : Z) (c : call) : Prop :=
  match dest c with Some a => written_in_column k a | None => True end.

(** [T(k,n) * L(k,n)^H], a term of [H(k,k)]. *)
Definition H_diag_term {tile} `{TileOps tile} (k n : Z) (s : store tile)
    : tile :=
  tile_mul (s (T k n)) (tile_ctrans (s (L k n))).

(** ** Reduction trees *)

(** The insertions of a list of operations, in order. *)
Definition insert_all (st : tree_state) (os : list operation) : tree_state :=
  fold_left
    (λ st o, insert_next st (op.kernel o) (op.col o) (op.row o) (op.rowpiv o))
    os st.

(** The number [nops] that each routine computes before it allocates the
    array. *)
Definition flat_nops (mt nt : Z) : Z :=
  let minnt := imin mt nt in
  minnt + (mt * minnt - ((minnt + 1) * minnt) `quot` 2).

Definition plasmatree_nops (mt nt : Z) : Z :=
  let minnt := imin mt nt in
  (mt `quot` BS + 1) * minnt
  + (mt * minnt - ((minnt + 1) * minnt) `quot` 2).

Definition greedy_nops (mt nt : Z) : Z :=
  let minnt := imin mt nt in
  (mt * minnt - ((minnt - 1) * minnt) `quot` 2)
  + (mt * minnt - ((minnt + 1) * minnt) `quot` 2).

(** The rows annihilated, and the rows triangularized, in column [k] by a
    list of operations, in the order of the list. *)
Definition annihilated (ops : list operation) (k : Z) : list Z :=
  op.row <$>
    filter (λ o, op.col o = k ∧ op.kernel o ≠ PlasmaGEKernel) ops.

Definition triangularized (ops : list operation) (k : Z) : list Z :=
  op.row <$>
    filter (λ o, op.col o = k ∧ op.kernel o = PlasmaGEKernel) ops.

(** Column [k] of the flat tree: the diagonal tile, then the tiles below
    it against the diagonal tile. *)
Definition flat_column (mt k : Z) : list operation :=
  op.mk PlasmaGEKernel k k (-1)
  :: ((λ m, op.mk PlasmaTSKernel k m k) <$> seqZ (k + 1) (mt - (k + 1))).

(** One block of PLASMA-Tree: the tile [M] and the tiles below it. *)
Definition plasmatree_block (mt k M : Z) : list operation :=
  op.mk PlasmaGEKernel k M (-1)
  :: ((λ m, op.mk PlasmaTSKernel k m M)
        <$> seqZ (M + 1) (imin (M + BS) mt - (M + 1))).

(** The operations of column [k] of PLASMA-Tree: the blocks of [BS] tiles,
    then the rounds that merge them. *)
Definition plasmatree_blocks (mt k : Z) : list operation :=
  M ← strided k mt BS;
  op.mk PlasmaGEKernel k M (-1)
  :: ((λ m, op.mk PlasmaTSKernel k m M)
        <$> seqZ (M + 1) (imin (M + BS) mt - (M + 1))).

Fixpoint plasmatree_merges (fuel : nat) (mt k rd : Z) : list operation :=
  if decide (rd < mt - k) then
    match fuel with
    | O => []
    | S fuel' =>
        ((λ M, op.mk PlasmaTTKernel k (M + rd) M)
           <$> strided k (mt - rd) (2 * rd))
        ++ plasmatree_merges fuel' mt k (rd * 2)
    end
  else [].

Definition plasmatree_column_ops (fuel : nat) (mt k : Z) : list operation :=
  plasmatree_blocks mt k ++ plasmatree_merges fuel mt k BS.

(** An operation is legal after the operations [pre] when it meets the
    tiles in the state its kernel expects.  The GE kernel triangularizes
    a tile that is neither triangularized nor annihilated yet and, right
    of the first column, whose left neighbour has been annihilated.  The
    TS and TT kernels use for their pivot a tile that is triangularized
    and not annihilated; the TS kernel annihilates a tile that is neither
    triangularized nor annihilated and whose left neighbour has been
    annihilated, the TT kernel a tile that is triangularized and not
    annihilated.  A row that the initialisation loop left is no
    operation. *)
Definition legal_next (pre : list operation) (o : operation) : Prop :=
  let c := op.col o in
  let ready := c = 0 ∨ op.row o ∈ annihilated pre (c - 1) in
  match op.kernel o with
  | PlasmaGEKernel =>
      (op.row o ∉ triangularized pre c) ∧ (op.row o ∉ annihilated pre c)
      ∧ ready
  | PlasmaTSKernel =>
      op.rowpiv o ∈ triangularized pre c
      ∧ (op.rowpiv o ∉ annihilated pre c)
      ∧ (op.row o ∉ triangularized pre c) ∧ (op.row o ∉ annihilated pre c)
      ∧ ready
  | PlasmaTTKernel =>
      op.rowpiv o ∈ triangularized pre c
      ∧ (op.rowpiv o ∉ annihilated pre c)
      ∧ op.row o ∈ triangularized pre c ∧ (op.row o ∉ annihilated pre c)
  | no_kernel => False
  end.

(** Every operation of the list is legal after the ones before it. *)
Definition legal (ops : list operation) : Prop :=
  ∀ pre o post, ops = pre ++ o :: post → legal_next pre o.

(** [NT[j]], [NZ[j]], and the sum of a list of counters. *)
Definition counter (l : list Z) (j : Z) : Z := l !!! Z.to_nat j.

Definition Zsum (l : list Z) : Z := foldr Z.add 0 l.

(** The operations that one visit of column [j] inserts: it triangularizes
    the tiles counted from [NTj] up to [nTnew], from the bottom row
    upwards, then annihilates [batch] tiles from the one counted [NZj]. *)
Definition greedy_triangularize (mt j NTj nTnew : Z) : list operation :=
  (λ k, op.mk PlasmaGEKernel j (mt - k - 1) (-1)) <$> seqZ NTj (nTnew - NTj).

Definition greedy_eliminate (mt j NZj batch : Z) : list operation :=
  (λ kk, op.mk PlasmaTTKernel j (mt - kk - 1) (mt - kk - 1 - batch))
    <$> seqZ NZj batch.

(** What the counters say about the operations inserted so far: in
    column [j] the [NT[j]] bottom tiles have been triangularized and the
    [NZ[j]] bottom tiles annihilated, from the bottom row upwards. *)
Record greedy_inv (mt minnt : Z) (block : list operation)
    (st : greedy.state) (os : list operation) : Prop := {
  inv_len_NZ : length (greedy.NZ st) = Z.to_nat minnt;
  inv_len_NT : length (greedy.NT st) = Z.to_nat minnt;
  inv_NZ : ∀ j, 0 ≤ j < minnt →
    0 ≤ counter (greedy.NZ st) j ≤ counter (greedy.NT st) j
    ∧ (1 ≤ counter (greedy.NT st) j →
       counter (greedy.NZ st) j < counter (greedy.NT st) j);
  inv_NT0 : counter (greedy.NT st) 0 = 0 ∨ counter (greedy.NT st) 0 = mt;
  inv_NT : ∀ j, 1 ≤ j < minnt →
    counter (greedy.NT st) j ≤ counter (greedy.NZ st) (j - 1);
  inv_out : greedy.out st = insert_all (block, 0) os;
  inv_tri : ∀ j, 0 ≤ j < minnt →
    triangularized os j
    = (λ k, mt - k - 1) <$> seqZ 0 (counter (greedy.NT st) j);
  inv_ann : ∀ j, 0 ≤ j < minnt →
    annihilated os j
    = (λ k, mt - k - 1) <$> seqZ 0 (counter (greedy.NZ st) j);
  inv_count :
    Z.of_nat (length os)
    = Zsum ((λ j, counter (greedy.NT st) j + counter (greedy.NZ st) j)
              <$> seqZ 0 minnt);
  inv_legal : legal os
}.

(** Column [j] is complete: its [mt - j] tiles on and below the diagonal
    are triangularized and the [mt - j - 1] below the diagonal
    annihilated. *)
Definition greedy_complete (mt : Z) (st : greedy.state) (j : Z) : Prop :=
  counter (greedy.NT st) j = mt - j ∧ counter (greedy.NZ st) j = mt - j - 1.

(** An array of [n] rows as [malloc] may return it, here with rows left
    over from an earlier use. *)
Definition stale_block (n : nat) : list operation :=
  replicate n (op.mk PlasmaTTKernel 7 7 7).

(** * Properties *)

(** ** Lists and offsets *)

Lemma bind_single_fmap {X Y} (f : X → Y) (l : list X) :
  l ≫= (λ x, [f x]) = f <$> l.
Proof. induction l as [|x l IH]; [done|]. rewrite bind_cons, IH. done. Qed.

Lemma fold_left_ext_in {X Y} (f g : Y → X → Y) (l : list X) (y : Y) :
  (∀ acc x, x ∈ l → f acc x = g acc x) → fold_left f l y = fold_left g l y.
Proof.
  revert y. induction l as [|x l IH]; intros y Hfg; [done|]. simpl.
  rewrite Hfg by left. apply IH. intros acc x' Hx'. apply Hfg. by right.
Qed.

Lemma filter_none {X} (P : X → Prop) `{∀ x, Decision (P x)} (l : list X) :
  (∀ x, x ∈ l → ¬ P x) → filter P l = [].
Proof.
  induction l as [|x l IH]; intros Hl; [done|].
  rewrite filter_cons_False by (apply Hl; left).
  apply IH. intros x' Hx'. apply Hl. by right.
Qed.

Lemma filter_ext_in {X} (P Q : X → Prop)
    `{∀ x, Decision (P x)} `{∀ x, Decision (Q x)} (l : list X) :
  (∀ x, x ∈ l → P x ↔ Q x) → filter P l = filter Q l.
Proof.
  induction l as [|x l IH]; intros Hl; [done|].
  rewrite !filter_cons, IH by (intros; apply Hl; by right).
  destruct (decide (P x)) as [HP|HP], (decide (Q x)) as [HQ|HQ]; try done.
  - destruct HQ. apply Hl; [left|done].
  - destruct HP. apply Hl; [left|done].
Qed.

Lemma fold_left_bind {X Y B} (f : B → Y → B) (g : X → list Y) (l : list X)
    (b : B) :
  fold_left f (l ≫= g) b = fold_left (λ acc x, fold_left f (g x) acc) l b.
Proof.
  revert b. induction l as [|x l IH]; intros b; [done|].
  rewrite bind_cons, fold_left_app. apply IH.
Qed.

(** A fold whose step fires for one element of a duplicate-free list. *)
Lemma fold_left_single {X B} `{EqDecision X} (F : X → B → B) (P : Prop)
    `{Decision P} (l : list X) (x0 : X) (b : B) :
  NoDup l → x0 ∈ l →
  fold_left (λ acc x, if decide (x = x0 ∧ P) then F x acc else acc) l b
  = if decide P then F x0 b else b.
Proof.
  intros Hnd. revert b. induction Hnd as [|x l Hx Hnd IH]; intros b Hin.
  { by apply elem_of_nil in Hin. }
  simpl. destruct (decide (x = x0)) as [->|Hne].
  - assert (∀ b', fold_left
              (λ acc x, if decide (x = x0 ∧ P) then F x acc else acc) l b'
            = b') as Hid.
    { clear IH Hin Hnd. induction l as [|y l IHl]; intros b'; [done|].
      simpl. apply not_elem_of_cons in Hx as [Hy Hx].
      rewrite decide_False by (intros [? _]; congruence). by apply IHl. }
    rewrite Hid. destruct (decide P).
    + rewrite decide_True by done. done.
    + rewrite decide_False by tauto. done.
  - apply elem_of_cons in Hin as [?|Hin]; [congruence|].
    rewrite decide_False by tauto. by apply IH.
Qed.

Lemma seqZ_split lo len (l1 l2 : list Z) x :
  seqZ lo len = l1 ++ x :: l2 → l1 = seqZ lo (x - lo) ∧ lo ≤ x < lo + len.
Proof.
  revert lo len. induction l1 as [|y l1 IH]; intros lo len Heq.
  - destruct (decide (0 < len)) as [Hlen|Hlen].
    + rewrite seqZ_cons in Heq by done. injection Heq as <- _.
      rewrite Z.sub_diag. split; [done|lia].
    + rewrite seqZ_nil in Heq by lia. discriminate.
  - destruct (decide (0 < len)) as [Hlen|Hlen].
    + rewrite seqZ_cons in Heq by done. injection Heq as <- Heq.
      apply IH in Heq as [-> Hx].
      split; [|lia]. rewrite (seqZ_cons lo (x - lo)) by lia.
      f_equal. f_equal. lia.
    + rewrite seqZ_nil in Heq by lia. discriminate.
Qed.

(** Where a call sits in a doubly nested loop. *)
Lemma bind_fmap_split {X Y C} (f : X → Y → C) (ys : list Y) (xs : list X)
    (pre : list C) (c : C) (post : list C) :
  (xs ≫= (λ x, f x <$> ys)) = pre ++ c :: post →
  ∃ xs1 x xs2 ys1 y ys2,
    xs = xs1 ++ x :: xs2 ∧ ys = ys1 ++ y :: ys2
    ∧ pre = (xs1 ≫= (λ x, f x <$> ys)) ++ (f x <$> ys1) ∧ c = f x y.
Proof.
  revert pre. induction xs as [|x xs IH]; intros pre Heq.
  { destruct pre; discriminate. }
  rewrite bind_cons in Heq.
  apply app_eq_app in Heq as [l [[H1 H2]|[H1 H2]]].
  - destruct l as [|c' l].
    + rewrite app_nil_r in H1. simpl in H2. symmetry in H2.
      apply (IH []) in H2 as (xs1 & x' & xs2 & ys1 & y & ys2 & -> & Hys & Hpre & ->).
      exists (x :: xs1), x', xs2, ys1, y, ys2.
      split; [done|]. split; [done|]. split; [|done].
      rewrite bind_cons, <- app_assoc, <- Hpre, app_nil_r. done.
    + injection H2 as <- ->.
      apply fmap_app_inv in H1 as (ys1 & ys' & -> & Hcl & ->).
      symmetry in Hcl. apply fmap_cons_inv in Hcl as (y & ys2 & -> & _ & ->).
      exists [], x, xs, ys1, y, ys2. done.
  - apply IH in H2 as (xs1 & x' & xs2 & ys1 & y & ys2 & -> & Hys & -> & ->).
    exists (x :: xs1), x', xs2, ys1, y, ys2.
    split; [done|]. split; [done|]. split; [|done].
    rewrite H1, bind_cons, <- app_assoc. done.
Qed.

Lemma fold_left_fmap {X Y B} (f : B → Y → B) (g : X → Y) (l : list X) (b : B) :
  fold_left f (g <$> l) b = fold_left (λ acc x, f acc (g x)) l b.
Proof. revert b. induction l as [|x l IH]; intros b; [done|]. apply IH. Qed.

Lemma fmap_bind_fmap {X Y C} (f : X → Y → C) (xs : list X) (ys : list Y) :
  xs ≫= (λ x, f x <$> ys)
  = (λ p, f p.1 p.2) <$> (xs ≫= (λ x, (λ y, (x, y)) <$> ys)).
Proof.
  induction xs as [|x xs IH]; [done|].
  rewrite !bind_cons, fmap_app, IH. f_equal.
  by rewrite <- list_fmap_compose.
Qed.

Lemma elem_of_pairs {X Y} (xs : list X) (ys : list Y) (p : X * Y) :
  p ∈ xs ≫= (λ x, (λ y, (x, y)) <$> ys) ↔ p.1 ∈ xs ∧ p.2 ∈ ys.
Proof.
  rewrite list_elem_of_bind. split.
  - intros (x & Hp & Hx). apply list_elem_of_fmap in Hp as (y & -> & Hy).
    done.
  - intros [Hx Hy]. exists p.1. split; [|done].
    apply list_elem_of_fmap. exists p.2. by destruct p.
Qed.

Lemma offset_inj (ld i j i' j' : Z) :
  0 ≤ i < ld → 0 ≤ i' < ld → i + j * ld = i' + j' * ld → i = i' ∧ j = j'.
Proof.
  intros Hi Hi' Heq. assert ((j - j') * ld = i' - i) as Hd by lia.
  assert (j - j' = 0) by nia. split; nia.
Qed.

(** ** Stores, runs and sums *)

Section Basics.
Context {tile : Type} {ops : TileOps tile} {laws : TileLaws tile}.
Implicit Types (s : store tile) (a b : tile_addr) (v : tile).
Implicit Types (cs : list call).

Lemma upd_eq s a v : upd s a v a = v.
Proof. unfold upd. by rewrite decide_True. Qed.

Lemma upd_ne s a b v : a ≠ b → upd s a v b = s b.
Proof. intros. unfold upd. by rewrite decide_False. Qed.

Lemma exec_nil s : exec [] s = s.
Proof. reflexivity. Qed.

Lemma exec_cons c cs s : exec (c :: cs) s = exec cs (exec_call s c).
Proof. reflexivity. Qed.

Lemma exec_app cs1 cs2 s : exec (cs1 ++ cs2) s = exec cs2 (exec cs1 s).
Proof. unfold exec. by rewrite fold_left_app. Qed.

Lemma exec_snoc cs c s : exec (cs ++ [c]) s = exec_call (exec cs s) c.
Proof. by rewrite exec_app. Qed.

(** A run leaves alone every tile that none of its calls writes. *)
Lemma exec_frame cs s a :
  Forall (λ c, dest c ≠ Some a) cs → exec cs s a = s a.
Proof.
  intros Hcs. revert s. induction Hcs as [|c cs Hc _ IH]; intros s; [done|].
  rewrite exec_cons, IH.
  destruct c; simpl in *; try done; apply upd_ne; congruence.
Qed.

Lemma tile_add_zero_r (x : tile) : tile_add x tile_zero = x.
Proof. by rewrite tile_add_comm, tile_add_zero_l. Qed.

Lemma zgeadd_one (x y : tile) :
  zgeadd PlasmaNoTrans zone x zone y = tile_add x y.
Proof. reflexivity. Qed.

Lemma zgemm_overwrite ta tb alpha (x y c : tile) :
  zgemm ta tb alpha x y zzero c = scal alpha (tile_mul (op ta x) (op tb y)).
Proof. unfold zgemm. simpl. apply tile_add_zero_l. Qed.

Lemma zgemm_accumulate ta tb alpha (x y c : tile) :
  zgemm ta tb alpha x y zone c
  = tile_add c (scal alpha (tile_mul (op ta x) (op tb y))).
Proof. reflexivity. Qed.

Lemma tile_sum_app (l1 l2 : list tile) :
  tile_sum (l1 ++ l2) = tile_add (tile_sum l1) (tile_sum l2).
Proof.
  induction l1 as [|x l1 IH]; simpl.
  - by rewrite tile_add_zero_l.
  - by rewrite IH, tile_add_assoc.
Qed.

Lemma tile_sum_snoc (l : list tile) (x : tile) :
  tile_sum (l ++ [x]) = tile_add (tile_sum l) x.
Proof. rewrite tile_sum_app. simpl. by rewrite tile_add_zero_r. Qed.

Lemma tile_sum_fmap_snoc {X} (f : X → tile) (l : list X) (x : X) :
  tile_sum (f <$> l ++ [x]) = tile_add (tile_sum (f <$> l)) (f x).
Proof. rewrite fmap_app. apply tile_sum_snoc. Qed.

Lemma tile_sum_opp (l : list tile) :
  tile_sum (tile_opp <$> l) = tile_opp (tile_sum l).
Proof.
  induction l as [|x l IH]; simpl.
  - by rewrite tile_opp_zero.
  - rewrite tile_opp_add. f_equal. apply IH.
Qed.

Lemma range_sum_empty (f : Z → tile) lo hi :
  hi ≤ lo → range_sum f lo hi = tile_zero.
Proof. intros. unfold range_sum. by rewrite seqZ_nil by lia. Qed.

Lemma range_sum_split (f : Z → tile) lo mid hi :
  lo ≤ mid ≤ hi →
  range_sum f lo hi = tile_add (range_sum f lo mid) (range_sum f mid hi).
Proof.
  intros. unfold range_sum.
  replace (hi - lo) with ((mid - lo) + (hi - mid)) by lia.
  rewrite seqZ_app by lia. rewrite fmap_app, tile_sum_app.
  by replace (lo + (mid - lo)) with mid by lia.
Qed.

Lemma range_sum_one (f : Z → tile) lo : range_sum f lo (lo + 1) = f lo.
Proof.
  unfold range_sum. replace (lo + 1 - lo) with 1 by lia.
  rewrite seqZ_cons by lia. rewrite seqZ_nil by lia. simpl.
  apply tile_add_zero_r.
Qed.

Lemma range_sum_last (f : Z → tile) lo hi :
  lo ≤ hi → range_sum f lo (hi + 1) = tile_add (range_sum f lo hi) (f hi).
Proof.
  intros. rewrite (range_sum_split f lo hi (hi + 1)) by lia.
  by rewrite range_sum_one.
Qed.

Lemma range_sum_first (f : Z → tile) lo hi :
  lo < hi → range_sum f lo hi = tile_add (f lo) (range_sum f (lo + 1) hi).
Proof.
  intros. rewrite (range_sum_split f lo (lo + 1) hi) by lia.
  by rewrite range_sum_one.
Qed.

Lemma range_sum_ext (f g : Z → tile) lo hi :
  (∀ i, lo ≤ i < hi → f i = g i) → range_sum f lo hi = range_sum g lo hi.
Proof.
  intros Hfg. unfold range_sum. f_equal.
  apply list_fmap_ext. intros i x Hx.
  apply list_elem_of_lookup_2, elem_of_seqZ in Hx. apply Hfg. lia.
Qed.

Lemma range_sum_opp (f : Z → tile) lo hi :
  range_sum (λ i, tile_opp (f i)) lo hi = tile_opp (range_sum f lo hi).
Proof.
  unfold range_sum. rewrite <- tile_sum_opp. f_equal.
  by rewrite <- list_fmap_compose.
Qed.
End Basics.

(** ** The tournament reduction *)

Lemma tournament_as_pairs rounds num_players skip body :
  tournament rounds num_players skip body
  = tournament_pairs rounds num_players skip ≫= (λ p, body p.1 p.2).
Proof.
  revert num_players skip.
  induction rounds as [|r IH]; intros num_players skip; simpl; [done|].
  rewrite bind_app, IH. f_equal.
  unfold round_pairs. by rewrite list_fmap_bind.
Qed.

Lemma quot_double q : (2 * q) `quot` 2 = q.
Proof. rewrite Z.mul_comm. apply Z.quot_mul. lia. Qed.

Lemma players_quot (p : Z) : 0 ≤ p → p `quot` 2 = p `div` 2.
Proof. intros. apply Z.quot_div_nonneg; lia. Qed.

(** Every contender of the tournament is one of the [P] slots, provided
    the player count matches the stride: [players = ceil(P / q)]. *)
Lemma tournament_pairs_bounds P rounds :
  1 ≤ P →
  ∀ players q,
    0 < q → (players - 1) * q < P ≤ players * q →
    Forall (λ p, 0 ≤ p.1 < p.2 ∧ p.2 < P)
      (tournament_pairs rounds players (2 * q)).
Proof.
  intros HP.
  induction rounds as [|r IH]; intros players q Hq Hp; simpl; [constructor|].
  assert (1 ≤ players) as Hpl by nia.
  apply Forall_app. split.
  - unfold round_pairs. rewrite Forall_fmap. apply Forall_seqZ.
    intros b Hb. simpl. rewrite quot_double.
    rewrite players_quot in Hb by lia.
    assert (2 * b + 1 ≤ players - 1) by (pose proof (Z.div_mod players 2); pose proof (Z.mod_pos_bound players 2); lia).
    nia.
  - apply IH; [lia|]. unfold ceil_half.
    pose proof (Z.div_mod (players + 1) 2).
    pose proof (Z.mod_pos_bound (players + 1) 2). nia.
Qed.

Section Tournament.
Context {tile : Type} {ops : TileOps tile} {laws : TileLaws tile}.

Lemma stride_pairs_S q n :
  stride_pairs q (S n)
  = stride_pairs q n ++ [(2 * q * Z.of_nat n, 2 * q * Z.of_nat n + q)].
Proof. unfold stride_pairs. by rewrite seqZ_S, fmap_app. Qed.

(** One round leaves alone every slot that is not a first contender. *)
Lemma round_untouched q n (v : Z → tile) x :
  (∀ b, 0 ≤ b < Z.of_nat n → x ≠ 2 * q * b) →
  reduce_pairs (stride_pairs q n) v x = v x.
Proof.
  induction n as [|n IH]; intros Hx; [done|].
  rewrite stride_pairs_S. unfold reduce_pairs in *.
  rewrite fold_left_app. simpl. unfold add_into at 1. simpl.
  rewrite decide_False by (apply Hx; lia).
  apply IH. intros b Hb. apply Hx. lia.
Qed.

(** One round adds the second contender of each bracket into the first. *)
Lemma round_bracket q n (v : Z → tile) b :
  0 < q → 0 ≤ b < Z.of_nat n →
  reduce_pairs (stride_pairs q n) v (2 * q * b)
  = tile_add (v (2 * q * b + q)) (v (2 * q * b)).
Proof.
  intros Hq. induction n as [|n IH]; intros Hb; [lia|].
  rewrite stride_pairs_S. unfold reduce_pairs in *.
  rewrite fold_left_app. simpl. unfold add_into at 1. simpl.
  destruct (decide (2 * q * b = 2 * q * Z.of_nat n)) as [Heq|Hne].
  - assert (b = Z.of_nat n) as -> by nia.
    rewrite zgeadd_one. f_equal.
    + apply round_untouched. intros b' Hb'. nia.
    + apply round_untouched. intros b' Hb'. nia.
  - apply IH. assert (b ≠ Z.of_nat n) by congruence. lia.
Qed.

(** The invariant of the rounds: at stride [q] every live slot [j*q] holds
    the sum of the initial slots [j*q .. (j+1)*q - 1] that exist. *)
Lemma tournament_pairs_sum (v0 : Z → tile) P :
  1 ≤ P →
  ∀ rounds players q (v : Z → tile),
    0 < q → (players - 1) * q < P ≤ players * q →
    (∀ j, 0 ≤ j → j * q < P →
          v (j * q) = range_sum v0 (j * q) (Z.min ((j + 1) * q) P)) →
    reduce_pairs (tournament_pairs rounds players (2 * q)) v 0
    = range_sum v0 0 (Z.min (q * 2 ^ Z.of_nat rounds) P).
Proof.
  intros HP. induction rounds as [|r IH]; intros players q v Hq Hp Hinv.
  - simpl. rewrite Z.mul_1_r.
    specialize (Hinv 0). rewrite !Z.mul_0_l, Z.add_0_l, Z.mul_1_l in Hinv.
    apply Hinv; lia.
  - assert (1 ≤ players) as Hpl by nia.
    simpl tournament_pairs. unfold reduce_pairs. rewrite fold_left_app.
    fold (reduce_pairs (round_pairs players (2 * q)) v).
    set (v' := reduce_pairs (round_pairs players (2 * q)) v).
    fold (reduce_pairs
            (tournament_pairs r (ceil_half players) (2 * (2 * q))) v').
    assert (Hrp : round_pairs players (2 * q)
                  = stride_pairs q (Z.to_nat (players `div` 2))).
    { unfold round_pairs, stride_pairs.
      rewrite quot_double, players_quot by lia.
      rewrite Z2Nat.id by (apply Z.div_pos; lia). done. }
    pose proof (Z.div_mod players 2) as Hdm.
    pose proof (Z.mod_pos_bound players 2) as Hmb.
    pose proof (Z.div_mod (players + 1) 2) as Hdm'.
    pose proof (Z.mod_pos_bound (players + 1) 2) as Hmb'.
    rewrite (IH (ceil_half players) (2 * q) v').
    + f_equal. f_equal. rewrite Nat2Z.inj_succ, Z.pow_succ_r by lia. lia.
    + lia.
    + unfold ceil_half. nia.
    + intros j Hj Hjq. subst v'. rewrite Hrp.
      replace (j * (2 * q)) with (2 * q * j) by lia.
      destruct (decide (j < players `div` 2)) as [Hlt|Hge].
      * rewrite round_bracket by lia.
        replace (2 * q * j + q) with ((2 * j + 1) * q) by lia.
        replace (2 * q * j) with ((2 * j) * q) by lia.
        rewrite !Hinv by nia.
        rewrite tile_add_comm.
        replace (Z.min ((2 * j + 1) * q) P) with ((2 * j + 1) * q) by nia.
        replace ((2 * j + 1 + 1) * q) with ((j + 1) * (2 * q)) by lia.
        symmetry. apply range_sum_split. nia.
      * rewrite round_untouched.
        2:{ intros b Hb. rewrite Z2Nat.id in Hb by (apply Z.div_pos; lia).
            nia. }
        replace (2 * q * j) with ((2 * j) * q) by lia.
        rewrite Hinv by nia. f_equal. nia.
Qed.

(** With at least [log2_up P] rounds, slot 0 ends as the sum of all [P]
    initial slots. *)
Lemma reduce_pairs_total (v : Z → tile) P rounds :
  1 ≤ P → Z.log2_up P ≤ Z.of_nat rounds →
  reduce_pairs (tournament_pairs rounds P 2) v 0 = range_sum v 0 P.
Proof.
  intros HP Hr.
  replace 2 with (2 * 1) at 1 by lia.
  rewrite (tournament_pairs_sum v P HP rounds P 1 v); [| lia | lia |].
  - f_equal. rewrite Z.mul_1_l.
    assert (P ≤ 2 ^ Z.of_nat rounds); [|lia].
    destruct (decide (P = 1)) as [->|].
    { pose proof (Z.pow_pos_nonneg 2 (Z.of_nat rounds)). lia. }
    pose proof (Z.log2_up_spec P ltac:(lia)) as [_ Hup].
    etrans; [exact Hup|]. apply Z.pow_le_mono_r; lia.
  - intros j Hj HjP. rewrite !Z.mul_1_r.
    replace (Z.min (j + 1) P) with (j + 1) by lia.
    by rewrite range_sum_one.
Qed.

Lemma reduce_pairs_ext (ps : list (Z * Z)) P (v w : Z → tile) :
  Forall (λ p, 0 ≤ p.1 < P ∧ 0 ≤ p.2 < P) ps →
  (∀ i, 0 ≤ i < P → v i = w i) →
  ∀ i, 0 ≤ i < P → reduce_pairs ps v i = reduce_pairs ps w i.
Proof.
  intros Hps. revert v w.
  induction Hps as [|p ps Hp _ IH]; intros v w Hvw; [done|].
  simpl. apply IH. intros i Hi. unfold add_into.
  case_decide; [|by apply Hvw]. by rewrite !Hvw by lia.
Qed.

(** Running the submitted calls and reducing the slot vector agree, as
    long as each [body m1 m2] acts on the slots [σ] as [slot[m1] +=
    slot[m2]]. *)
Lemma exec_pairs_view (σ : Z → tile_addr) (body : Z → Z → list call) P
    (ps : list (Z * Z)) :
  Forall (λ p, 0 ≤ p.1 < P ∧ 0 ≤ p.2 < P) ps →
  (∀ (s : store tile) m1 m2 i,
      0 ≤ m1 < P → 0 ≤ m2 < P → 0 ≤ i < P →
      exec (body m1 m2) s (σ i)
      = add_into (λ j, s (σ j)) (m1, m2) i) →
  ∀ (s : store tile) i, 0 ≤ i < P →
    exec (ps ≫= (λ p, body p.1 p.2)) s (σ i)
    = reduce_pairs ps (λ j, s (σ j)) i.
Proof.
  intros Hps Hbody.
  induction Hps as [|[m1 m2] ps [Hp1 Hp2] Hps IH]; intros s i Hi; [done|].
  rewrite bind_cons, exec_app. simpl in *.
  rewrite IH by done.
  apply (reduce_pairs_ext ps P); [|intros j Hj; by apply Hbody|done].
  done.
Qed.
End Tournament.

#[global] Instance Z_tile_laws : TileLaws Z.
Proof. split; simpl; intros; lia. Qed.

(** ** Tournament reduction over the workspace slots *)

Section Reduction.
Context {tile : Type} {ops : TileOps tile} {laws : TileLaws tile}.
Variables (dA : plasma_desc_t) (ceil_log2 : Z → Z).
Implicit Types (s : store tile).

Lemma W3_inj i j : W3 dA i = W3 dA j → i = j.
Proof. unfold W3. intros [= ?]. lia. Qed.

Lemma tournament_pairs_in_range P rounds :
  1 ≤ P →
  Forall (λ p, 0 ≤ p.1 < P ∧ 0 ≤ p.2 < P) (tournament_pairs rounds P 2).
Proof.
  intros HP. replace 2 with (2 * 1) by lia.
  eapply Forall_impl; [apply (tournament_pairs_bounds P rounds HP P 1); lia|].
  simpl. intros [m1 m2]. simpl. lia.
Qed.

Lemma diag_reduce_slot0 P s :
  1 ≤ P → Z.log2_up P ≤ ceil_log2 P →
  exec (diag_reduce dA ceil_log2 P) s (W3 dA 0)
  = range_sum (λ j, s (W3 dA j)) 0 P.
Proof.
  intros HP Hr. unfold diag_reduce. rewrite tournament_as_pairs.
  rewrite (exec_pairs_view (W3 dA)
             (λ m1 m2, [core_omp_zgeadd PlasmaNoTrans
                          zone (W3 dA m2) zone (W3 dA m1)]) P); [| | | lia].
  - apply reduce_pairs_total; [done|]. lia.
  - by apply tournament_pairs_in_range.
  - intros s' m1 m2 i _ _ _. simpl. unfold add_into. simpl.
    case_decide as Hi.
    + subst i. by rewrite upd_eq.
    + rewrite upd_ne; [done|]. intros ?%W3_inj. done.
Qed.

Lemma row_slot_eq k num m m0 i j :
  1 ≤ num → 0 ≤ i < num → 0 ≤ j < num →
  W4 dA ((m - k - 1) * num + i) = row_slot dA k num m0 j → m = m0 ∧ i = j.
Proof.
  unfold row_slot, W4. intros ? ? ? [= Heq].
  assert ((m - m0) * num = j - i) as Hd by lia.
  assert (m - m0 = 0) by nia. split; nia.
Qed.

Lemma row_bracket_other k num m1 m2 ms m0 i s :
  1 ≤ num → 0 ≤ m1 < num → 0 ≤ i < num → m0 ∉ ms →
  exec (row_bracket dA k num m1 m2 ms) s (row_slot dA k num m0 i)
  = s (row_slot dA k num m0 i).
Proof.
  intros Hnum Hm1 Hi Hm0. apply exec_frame.
  unfold row_bracket. apply Forall_bind, Forall_forall.
  intros m Hm. constructor; [|constructor]. simpl.
  intros Heq. apply (inj Some) in Heq.
  apply row_slot_eq in Heq as [-> _]; done.
Qed.

Lemma row_bracket_view k num m1 m2 ms m0 i s :
  1 ≤ num → 0 ≤ m1 < num → 0 ≤ m2 < num → 0 ≤ i < num →
  NoDup ms → m0 ∈ ms →
  exec (row_bracket dA k num m1 m2 ms) s (row_slot dA k num m0 i)
  = add_into (λ j, s (row_slot dA k num m0 j)) (m1, m2) i.
Proof.
  intros Hnum Hm1 Hm2 Hi Hnd. revert s.
  induction Hnd as [|m ms Hm Hnd IH]; intros s Hin.
  { by apply elem_of_nil in Hin. }
  unfold row_bracket. rewrite bind_cons.
  fold (row_bracket dA k num m1 m2 ms). rewrite exec_app.
  destruct (decide (m = m0)) as [->|Hne].
  - rewrite row_bracket_other by done.
    unfold add_into, row_slot. simpl.
    case_decide as Hi1.
    + subst i. by rewrite upd_eq.
    + rewrite upd_ne; [done|]. unfold W4. intros [= ?]. lia.
  - apply elem_of_cons in Hin as [?|Hin]; [congruence|].
    rewrite IH by done. unfold add_into. simpl.
    assert (∀ j, 0 ≤ j < num →
      upd s (W4 dA ((m - k - 1) * num + m1))
        (zgeadd PlasmaNoTrans
           zone (s (W4 dA ((m - k - 1) * num + m2)))
           zone (s (W4 dA ((m - k - 1) * num + m1))))
        (row_slot dA k num m0 j)
      = s (row_slot dA k num m0 j)) as Hsame.
    { intros j Hj. apply upd_ne.
      intros Heq. apply row_slot_eq in Heq as [? _]; done. }
    rewrite !Hsame by done. done.
Qed.

Lemma column_reduce_slot0 k num m0 s :
  1 ≤ num → Z.log2_up num ≤ ceil_log2 num →
  k + 1 ≤ m0 < desc.mt dA →
  exec (column_reduce dA ceil_log2 k num) s (row_slot dA k num m0 0)
  = range_sum (λ j, s (row_slot dA k num m0 j)) 0 num.
Proof.
  intros Hnum Hr Hm0. unfold column_reduce. rewrite tournament_as_pairs.
  rewrite (exec_pairs_view (row_slot dA k num m0)
             (λ m1 m2, row_bracket dA k num m1 m2
                         (seqZ (k + 1) (desc.mt dA - (k + 1)))) num);
    [| | | lia].
  - apply reduce_pairs_total; [done|]. lia.
  - by apply tournament_pairs_in_range.
  - intros s' m1 m2 i Hm1 Hm2 Hi. simpl.
    apply (row_bracket_view k num m1 m2); try done.
    + apply NoDup_seqZ.
    + apply elem_of_seqZ. lia.
Qed.

(** C2. The tournament reduction leaves in slot 0 the sum of all [P]
    initial slots, for every slot count [P >= 1] and every initial
    content, whatever the parity of the player count in any round: both
    for the slots [W3(0..P-1)] of the diagonal assembly and, per tile row
    [m0], for the slots [W4((m0-k-1)*P + 0..P-1)] of the column update.
    The number of rounds is the value of
    [ceil(log10(P)/log10(2.0))]; all that is asked of it is that it is
    not below [log2_up P] (an extra round has no bracket). *)
Theorem tournament_reduction_sum (P : Z) (s : store tile) :
  1 ≤ P → Z.log2_up P ≤ ceil_log2 P →
  exec (diag_reduce dA ceil_log2 P) s (W3 dA 0)
  = range_sum (λ j, s (W3 dA j)) 0 P
  ∧ ∀ k m0, k + 1 ≤ m0 < desc.mt dA →
      exec (column_reduce dA ceil_log2 k P) s (W4 dA ((m0 - k - 1) * P))
      = range_sum (λ j, s (W4 dA ((m0 - k - 1) * P + j))) 0 P.
Proof.
  intros HP Hr. split; [by apply diag_reduce_slot0|].
  intros k m0 Hm0.
  pose proof (column_reduce_slot0 k P m0 s HP Hr Hm0) as Hc.
  unfold row_slot in Hc. by rewrite Z.add_0_r in Hc.
Qed.
End Reduction.

(** The slot counts 1, 2, 3, 5, 8 and 17 on the numbered store, where slot
    [j] holds [309 + j]. *)
Example tournament_slot_counts :
  Forall
    (λ P, exec (diag_reduce desc_A3 Z.log2_up P) numbered_store
            (W3 desc_A3 0)
          = 309 * P + (P * (P - 1)) `div` 2)
    [1; 2; 3; 5; 8; 17].
Proof. repeat (constructor; [vm_compute; reflexivity|]). constructor. Qed.

Lemma tournament_reduction_sum_witness :
  1 ≤ 5 ∧ Z.log2_up 5 ≤ Z.log2_up 5 ∧
  exec (diag_reduce desc_A3 Z.log2_up 5) numbered_store (W3 desc_A3 0)
  = range_sum (λ j, numbered_store (W3 desc_A3 j)) 0 5.
Proof.
  split; [lia|]. split; [reflexivity|].
  apply (tournament_reduction_sum desc_A3 Z.log2_up 5 numbered_store);
    [lia | reflexivity].
Defined.

(** ** Round-robin accumulation into workspace slots *)

Lemma slot_of_bounds num n : 1 ≤ num → 1 ≤ n → 0 ≤ slot_of num n < num.
Proof. intros. unfold slot_of. apply Z.rem_bound_pos; lia. Qed.

Lemma slot_of_small num n : 1 ≤ n ≤ num → slot_of num n = n - 1.
Proof. intros. unfold slot_of. apply Z.rem_small. lia. Qed.

Lemma class_S num j (M : nat) :
  class num j (Z.of_nat (S M))
  = class num j (Z.of_nat M)
    ++ (if decide (slot_of num (1 + Z.of_nat M) = j)
        then [1 + Z.of_nat M] else []).
Proof.
  unfold class. by rewrite seqZ_S, filter_app.
Qed.

Lemma class_empty num j M : 1 ≤ num → M ≤ j < num → class num j M = [].
Proof.
  intros Hnum Hj. apply filter_none. intros n Hn%elem_of_seqZ.
  rewrite slot_of_small by lia. lia.
Qed.

(** A slot that has been reached already has its first contributor. *)
Lemma class_first num j M :
  1 ≤ num → 0 ≤ j < num → j < M → j + 1 ∈ class num j M.
Proof.
  intros. unfold class. apply list_elem_of_filter. split.
  - rewrite slot_of_small by lia. lia.
  - apply elem_of_seqZ. lia.
Qed.

Section Accumulate.
Context {tile : Type} {ops : TileOps tile} {laws : TileLaws tile}.
Implicit Types (s : store tile).

(** A run of multiply-accumulates whose operands are never written: the
    value left in a tile is a fold over the calls that target it, with
    the operands read in the initial store. *)
Lemma exec_accumulate {X} (items : list X) (a b d : X → tile_addr)
    (beta : X → coef) s t :
  (∀ x y, x ∈ items → y ∈ items → a x ≠ d y ∧ b x ≠ d y) →
  exec ((λ x, core_omp_zgemm PlasmaNoTrans PlasmaNoTrans
                zmone (a x) (b x) (beta x) (d x)) <$> items) s t
  = fold_left
      (λ acc x, if decide (d x = t)
                then zgemm PlasmaNoTrans PlasmaNoTrans
                       zmone (s (a x)) (s (b x)) (beta x) acc
                else acc)
      items (s t).
Proof.
  induction items as [|x items IH] using rev_ind; intros Hrd; [done|].
  rewrite fmap_app, exec_app, fold_left_app.
  set (s' := exec (_ <$> items) s).
  change (upd s' (d x)
            (zgemm PlasmaNoTrans PlasmaNoTrans
               zmone (s' (a x)) (s' (b x)) (beta x) (s' (d x))) t
          = (if decide (d x = t)
             then zgemm PlasmaNoTrans PlasmaNoTrans zmone
                    (s (a x)) (s (b x)) (beta x)
                    (fold_left
                       (λ acc x, if decide (d x = t)
                          then zgemm PlasmaNoTrans PlasmaNoTrans
                                 zmone (s (a x)) (s (b x)) (beta x) acc
                          else acc) items (s t))
             else fold_left
                       (λ acc x, if decide (d x = t)
                          then zgemm PlasmaNoTrans PlasmaNoTrans
                                 zmone (s (a x)) (s (b x)) (beta x) acc
                          else acc) items (s t))).
  assert (∀ u, (∀ y, y ∈ items → u ≠ d y) → s' u = s u) as Hfr.
  { intros u Hu. subst s'. apply exec_frame.
    rewrite Forall_fmap. apply Forall_forall. intros y Hy. simpl.
    intros [= ?]. by eapply Hu. }
  assert (x ∈ items ++ [x]) as Hx.
  { apply elem_of_app. right. by apply list_elem_of_singleton. }
  assert (∀ y, y ∈ items → y ∈ items ++ [x]) as Hin.
  { intros y Hy. apply elem_of_app. by left. }
  assert (s' (a x) = s (a x)) as ->.
  { apply Hfr. intros y Hy. apply Hrd; auto. }
  assert (s' (b x) = s (b x)) as ->.
  { apply Hfr. intros y Hy. apply Hrd; auto. }
  assert (s' t = fold_left
      (λ acc x, if decide (d x = t)
                then zgemm PlasmaNoTrans PlasmaNoTrans
                       zmone (s (a x)) (s (b x)) (beta x) acc
                else acc) items (s t)) as Ht.
  { apply IH. intros x' y' ? ?. apply Hrd; auto. }
  case_decide as Hd.
  - subst t. by rewrite upd_eq, Ht.
  - by rewrite upd_ne, Ht.
Qed.

Lemma slot_fold num j (term : Z → tile) (init : tile) (M : nat) :
  1 ≤ num → 0 ≤ j < num →
  fold_left (slot_step num j term) (seqZ 1 (Z.of_nat M)) init
  = if decide (j < Z.of_nat M)
    then tile_sum (term <$> class num j (Z.of_nat M))
    else init.
Proof.
  intros Hnum Hj. induction M as [|M IH].
  { simpl. rewrite decide_False by lia. done. }
  rewrite seqZ_S, fold_left_app, IH, class_S. cbn [fold_left].
  unfold slot_step at 1.
  destruct (decide (slot_of num (1 + Z.of_nat M) = j)) as [Hs|Hs].
  - rewrite (decide_True (P := j < Z.of_nat (S M))); cycle 1.
    { pose proof (slot_of_bounds num (1 + Z.of_nat M)).
      destruct (decide (Z.of_nat M < num)).
      - rewrite slot_of_small in Hs by lia. lia.
      - lia. }
    rewrite tile_sum_fmap_snoc. unfold beta_of.
    destruct (decide (1 + Z.of_nat M < num + 1)) as [Hlt|Hge].
    + rewrite slot_of_small in Hs by lia.
      rewrite class_empty by lia. simpl.
      by rewrite !tile_add_zero_l.
    + rewrite decide_True by lia. done.
  - rewrite app_nil_r.
    destruct (decide (j < Z.of_nat M)).
    + rewrite decide_True by lia. done.
    + rewrite decide_False; [done|].
      intros ?. apply Hs. rewrite slot_of_small by lia. lia.
Qed.

Lemma range_sum_zero lo hi :
  range_sum (λ _, tile_zero : tile) lo hi = tile_zero.
Proof.
  unfold range_sum. induction (seqZ lo (hi - lo)) as [|x l IH]; [done|].
  simpl. rewrite tile_add_zero_l. apply IH.
Qed.

(** Adding [t] to one term of a range sum adds [t] to the sum. *)
Lemma range_sum_bump (F : Z → tile) (t : tile) j0 lo hi :
  lo ≤ j0 < hi →
  range_sum (λ j, if decide (j0 = j) then tile_add t (F j) else F j) lo hi
  = tile_add t (range_sum F lo hi).
Proof.
  intros Hj0.
  rewrite (range_sum_split _ lo j0 hi), (range_sum_first _ j0 hi) by lia.
  rewrite (range_sum_split F lo j0 hi), (range_sum_first F j0 hi) by lia.
  rewrite decide_True by done.
  rewrite (range_sum_ext _ F lo j0); cycle 1.
  { intros i Hi. rewrite decide_False by lia. done. }
  rewrite (range_sum_ext _ F (j0 + 1) hi); cycle 1.
  { intros i Hi. rewrite decide_False by lia. done. }
  set (S1 := range_sum F lo j0). set (S2 := range_sum F (j0 + 1) hi).
  rewrite <- !tile_add_assoc.
  rewrite (tile_add_assoc S1 t), (tile_add_comm S1 t).
  by rewrite <- !tile_add_assoc.
Qed.

(** Summing the slots sums every contributor once. *)
Lemma class_partition (term : Z → tile) (cls : Z → Z) num (l : list Z) :
  (∀ x, x ∈ l → 0 ≤ cls x < num) →
  range_sum (λ j, tile_sum (term <$> filter (λ x, cls x = j) l)) 0 num
  = tile_sum (term <$> l).
Proof.
  induction l as [|x l IH]; intros Hl.
  { simpl. apply range_sum_zero. }
  rewrite fmap_cons. simpl.
  rewrite <- IH by (intros; apply Hl; by right).
  rewrite <- (range_sum_bump _ (term x) (cls x)) by (apply Hl; left).
  apply range_sum_ext. intros j Hj. rewrite filter_cons.
  destruct (decide (cls x = j)); done.
Qed.
End Accumulate.

(** ** The two in-line loops, on tile entries *)

Section Entries.
Context {entry : Type} (conj : entry → entry).

(** A run of copies [t[dst p] = conj(t[src p])] in which no source is ever
    a destination, and a destination determines its source. *)
Lemma copy_run {X} (ps : list X) (dst src : X → Z) (t : buffer entry) :
  (∀ p q, p ∈ ps → q ∈ ps → src p ≠ dst q) →
  (∀ p q, p ∈ ps → q ∈ ps → dst p = dst q → src p = src q) →
  let t' := fold_left (λ t p, poke t (dst p) (conj (t (src p)))) ps t in
  (∀ p, p ∈ ps → t' (dst p) = conj (t (src p)))
  ∧ (∀ x, (∀ p, p ∈ ps → x ≠ dst p) → t' x = t x).
Proof.
  induction ps as [|q ps IH] using rev_ind; intros Hsd Hfun; simpl.
  { split; [intros p Hp; by apply elem_of_nil in Hp|done]. }
  rewrite fold_left_app. simpl.
  destruct IH as [IH1 IH2].
  { intros p p' Hp Hp'. apply Hsd; apply elem_of_app; by left. }
  { intros p p' Hp Hp'. apply Hfun; apply elem_of_app; by left. }
  assert (q ∈ ps ++ [q]) as Hq.
  { apply elem_of_app. right. by apply list_elem_of_singleton. }
  assert (∀ p, p ∈ ps → p ∈ ps ++ [q]) as Hin.
  { intros p Hp. apply elem_of_app. by left. }
  split.
  - intros p Hp. unfold poke at 1. case_decide as Hd.
    + rewrite IH2 by (intros p' Hp'; apply Hsd; auto).
      f_equal. f_equal. symmetry. by apply Hfun.
    + apply elem_of_app in Hp as [Hp|Hp%list_elem_of_singleton];
        [by apply IH1|]. by subst p.
  - intros x Hx. unfold poke at 1. rewrite decide_False by (by apply Hx).
    apply IH2. intros p Hp. apply Hx. auto.
Qed.

Lemma nested_as_pairs {B} (f : B → Z → Z → B) (inner : Z → list Z)
    (outer : list Z) (b : B) :
  fold_left (λ acc j, fold_left (λ acc i, f acc i j) (inner j) acc) outer b
  = fold_left (λ acc p, f acc p.1 p.2)
      (outer ≫= (λ j, (λ i, (i, j)) <$> inner j)) b.
Proof.
  rewrite fold_left_bind. apply fold_left_ext_in. intros acc j _.
  by rewrite fold_left_fmap.
Qed.

Lemma elem_of_index_pairs (inner : Z → list Z) (outer : list Z) (p : Z * Z) :
  p ∈ outer ≫= (λ j, (λ i, (i, j)) <$> inner j)
  ↔ p.2 ∈ outer ∧ p.1 ∈ inner p.2.
Proof.
  rewrite list_elem_of_bind. split.
  - intros (j & Hp & Hj). apply list_elem_of_fmap in Hp as (i & -> & Hi).
    done.
  - intros [Hj Hi]. exists p.2. split; [|done].
    apply list_elem_of_fmap. exists p.1. by destruct p.
Qed.

(** The expansion loop fills the strict upper triangle with the conjugates
    of the mirrored lower entries and leaves every other offset alone. *)
Lemma expand_to_full_entries (mvak ldtk : Z) (t : buffer entry) :
  mvak ≤ ldtk →
  (∀ i j, 0 ≤ i < j → j < mvak →
     expand_to_full conj mvak ldtk t (i + j * ldtk) = conj (t (j + i * ldtk)))
  ∧ (∀ i j, 0 ≤ j ≤ i → i < ldtk →
       expand_to_full conj mvak ldtk t (i + j * ldtk) = t (i + j * ldtk)).
Proof.
  intros Hld. unfold expand_to_full.
  rewrite (nested_as_pairs
             (λ t i j, poke t (i + j * ldtk) (conj (t (j + i * ldtk))))
             (λ j, seqZ 0 j)).
  destruct (copy_run (seqZ 0 mvak ≫= (λ j, (λ i, (i, j)) <$> seqZ 0 j))
              (λ p, p.1 + p.2 * ldtk) (λ p, p.2 + p.1 * ldtk) t)
    as [Hup Hrest].
  { intros [i j] [i' j'] [Hj Hi]%elem_of_index_pairs
      [Hj' Hi']%elem_of_index_pairs. simpl in *.
    apply elem_of_seqZ in Hj, Hi, Hj', Hi'. intros Heq.
    apply offset_inj in Heq; lia. }
  { intros [i j] [i' j'] [Hj Hi]%elem_of_index_pairs
      [Hj' Hi']%elem_of_index_pairs. simpl in *.
    apply elem_of_seqZ in Hj, Hi, Hj', Hi'. intros Heq.
    apply offset_inj in Heq as [-> ->]; lia. }
  split.
  - intros i j Hi Hj. apply (Hup (i, j)). apply elem_of_index_pairs. simpl.
    split; apply elem_of_seqZ; lia.
  - intros i j Hj Hi. apply Hrest.
    intros [i' j'] [Hj' Hi']%elem_of_index_pairs. simpl in *.
    apply elem_of_seqZ in Hj', Hi'. intros Heq.
    apply offset_inj in Heq; lia.
Qed.

(** A run of stores [d[dst p] = val p] in which a destination determines
    the value stored. *)
Lemma store_run {X} (ps : list X) (dst : X → Z) (val : X → entry)
    (d : buffer entry) :
  (∀ p q, p ∈ ps → q ∈ ps → dst p = dst q → val p = val q) →
  ∀ p, p ∈ ps →
    fold_left (λ d p, poke d (dst p) (val p)) ps d (dst p) = val p.
Proof.
  induction ps as [|q ps IH] using rev_ind; intros Hfun p Hp.
  { by apply elem_of_nil in Hp. }
  rewrite fold_left_app. simpl. unfold poke at 1.
  assert (q ∈ ps ++ [q]) as Hq.
  { apply elem_of_app. right. by apply list_elem_of_singleton. }
  case_decide as Hd; [symmetry; by apply Hfun|].
  apply elem_of_app in Hp as [Hp|Hp%list_elem_of_singleton];
    [|by subst p].
  apply IH; [|done].
  intros p1 p2 Hp1 Hp2. apply Hfun; apply elem_of_app; by left.
Qed.

(** The mirror loop writes into entry [(i, j)] of [T(k,k+1)] the conjugate
    of entry [(j, i)] of [T(k+1,k)]. *)
Lemma mirror_band_entries (mvakp1 mvak ldtk ldtkp1 : Z) (src dst : buffer entry) :
  mvak ≤ ldtk →
  ∀ i j, 0 ≤ i < mvak → 0 ≤ j < mvakp1 →
    mirror_band conj mvakp1 mvak ldtk ldtkp1 src dst (i + j * ldtk)
    = conj (src (j + i * ldtkp1)).
Proof.
  intros Hld i j Hi Hj. unfold mirror_band.
  rewrite (nested_as_pairs
             (λ d i j, poke d (i + j * ldtk) (conj (src (j + i * ldtkp1))))
             (λ _, seqZ 0 mvak)).
  apply (store_run _ (λ p, p.1 + p.2 * ldtk)
           (λ p, conj (src (p.2 + p.1 * ldtkp1))) dst) with (p := (i, j)).
  - intros [i1 j1] [i2 j2] [Hj1 Hi1]%elem_of_index_pairs
      [Hj2 Hi2]%elem_of_index_pairs. simpl in *.
    apply elem_of_seqZ in Hi1, Hi2. intros Heq.
    apply offset_inj in Heq as [-> ->]; [done|lia|lia].
  - apply elem_of_index_pairs. simpl. split; apply elem_of_seqZ; lia.
Qed.
End Entries.

(** ** Diagonal block assembly *)

Section DiagonalAssembly.
Context {tile : Type} {ops : TileOps tile} {laws : TileLaws tile}.
Variables (dA dW : plasma_desc_t) (ceil_log2 : Z → Z).
Implicit Types (s : store tile).

Lemma exec_frame_workspace cs s a :
  Forall writes_workspace cs → ¬ in_workspace a → exec cs s a = s a.
Proof.
  intros Hcs Ha. apply exec_frame. eapply Forall_impl; [exact Hcs|].
  intros c Hc Heq. unfold writes_workspace in Hc. rewrite Heq in Hc.
  destruct a as [[] ? ?]; simpl in *; done.
Qed.

Lemma tournament_writes_workspace rounds players skip body :
  (∀ m1 m2, Forall writes_workspace (body m1 m2)) →
  Forall writes_workspace (tournament rounds players skip body).
Proof.
  intros Hbody. revert players skip.
  induction rounds as [|r IH]; intros players skip; simpl; [constructor|].
  apply Forall_app. split; [|apply IH].
  apply Forall_bind, Forall_forall. intros b _. apply Hbody.
Qed.

Lemma diag_accumulate_fmap k num :
  diag_accumulate dA k num
  = (λ m, core_omp_zgemm PlasmaNoTrans PlasmaNoTrans
            zmone (L k m) (H dA PlasmaLower m k)
            (beta_of num m) (W3 dA (slot_of num m)))
      <$> seqZ 1 (k - 1).
Proof. unfold diag_accumulate. apply bind_single_fmap. Qed.

Lemma diag_accumulate_writes k num :
  Forall writes_workspace (diag_accumulate dA k num).
Proof.
  rewrite diag_accumulate_fmap, Forall_fmap. apply Forall_forall.
  intros m _. exact I.
Qed.

Lemma diag_reduce_writes num :
  Forall writes_workspace (diag_reduce dA ceil_log2 num).
Proof.
  apply tournament_writes_workspace. intros m1 m2.
  constructor; [exact I|constructor].
Qed.

(** After the accumulation loop, slot [j] holds the sum of the
    contributions of its class, and nothing else. *)
Lemma diag_accumulate_slot k num j s :
  1 ≤ num ≤ k - 1 → k ≤ desc.mt dA → 0 ≤ j < num →
  exec (diag_accumulate dA k num) s (W3 dA j)
  = tile_sum (diag_term dA k s <$> class num j (k - 1)).
Proof.
  intros Hnum Hk Hj. rewrite diag_accumulate_fmap.
  rewrite exec_accumulate; cycle 1.
  { intros x y Hx%elem_of_seqZ Hy%elem_of_seqZ.
    pose proof (slot_of_bounds num y). unfold L, H, W3, W2. simpl.
    split; intros [= ?]; lia. }
  rewrite (fold_left_ext_in _ (slot_step num j (diag_term dA k s))); cycle 1.
  { intros acc m _. unfold slot_step.
    destruct (decide (slot_of num m = j)) as [->|Hne].
    - rewrite decide_True by done. done.
    - rewrite decide_False; [done|]. by intros ?%W3_inj. }
  replace (k - 1) with (Z.of_nat (Z.to_nat (k - 1))) by lia.
  rewrite slot_fold by lia. rewrite decide_True by lia. done.
Qed.

Lemma diag_slots_total k num s :
  1 ≤ num ≤ k - 1 → k ≤ desc.mt dA →
  range_sum (λ j, tile_sum (diag_term dA k s <$> class num j (k - 1))) 0 num
  = range_sum (diag_term dA k s) 1 k.
Proof.
  intros Hnum Hk. unfold class.
  rewrite (class_partition (diag_term dA k s) (slot_of num) num).
  - unfold range_sum. by replace (k - 1) with (k - 1 - 0) by lia.
  - intros m Hm%elem_of_seqZ. apply slot_of_bounds; lia.
Qed.

Lemma assemble_diag_value k s :
  1 < k < desc.mt dA → 1 ≤ tot dA dW →
  (∀ p, 1 ≤ p → Z.log2_up p ≤ ceil_log2 p) →
  exec (assemble_diag dA dW ceil_log2 k) s (T k k)
  = tile_add (zlacpy PlasmaLower (s (A k k)) (s (T k k)))
             (range_sum (diag_term dA k s) 1 k).
Proof.
  intros Hk Htot Hlog. unfold assemble_diag.
  rewrite decide_True by lia.
  set (num := imin (tot dA dW) (k - 1)).
  assert (1 ≤ num ≤ k - 1) as Hnum.
  { subst num. unfold imin. destruct (Z.ltb_spec (tot dA dW) (k - 1)); lia. }
  rewrite !exec_app.
  set (s1 := exec (diag_accumulate dA k num) s).
  set (s2 := exec (diag_reduce dA ceil_log2 num) s1).
  assert (∀ a, ¬ in_workspace a → s2 a = s a) as Hfr.
  { intros a Ha. subst s2 s1.
    rewrite exec_frame_workspace by (done || apply diag_reduce_writes).
    by rewrite exec_frame_workspace by (done || apply diag_accumulate_writes). }
  assert (s2 (W3 dA 0) = range_sum (diag_term dA k s) 1 k) as Hw.
  { subst s2. rewrite diag_reduce_slot0 by (auto with lia).
    rewrite <- (diag_slots_total k num s) by lia.
    apply range_sum_ext. intros j Hj. subst s1.
    apply diag_accumulate_slot; lia. }
  simpl. rewrite upd_eq, zgeadd_one.
  rewrite (upd_ne _ (T k k) (W3 dA 0)) by (unfold T, W3; congruence).
  rewrite upd_eq, Hw, !Hfr by (simpl; tauto).
  apply tile_add_comm.
Qed.

(** C5. For a column [k > 1] the diagonal block is assembled by
    spreading the [k-1] contributors [zmone*L(k,m)*H(m,k)] round-robin,
    contributor [m] to slot [(m-1) mod num] with
    [num = min(tot, k-1)], the first write of a slot with [beta = zzero]
    and the later ones with [beta = zone]; then the tournament reduction,
    the lower copy of [A(k,k)] into [T(k,k)] and the add of slot 0.  The
    block that results is the lower copy of [A(k,k)] minus the sum over
    [m = 1 .. k-1] of [L(k,m)*H(m,k)].  For [k <= 1] nothing is reduced:
    the block is the lower copy of [A(k,k)], expanded to full storage by
    the in-line loop, which stores in every entry [(i, j)] above the
    diagonal the conjugate of entry [(j, i)] and leaves the others. *)
Theorem diagonal_assembly (k : Z) (s : store tile) :
  0 ≤ k < desc.mt dA → 1 ≤ tot dA dW →
  (∀ p, 1 ≤ p → Z.log2_up p ≤ ceil_log2 p) →
  (1 < k →
     let num := imin (tot dA dW) (k - 1) in
     assemble_diag dA dW ceil_log2 k
     = diag_accumulate dA k num
       ++ diag_reduce dA ceil_log2 num
       ++ [core_omp_zlacpy PlasmaLower (A k k) (T k k);
           core_omp_zgeadd PlasmaNoTrans zone (W3 dA 0) zone (T k k)]
     ∧ diag_accumulate dA k num
       = (λ m, core_omp_zgemm PlasmaNoTrans PlasmaNoTrans
                 zmone (L k m) (H dA PlasmaLower m k)
                 (if decide (m ≤ num) then zzero else zone)
                 (W3 dA ((m - 1) `mod` num)))
           <$> seqZ 1 (k - 1)
     ∧ (∀ j, 0 ≤ j < num →
          exec (diag_accumulate dA k num) s (W3 dA j)
          = tile_sum (diag_term dA k s
                        <$> filter (λ m, (m - 1) `mod` num = j)
                              (seqZ 1 (k - 1))))
     ∧ exec (assemble_diag dA dW ceil_log2 k) s (T k k)
       = tile_add
           (zlacpy PlasmaLower (s (A k k)) (s (T k k)))
           (tile_opp
              (range_sum
                 (λ m, tile_mul (s (L k m)) (s (H dA PlasmaLower m k)))
                 1 k)))
  ∧ (k ≤ 1 →
       assemble_diag dA dW ceil_log2 k
       = [core_omp_zlacpy PlasmaLower (A k k) (T k k);
          omp_taskwait;
          conj_expand (T k k)]
       ∧ exec (assemble_diag dA dW ceil_log2 k) s (T k k)
         = hermitian_full (zlacpy PlasmaLower (s (A k k)) (s (T k k))))
  ∧ (∀ (entry : Type) (conj : entry → entry) (mvak ldtk : Z)
       (t : buffer entry) (i j : Z),
       mvak ≤ ldtk → 0 ≤ i < mvak → 0 ≤ j < mvak →
       expand_to_full conj mvak ldtk t (i + j * ldtk)
       = if decide (i < j) then conj (t (j + i * ldtk))
         else t (i + j * ldtk)).
Proof.
  intros Hk Htot Hlog. split; [|split]; cycle 2.
  { intros entry conj mvak ldtk t i j Hld Hi Hj.
    destruct (expand_to_full_entries conj mvak ldtk t Hld) as [Hup Hlo].
    case_decide; [apply Hup|apply Hlo]; lia. }
  - intros Hk1 num.
    assert (1 ≤ num ≤ k - 1) as Hnum.
    { subst num. unfold imin.
      destruct (Z.ltb_spec (tot dA dW) (k - 1)); lia. }
    assert (∀ m, 1 ≤ m → (m - 1) `mod` num = slot_of num m) as Hmod.
    { intros m Hm. unfold slot_of. symmetry. apply Z.rem_mod_nonneg; lia. }
    split; [|split; [|split]].
    + unfold assemble_diag. by rewrite decide_True by lia.
    + rewrite diag_accumulate_fmap. apply list_fmap_ext.
      intros i m Hm%list_elem_of_lookup_2%elem_of_seqZ.
      rewrite Hmod by lia. unfold beta_of.
      destruct (decide (m < num + 1)), (decide (m ≤ num)); done || lia.
    + intros j Hj. rewrite diag_accumulate_slot by lia.
      unfold class. do 2 f_equal.
      apply filter_ext_in. intros m Hm%elem_of_seqZ.
      by rewrite Hmod by lia.
    + rewrite assemble_diag_value by (done || lia).
      f_equal. unfold diag_term. apply range_sum_opp.
  - intros Hk1. unfold assemble_diag. rewrite decide_False by lia.
    split; [done|]. simpl.
    rewrite upd_eq. rewrite upd_eq. done.
Qed.
End DiagonalAssembly.

Lemma diagonal_assembly_witness :
  exec (assemble_diag desc_A3 desc_W3 Z.log2_up 2) numbered_store (T 2 2)
  = 122 + - ((100 + 10 * 2 + 0) * (300 + (1 + 3))).
Proof.
  destruct (diagonal_assembly desc_A3 desc_W3 Z.log2_up 2 numbered_store)
    as (Hgen & _ & _).
  - simpl. lia.
  - vm_compute. discriminate.
  - intros p Hp. reflexivity.
  - destruct Hgen as (_ & _ & _ & ->); [lia|]. reflexivity.
Defined.

(** ** Off-diagonal auxiliary blocks *)

Section OffDiagonal.
Context {tile : Type} {ops : TileOps tile} {laws : TileLaws tile}.
Variable dA : plasma_desc_t.
Implicit Types (s : store tile).

Lemma offdiag_row_writes k m :
  Forall (λ c, dest c = Some (H dA PlasmaLower m k)) (offdiag_row dA k m).
Proof.
  unfold offdiag_row. repeat (apply Forall_app; split).
  - by constructor.
  - case_decide; by repeat constructor.
  - by constructor.
Qed.

Lemma offdiag_row_value k m s :
  exec (offdiag_row dA k m) s (H dA PlasmaLower m k) = H_value k m s.
Proof.
  unfold offdiag_row, H_value, H_diag_part, H_sub_part, H_super_part.
  assert (∀ i j, T i j ≠ H dA PlasmaLower m k) as HT by done.
  assert (∀ i j, L i j ≠ H dA PlasmaLower m k) as HL by done.
  destruct (decide (m > 1)); simpl;
    rewrite ?upd_eq, ?upd_ne by (apply not_eq_sym; auto);
    unfold zgemm; simpl; rewrite ?tile_add_zero_l, ?tile_add_zero_r; done.
Qed.

Lemma offdiag_rows_value k (ms : list Z) m s :
  NoDup ms → m ∈ ms →
  exec (ms ≫= offdiag_row dA k) s (H dA PlasmaLower m k) = H_value k m s.
Proof.
  intros Hnd. revert s. induction Hnd as [|m' ms Hm' Hnd IH]; intros s Hin.
  { by apply elem_of_nil in Hin. }
  rewrite bind_cons, exec_app.
  destruct (decide (m' = m)) as [->|Hne].
  - rewrite exec_frame; [apply offdiag_row_value|].
    apply Forall_bind, Forall_forall. intros m2 Hm2.
    eapply Forall_impl; [apply offdiag_row_writes|]. simpl.
    intros c -> Heq. apply (inj Some) in Heq.
    unfold H, W2 in Heq. simpl in Heq.
    injection Heq as Heq. assert (m2 = m) by lia.
    subst m2. done.
  - apply elem_of_cons in Hin as [?|Hin]; [congruence|].
    rewrite IH by done.
    assert (∀ a, ¬ in_workspace a → exec (offdiag_row dA k m') s a = s a)
      as Hfr.
    { intros a Ha. apply exec_frame_workspace; [|done].
      eapply Forall_impl; [apply offdiag_row_writes|].
      intros c Hc. unfold writes_workspace. by rewrite Hc. }
    unfold H_value, H_diag_part, H_sub_part, H_super_part.
    rewrite !Hfr by (simpl; tauto). done.
Qed.

(** C8. After the off-diagonal stage of column [k], every block
    [H(m,k)] with [1 <= m < k] is the three-term accumulation
    [T(m,m)*L(k,m)^H], plus [T(m,m-1)*L(k,m-1)^H] when [m > 1], plus
    [T(m+1,m)^H*L(k,m+1)^H]; the only tiles of [T] named by the calls
    that build [H(m,k)] are [T(m,m)], [T(m,m-1)] and [T(m+1,m)]. *)
Theorem offdiagonal_block (k m : Z) (s : store tile) :
  1 ≤ m < k →
  exec (offdiag dA k) s (H dA PlasmaLower m k)
  = tile_add
      (tile_add
         (tile_mul (s (T m m)) (tile_ctrans (s (L k m))))
         (if decide (m > 1)
          then tile_mul (s (T m (m - 1))) (tile_ctrans (s (L k (m - 1))))
          else tile_zero))
      (tile_mul (tile_ctrans (s (T (m + 1) m)))
                (tile_ctrans (s (L k (m + 1)))))
  ∧ ∀ c i j, c ∈ offdiag_row dA k m → T i j ∈ operands c →
      (i = m ∧ j = m) ∨ (i = m ∧ j = m - 1) ∨ (i = m + 1 ∧ j = m).
Proof.
  intros Hm. split.
  - unfold offdiag. rewrite offdiag_rows_value; [done|apply NoDup_seqZ|].
    apply elem_of_seqZ. lia.
  - intros c i j Hc Hop. unfold offdiag_row in Hc.
    rewrite !elem_of_app in Hc. destruct Hc as [Hc|[Hc|Hc]].
    2: destruct (decide (m > 1)); [|by apply elem_of_nil in Hc].
    all: apply list_elem_of_singleton in Hc as ->; simpl in Hop.
    all: rewrite !elem_of_cons, elem_of_nil in Hop.
    all: unfold T, L, H, W2 in Hop; simpl in Hop.
    all: destruct Hop as [Hop|[Hop|[Hop|[]]]]; try discriminate Hop.
    all: injection Hop as -> ->; auto.
Qed.
End OffDiagonal.

Lemma offdiagonal_block_witness :
  exec (offdiag desc_A3 3) numbered_store (H desc_A3 PlasmaLower 2 3)
  = (222 * 131 + 221 * 130) + 232 * 132.
Proof.
  destruct (offdiagonal_block desc_A3 3 2 numbered_store) as [-> _]; [lia|].
  reflexivity.
Defined.

(** ** Congruence reduction and band finalization *)

Section Congruence.
Context {tile : Type} {ops : TileOps tile} {laws : TileLaws tile}.
Variables (dA dW : plasma_desc_t) (plasma : plasma_context_t).
Variables (ceil_log2 : Z → Z) (plasma_tile_mview : plasma_desc_t → Z → Z).
Implicit Types (s : store tile).

(** C3, as the code has it.  The two-step multiply chain
    [W(0) = L(k,k)*T(k,k-1)], [T(k,k) -= W(0)*L(k,k-1)^H] is performed
    before the symmetric reduction exactly for the columns [k > 1].  For
    [k = 1] (where [L(1,0)], the tile [A(1,-1)], does not exist) the block
    is the reduction alone and [T(1,1)] reaches it as assembled; for
    [k = 0] the block is empty.  The block is part of every column's task
    stream. *)
Theorem congruence_chain (k : Z) (s : store tile) :
  (1 < k → two_step_chain_performed k s)
  ∧ (k = 1 →
       congruence k
       = [core_omp_zhegst 1 PlasmaLower (T k k) (L k k);
          omp_taskwait; conj_expand (T k k)]
       ∧ exec (before_hegst (congruence k)) s (T k k) = s (T k k))
  ∧ (k ≤ 0 → congruence k = [])
  ∧ ∃ pre post,
      column_tasks dA dW plasma ceil_log2 plasma_tile_mview k
      = pre ++ (submit <$> congruence k) ++ post.
Proof.
  split; [|split; [|split]].
  - intros Hk. unfold two_step_chain_performed, congruence.
    rewrite !decide_True by lia. split; [eexists; reflexivity|].
    simpl. rewrite upd_eq.
    rewrite (upd_ne _ (W 0) (T k k)) by done.
    rewrite (upd_ne _ (W 0) (L k (k - 1))) by done.
    rewrite upd_eq, zgemm_overwrite. reflexivity.
  - intros ->. split; reflexivity.
  - intros Hk. unfold congruence. by rewrite decide_False by lia.
  - unfold column_tasks.
    exists ((submit <$> offdiag dA k)
            ++ (submit <$> assemble_diag dA dW ceil_log2 k)).
    eexists. rewrite <- app_assoc. reflexivity.
Qed.

(** C7. Band finalization of column [k] submits, in this order: the copy
    of the upper triangle of [L(k+1,k+1)] into [T(k+1,k)]; the reset of
    the upper triangle of [L(k+1,k+1)] to zero off-diagonal and unit
    diagonal; when [k > 0], the triangular solve of [T(k+1,k)] from the
    right with the unit lower [L(k,k)], conjugate-transposed; a taskwait
    and the mirror loop.  Afterwards [L(k+1,k+1)] is the reset of its
    old value, [T(k+1,k)] is the copied triangle (taken before the
    reset), solved when [k > 0], and [T(k,k+1)] is the conjugate
    transpose of the final [T(k+1,k)].  The stage closes the task stream
    of every column with [k+1 < nt].  On the entries, the mirror loop
    stores in entry [(i, j)] of [T(k,k+1)] the conjugate of entry [(j, i)]
    of [T(k+1,k)]. *)
Theorem band_finalization (k : Z) (s : store tile) :
  band_finalize k
  = [core_omp_zlacpy PlasmaUpper (L (k + 1) (k + 1)) (T (k + 1) k);
     core_omp_zlaset PlasmaUpper zzero zone (L (k + 1) (k + 1))]
    ++ (if decide (k > 0) then
          [core_omp_ztrsm PlasmaRight PlasmaLower PlasmaConjTrans
             PlasmaUnit zone (L k k) (T (k + 1) k)]
        else [])
    ++ [omp_taskwait; conj_mirror (T (k + 1) k) (T k (k + 1))]
  ∧ (let s' := exec (band_finalize k) s in
     let copied :=
       zlacpy PlasmaUpper (s (L (k + 1) (k + 1))) (s (T (k + 1) k)) in
     s' (L (k + 1) (k + 1))
     = zlaset PlasmaUpper zzero zone (s (L (k + 1) (k + 1)))
     ∧ s' (T (k + 1) k)
       = (if decide (k > 0)
          then ztrsm PlasmaRight PlasmaLower PlasmaConjTrans PlasmaUnit
                 (s (L k k)) copied
          else copied)
     ∧ s' (T k (k + 1)) = tile_ctrans (s' (T (k + 1) k)))
  ∧ (k + 1 < desc.nt dA →
     ∃ pre,
       column_tasks dA dW plasma ceil_log2 plasma_tile_mview k
       = pre ++ (submit <$> band_finalize k))
  ∧ (∀ (entry : Type) (conj : entry → entry) (mvakp1 mvak ldtk ldtkp1 : Z)
       (src dst : buffer entry) (i j : Z),
       mvak ≤ ldtk → 0 ≤ i < mvak → 0 ≤ j < mvakp1 →
       mirror_band conj mvakp1 mvak ldtk ldtkp1 src dst (i + j * ldtk)
       = conj (src (j + i * ldtkp1))).
Proof.
  split; [reflexivity|]. split; [|split; [|intros; by apply mirror_band_entries]].
  - assert (T (k + 1) k ≠ T k (k + 1)) as Hmir.
    { unfold T. intros [= ?]. lia. }
    assert (L (k + 1) (k + 1) ≠ L k k) as HLL.
    { unfold L. intros [= ?]. lia. }
    assert (∀ i j i' j', L i j ≠ T i' j') as HLT by done.
    assert (∀ i j i' j', T i j ≠ L i' j') as HTL by done.
    unfold band_finalize. destruct (decide (k > 0)); simpl.
    + rewrite upd_eq.
      rewrite !(upd_ne _ (T k (k + 1))) by (apply not_eq_sym; auto).
      rewrite !(upd_ne _ (T (k + 1) k) (L _ _)) by auto.
      rewrite !upd_eq.
      rewrite !(upd_ne _ (L (k + 1) (k + 1)) (T _ _)) by auto.
      rewrite !(upd_ne _ (L (k + 1) (k + 1)) (L k k)) by auto.
      rewrite !(upd_ne _ (T (k + 1) k) (L _ _)) by auto.
      rewrite !upd_eq. done.
    + rewrite upd_eq.
      rewrite !(upd_ne _ (T k (k + 1))) by (apply not_eq_sym; auto).
      rewrite !upd_eq.
      rewrite !(upd_ne _ (L (k + 1) (k + 1)) (T _ _)) by auto.
      rewrite !(upd_ne _ (T (k + 1) k) (L _ _)) by auto.
      rewrite !upd_eq. done.
  - intros Hk. unfold column_tasks. rewrite decide_True by done.
    exists ((submit <$> offdiag dA k)
            ++ (submit <$> assemble_diag dA dW ceil_log2 k)
            ++ (submit <$> congruence k)
            ++ (submit <$> (trailing_H dA k).1)
            ++ (submit <$> trailing_H_diag dA k (trailing_H dA k).2)
            ++ (submit <$> column_update dA dW plasma ceil_log2 k)
            ++ panel_tasks dA plasma_tile_mview k).
    by rewrite <- !app_assoc.
Qed.
End Congruence.

Lemma congruence_chain_witness :
  two_step_chain_performed 2 numbered_store.
Proof.
  apply (congruence_chain desc_A3 desc_W3 ctx_4 Z.log2_up
           (λ _ _, 2) 2 numbered_store).
  lia.
Defined.

(** At [k = 1] the chain is not performed: the congruence block starts with
    the reduction and [T(1,1)] reaches it unchanged. *)
Lemma two_step_chain_not_at_1 :
  0 < 1 ∧ ¬ two_step_chain_performed 1 numbered_store.
Proof.
  split; [lia|]. intros [[rest Hrest] _]. discriminate Hrest.
Qed.

Lemma band_finalization_witness :
  exec (band_finalize 1) numbered_store (T 1 2) = 121.
Proof.
  destruct (band_finalization desc_A3 desc_W3 ctx_4 Z.log2_up
              (λ _ _, 2) 1 numbered_store) as (_ & (_ & _ & Hmir) & _ & _).
  change (T 1 2) with (T 1 (1 + 1)). rewrite Hmir. reflexivity.
Defined.

(** ** Column update *)

Section ColumnUpdate.
Context {tile : Type} {ops : TileOps tile} {laws : TileLaws tile}.
Variables (dA dW : plasma_desc_t) (plasma : plasma_context_t).
Variable ceil_log2 : Z → Z.
Implicit Types (s : store tile).

Lemma elem_of_rows k m : m ∈ rows dA k ↔ k + 1 ≤ m < desc.mt dA.
Proof. unfold rows. rewrite elem_of_seqZ. lia. Qed.

Lemma column_accumulate_nested k num :
  column_accumulate dA k num
  = seqZ 1 k ≫= (λ n, column_call dA k num n <$> rows dA k).
Proof.
  unfold column_accumulate. apply list_bind_ext; [|done]. intros n.
  rewrite <- bind_single_fmap. apply list_bind_ext; [|done]. intros m.
  unfold column_call, beta_of, slot_of. by case_decide.
Qed.

Lemma column_update_direct_nested k :
  column_update_direct dA k
  = seqZ 1 k ≫= (λ n, direct_call dA k n <$> rows dA k).
Proof.
  unfold column_update_direct. apply list_bind_ext; [|done]. intros n.
  by rewrite <- bind_single_fmap.
Qed.

Lemma column_accumulate_writes k num :
  Forall writes_workspace (column_accumulate dA k num).
Proof.
  rewrite column_accumulate_nested. apply Forall_bind, Forall_forall.
  intros n _. simpl. rewrite Forall_fmap. apply Forall_forall.
  intros m _. exact I.
Qed.

Lemma column_reduce_writes k num :
  Forall writes_workspace (column_reduce dA ceil_log2 k num).
Proof.
  apply tournament_writes_workspace. intros m1 m2.
  apply Forall_bind, Forall_forall. intros m _.
  constructor; [exact I|constructor].
Qed.

(** After the accumulation loop, slot [j] of row [m0] holds the sum of
    the contributions of its class, and nothing else. *)
Lemma column_accumulate_slot k num m0 j s :
  1 ≤ num ≤ k → k < desc.mt dA → m0 ∈ rows dA k → 0 ≤ j < num →
  exec (column_accumulate dA k num) s (row_slot dA k num m0 j)
  = tile_sum (column_term dA k m0 s <$> class num j k).
Proof.
  clear dW plasma ceil_log2. intros Hnum Hk Hm0 Hj.
  rewrite column_accumulate_nested, fmap_bind_fmap.
  unfold column_call.
  rewrite (exec_accumulate _ (λ p, L p.2 p.1)
             (λ p, H dA PlasmaLower p.1 k)
             (λ p, W4 dA ((p.2 - k - 1) * num + slot_of num p.1))
             (λ p, beta_of num p.1)); cycle 1.
  { intros x y [Hx1 Hx2]%elem_of_pairs [Hy1 Hy2]%elem_of_pairs.
    apply elem_of_seqZ in Hx1, Hy1. apply elem_of_rows in Hx2, Hy2.
    pose proof (slot_of_bounds num y.1).
    unfold L, H, W4, W2. simpl. split; intros [= ?]; nia. }
  rewrite fold_left_bind.
  rewrite (fold_left_ext_in _ (slot_step num j (column_term dA k m0 s)));
    cycle 1.
  { intros acc n Hn%elem_of_seqZ. rewrite fold_left_fmap. simpl.
    pose proof (slot_of_bounds num n).
    rewrite (fold_left_ext_in _
      (λ acc m, if decide (m = m0 ∧ slot_of num n = j)
                then zgemm PlasmaNoTrans PlasmaNoTrans zmone
                       (s (L m n)) (s (H dA PlasmaLower n k))
                       (beta_of num n) acc
                else acc)); cycle 1.
    { intros acc' m Hm. destruct (decide (m = m0 ∧ slot_of num n = j))
        as [[-> <-]|Hne].
      - rewrite decide_True by done. done.
      - rewrite decide_False; [done|]. intros Heq.
        apply row_slot_eq in Heq; [tauto|lia..]. }
    rewrite (fold_left_single
      (λ m acc, zgemm PlasmaNoTrans PlasmaNoTrans zmone
                  (s (L m n)) (s (H dA PlasmaLower n k))
                  (beta_of num n) acc)); [|apply NoDup_seqZ|done].
    reflexivity. }
  replace k with (Z.of_nat (Z.to_nat k)) at 1 2 by lia.
  rewrite slot_fold by lia. rewrite decide_True by lia.
  by rewrite Z2Nat.id by lia.
Qed.

Lemma fold_add (f : Z → tile) (l : list Z) (init : tile) :
  fold_left (λ acc n, tile_add acc (f n)) l init
  = tile_add init (tile_sum (f <$> l)).
Proof.
  revert init. induction l as [|x l IH]; intros init; simpl.
  - by rewrite tile_add_zero_r.
  - rewrite IH. by rewrite <- tile_add_assoc.
Qed.

(** The direct branch adds every contribution into [L(m0,k+1)]. *)
Lemma column_update_direct_value k m0 s :
  m0 ∈ rows dA k →
  exec (column_update_direct dA k) s (L m0 (k + 1))
  = tile_add (s (L m0 (k + 1))) (range_sum (column_term dA k m0 s) 1 (k + 1)).
Proof.
  clear dW plasma ceil_log2. intros Hm0.
  rewrite column_update_direct_nested, fmap_bind_fmap.
  unfold direct_call.
  rewrite (exec_accumulate _ (λ p, L p.2 p.1)
             (λ p, H dA PlasmaLower p.1 k)
             (λ p, L p.2 (k + 1)) (λ _, zone)); cycle 1.
  { intros x y [Hx1 Hx2]%elem_of_pairs [Hy1 Hy2]%elem_of_pairs.
    apply elem_of_seqZ in Hx1, Hy1.
    unfold L, H, W2. simpl. split; intros [= ?]; lia. }
  rewrite fold_left_bind.
  rewrite (fold_left_ext_in _
             (λ acc n, tile_add acc (column_term dA k m0 s n))); cycle 1.
  { intros acc n Hn. rewrite fold_left_fmap. simpl.
    rewrite (fold_left_ext_in _
      (λ acc m, if decide (m = m0 ∧ True)
                then zgemm PlasmaNoTrans PlasmaNoTrans zmone
                       (s (L m n)) (s (H dA PlasmaLower n k)) zone acc
                else acc)); cycle 1.
    { intros acc' m Hm. destruct (decide (m = m0 ∧ True)) as [[-> _]|Hne].
      - rewrite decide_True by done. done.
      - rewrite decide_False; [done|]. unfold L. intros [= ?]. tauto. }
    rewrite (fold_left_single
      (λ m acc, zgemm PlasmaNoTrans PlasmaNoTrans zmone
                  (s (L m n)) (s (H dA PlasmaLower n k)) zone acc));
      [|apply NoDup_seqZ|done].
    reflexivity. }
  rewrite fold_add. unfold range_sum.
  by replace (k + 1 - 1) with k by lia.
Qed.

(** The last loop of the workspace branch adds slot 0 of each row into
    [L(m,k+1)]. *)
Lemma column_collect_value k num m0 s :
  m0 ∈ rows dA k →
  exec (column_collect dA k num) s (L m0 (k + 1))
  = tile_add (s (W4 dA ((m0 - k - 1) * num))) (s (L m0 (k + 1))).
Proof.
  intros Hm0. unfold column_collect. rewrite bind_single_fmap.
  fold (rows dA k).
  assert (NoDup (rows dA k)) as Hnd by apply NoDup_seqZ.
  revert s Hm0. induction Hnd as [|m ms Hm Hnd IH]; intros s Hin.
  { by apply elem_of_nil in Hin. }
  rewrite fmap_cons, exec_cons.
  destruct (decide (m = m0)) as [->|Hne].
  - rewrite exec_frame; [simpl; by rewrite upd_eq|].
    rewrite Forall_fmap. apply Forall_forall. intros m' Hm'. simpl.
    unfold L. intros [= ?]. congruence.
  - apply elem_of_cons in Hin as [?|Hin]; [congruence|].
    rewrite IH by done. simpl.
    rewrite !upd_ne; [done| |done].
    unfold L. intros [= ?]. congruence.
Qed.

(** *** The two branches for [k >= 1] *)

Lemma column_update_workspace_value k m0 s :
  1 ≤ k < desc.mt dA → m0 ∈ rows dA k →
  1 ≤ tot dA dW `quot` (desc.mt dA - k - 1) →
  (∀ p, 1 ≤ p → Z.log2_up p ≤ ceil_log2 p) →
  exec (column_update_workspace dA dW ceil_log2 k) s (L m0 (k + 1))
  = tile_add (s (L m0 (k + 1))) (range_sum (column_term dA k m0 s) 1 (k + 1)).
Proof.
  intros Hk Hm0 Htot Hlog. unfold column_update_workspace.
  set (num := imin k (tot dA dW `quot` (desc.mt dA - k - 1))).
  assert (1 ≤ num ≤ k) as Hnum.
  { subst num. unfold imin. case_match; lia. }
  rewrite !exec_app, column_collect_value by done.
  set (s1 := exec (column_accumulate dA k num) s).
  assert (∀ a, ¬ in_workspace a →
            exec (column_reduce dA ceil_log2 k num) s1 a = s a) as Hfr.
  { intros a Ha. subst s1.
    rewrite exec_frame_workspace by (done || apply column_reduce_writes).
    by rewrite exec_frame_workspace
      by (done || apply column_accumulate_writes). }
  rewrite (Hfr (L m0 (k + 1))) by (simpl; tauto).
  pose proof Hm0 as Hm0'. apply elem_of_rows in Hm0'.
  pose proof (column_reduce_slot0 dA ceil_log2 k num m0 s1) as Hred.
  unfold row_slot in Hred at 1. rewrite Z.add_0_r in Hred.
  rewrite Hred by (auto with lia).
  rewrite tile_add_comm. f_equal.
  rewrite (range_sum_ext _
             (λ j, tile_sum (column_term dA k m0 s <$> class num j k)));
    cycle 1.
  { intros j Hj. subst s1. apply column_accumulate_slot; (done || lia). }
  unfold class.
  rewrite (class_partition (column_term dA k m0 s) (slot_of num) num).
  - unfold range_sum. by replace (k + 1 - 1) with k by lia.
  - intros n Hn%elem_of_seqZ. apply slot_of_bounds; lia.
Qed.

(** For the columns [k >= 1], with at least one workspace slot per
    remaining tile row, the workspace branch and the direct branch leave
    the same [L(m,k+1)]. *)
Lemma column_update_paths_agree k m0 s :
  1 ≤ k < desc.mt dA → m0 ∈ rows dA k →
  1 ≤ tot dA dW `quot` (desc.mt dA - k - 1) →
  (∀ p, 1 ≤ p → Z.log2_up p ≤ ceil_log2 p) →
  exec (column_update_workspace dA dW ceil_log2 k) s (L m0 (k + 1))
  = exec (column_update_direct dA k) s (L m0 (k + 1)).
Proof.
  intros. rewrite column_update_workspace_value by done.
  by rewrite column_update_direct_value.
Qed.

(** *** The workspace branch at [k = 0] *)

Lemma tournament_no_players rounds skip body :
  tournament rounds 0 skip body = [].
Proof.
  revert skip. induction rounds as [|r IH]; intros skip; [done|].
  simpl. change (ceil_half 0) with 0. by rewrite IH.
Qed.

(** With no contributor there is no slot ([num = 0]): nothing is
    accumulated or reduced, and the final loop adds the tile [W4(0)], as it
    stands, into every [L(m,1)]. *)
Lemma column_update_workspace_k0 m0 s :
  m0 ∈ rows dA 0 → 0 ≤ tot dA dW →
  exec (column_update_workspace dA dW ceil_log2 0) s (L m0 (0 + 1))
  = tile_add (s (W4 dA 0)) (s (L m0 (0 + 1))).
Proof.
  intros Hm0 Htot. unfold column_update_workspace.
  pose proof Hm0 as Hm0'. apply elem_of_rows in Hm0'.
  assert (imin 0 (tot dA dW `quot` (desc.mt dA - 0 - 1)) = 0) as ->.
  { unfold imin. case_match eqn:Hlt; [done|].
    apply Z.ltb_ge in Hlt.
    pose proof (Z.quot_pos (tot dA dW) (desc.mt dA - 0 - 1)). lia. }
  unfold column_accumulate, column_reduce.
  rewrite tournament_no_players. simpl app.
  rewrite column_collect_value by done.
  by rewrite Z.mul_0_r.
Qed.
End ColumnUpdate.

(** C6, at [k = 0].  The column update on the 3x3-tile matrix, with four
    threads: [A.mt - k = 3 < 4] selects the workspace branch, which has no
    contributor and no slot, and still adds [W4(0)] into [L(1,1)] and
    [L(2,1)].  The direct branch, and the update
    [L(m,1) - (empty sum)], leave [L(m,1)] as it is. *)
Theorem column_update_stale_slot_at_k0 :
  column_update desc_A3 desc_W3 ctx_4 Z.log2_up 0
  = [core_omp_zgeadd PlasmaNoTrans zone (W4 desc_A3 0) zone (L 1 1);
     core_omp_zgeadd PlasmaNoTrans zone (W4 desc_A3 0) zone (L 2 1)]
  ∧ exec (column_update desc_A3 desc_W3 ctx_4 Z.log2_up 0)
      numbered_store (L 1 1) = 309 + 110
  ∧ exec (column_update_direct desc_A3 0) numbered_store (L 1 1) = 110
  ∧ tile_add (numbered_store (L 1 1))
      (range_sum (column_term desc_A3 0 1 numbered_store) 1 (0 + 1)) = 110
  ∧ submit (core_omp_zgeadd PlasmaNoTrans zone (W4 desc_A3 0) zone (L 1 1))
    ∈ plasma_pzhetrf_aa desc_A3 desc_W3 ctx_4 Z.log2_up (λ _ _, 2)
        PlasmaLower (async.mk_sequence PlasmaSuccess).
Proof.
  split; [reflexivity|]. split; [reflexivity|]. split; [reflexivity|].
  split; [reflexivity|].
  apply list_elem_of_In. vm_compute. tauto.
Qed.

(** ** First write overwrites, later writes accumulate *)

Section FirstWrite.
Context {tile : Type} {ops : TileOps tile} {laws : TileLaws tile}.
Variables (dA dW : plasma_desc_t).
Implicit Types (s : store tile).

Lemma diag_first_write k num :
  1 ≤ num → overwrite_then_accumulate (diag_accumulate dA k num).
Proof.
  intros Hnum pre c post Heq. rewrite diag_accumulate_fmap in Heq.
  apply fmap_app_inv in Heq as (l1 & l2' & -> & Hc & Hseq).
  symmetry in Hc. apply fmap_cons_inv in Hc as (m & l2 & -> & _ & ->).
  apply seqZ_split in Hseq as [-> Hm]. simpl. unfold beta_of.
  pose proof (slot_of_bounds num m Hnum ltac:(lia)) as Hsl.
  destruct (decide (m < num + 1)).
  - left. split; [done|]. intros c' Hc'.
    apply list_elem_of_fmap in Hc' as (m' & -> & Hm'%elem_of_seqZ). simpl.
    intros Heq. apply (inj Some) in Heq. apply W3_inj in Heq.
    rewrite !slot_of_small in Heq by lia. lia.
  - right. split; [done|].
    eexists. split.
    + apply (list_elem_of_fmap_2 _ _ (slot_of num m + 1)).
      apply elem_of_seqZ. lia.
    + cbn [dest]. rewrite (slot_of_small num (slot_of num m + 1)) by lia.
      do 2 f_equal. lia.
Qed.

Lemma column_first_write k num :
  1 ≤ num → overwrite_then_accumulate (column_accumulate dA k num).
Proof.
  intros Hnum pre c post Heq. rewrite column_accumulate_nested in Heq.
  apply bind_fmap_split in Heq
    as (ns1 & n & ns2 & ms1 & m & ms2 & Hns & Hms & -> & ->).
  apply seqZ_split in Hns as [-> Hn].
  unfold rows in Hms. pose proof Hms as Hms'.
  apply seqZ_split in Hms' as [-> Hm].
  simpl. unfold beta_of.
  pose proof (slot_of_bounds num n Hnum ltac:(lia)) as Hsl.
  destruct (decide (n < num + 1)).
  - left. split; [done|]. intros c' Hc'.
    apply elem_of_app in Hc' as [Hc'|Hc'].
    + apply list_elem_of_bind in Hc' as (n' & Hc' & Hn'%elem_of_seqZ).
      apply list_elem_of_fmap in Hc' as (m' & -> & Hm'%elem_of_rows).
      simpl. intros Heq. apply (inj Some) in Heq.
      pose proof (slot_of_bounds num n' Hnum ltac:(lia)).
      apply (row_slot_eq dA k num m' m) in Heq as [_ Heq]; [|lia..].
      rewrite !slot_of_small in Heq by lia. lia.
    + apply list_elem_of_fmap in Hc' as (m' & -> & Hm'%elem_of_seqZ).
      simpl. intros Heq. apply (inj Some) in Heq.
      apply (row_slot_eq dA k num m' m) in Heq as [Heq _]; lia.
  - right. split; [done|].
    exists (column_call dA k num (slot_of num n + 1) m). split.
    + apply elem_of_app. left. apply list_elem_of_bind.
      exists (slot_of num n + 1). split.
      * apply list_elem_of_fmap_2. unfold rows. rewrite Hms.
        apply elem_of_app. right. by left.
      * apply elem_of_seqZ. lia.
    + unfold column_call. cbn [dest].
      rewrite (slot_of_small num (slot_of num n + 1)) by lia.
      do 3 f_equal. lia.
Qed.

Lemma diag_slots_ignore_stale k num s s' j :
  1 ≤ num ≤ k - 1 → k ≤ desc.mt dA → 0 ≤ j < num →
  agree_outside_slots dA s s' →
  exec (diag_accumulate dA k num) s (W3 dA j)
  = exec (diag_accumulate dA k num) s' (W3 dA j).
Proof.
  intros Hnum Hk Hj Hag. rewrite !diag_accumulate_slot by done.
  f_equal. apply list_fmap_ext.
  intros i m Hm%list_elem_of_lookup_2%list_elem_of_filter.
  destruct Hm as [_ Hm%elem_of_seqZ]. unfold diag_term.
  rewrite !Hag; [done|..]; intros j' Hj'; unfold L, H, W2, W3; simpl;
    intros [= ?]; lia.
Qed.

Lemma column_slots_ignore_stale k num s s' m0 j :
  1 ≤ num ≤ k → k < desc.mt dA → k + 1 ≤ m0 < desc.mt dA → 0 ≤ j < num →
  agree_outside_slots dA s s' →
  exec (column_accumulate dA k num) s (W4 dA ((m0 - k - 1) * num + j))
  = exec (column_accumulate dA k num) s' (W4 dA ((m0 - k - 1) * num + j)).
Proof.
  intros Hnum Hk Hm0 Hj Hag.
  pose proof (column_accumulate_slot dA k num m0 j) as Hsl.
  unfold row_slot in Hsl.
  rewrite !Hsl by (done || by apply elem_of_rows).
  f_equal. apply list_fmap_ext.
  intros i n Hn%list_elem_of_lookup_2%list_elem_of_filter.
  destruct Hn as [_ Hn%elem_of_seqZ]. unfold column_term.
  rewrite !Hag; [done|..]; intros j' Hj'; unfold L, H, W2, W3; simpl;
    intros [= ?]; lia.
Qed.

(** Both loops, for any slot count [num >= 1]. *)
Lemma accumulation_loops_first_write (k num : Z) :
  1 ≤ num →
  (overwrite_then_accumulate (diag_accumulate dA k num)
   ∧ (num ≤ k - 1 → k ≤ desc.mt dA →
      ∀ s s' j, agree_outside_slots dA s s' → 0 ≤ j < num →
        exec (diag_accumulate dA k num) s (W3 dA j)
        = exec (diag_accumulate dA k num) s' (W3 dA j)))
  ∧ (overwrite_then_accumulate (column_accumulate dA k num)
     ∧ (num ≤ k → k < desc.mt dA →
        ∀ s s' m0 j, agree_outside_slots dA s s' →
          k + 1 ≤ m0 < desc.mt dA → 0 ≤ j < num →
          exec (column_accumulate dA k num) s
            (W4 dA ((m0 - k - 1) * num + j))
          = exec (column_accumulate dA k num) s'
              (W4 dA ((m0 - k - 1) * num + j)))).
Proof.
  intros Hnum. split; split.
  - by apply diag_first_write.
  - intros ? ? s s' j Hag Hj. apply diag_slots_ignore_stale; (done || lia).
  - by apply column_first_write.
  - intros ? ? s s' m0 j Hag Hm0 Hj.
    apply column_slots_ignore_stale; (done || lia).
Qed.

Lemma beta_of_le num n :
  beta_of num n = if decide (n ≤ num) then zzero else zone.
Proof.
  unfold beta_of.
  destruct (decide (n < num + 1)), (decide (n ≤ num)); done || lia.
Qed.

Lemma diag_accumulate_shape k num :
  diag_accumulate dA k num
  = (λ m, core_omp_zgemm PlasmaNoTrans PlasmaNoTrans
            zmone (L k m) (H dA PlasmaLower m k)
            (if decide (m ≤ num) then zzero else zone)
            (W3 dA ((m - 1) `rem` num)))
      <$> seqZ 1 (k - 1).
Proof.
  rewrite diag_accumulate_fmap. apply list_fmap_ext. intros i m _.
  by rewrite beta_of_le.
Qed.

Lemma column_accumulate_shape k num :
  column_accumulate dA k num
  = seqZ 1 k ≫= (λ n,
      (λ m, core_omp_zgemm PlasmaNoTrans PlasmaNoTrans
              zmone (L m n) (H dA PlasmaLower n k)
              (if decide (n ≤ num) then zzero else zone)
              (W4 dA ((m - k - 1) * num + (n - 1) `rem` num)))
        <$> seqZ (k + 1) (desc.mt dA - (k + 1))).
Proof.
  rewrite column_accumulate_nested. apply list_bind_ext; [|done].
  intros n. apply list_fmap_ext. intros i m _. unfold column_call.
  by rewrite beta_of_le.
Qed.

(** C10. In both accumulation loops the first multiply-accumulate that
    writes a workspace slot has [beta = zzero] and every later one to that
    slot has [beta = zone]: contributor [m] of the diagonal assembly goes
    to slot [(m-1) % num] and contributor [n] of the column update, for
    row [m], to slot [(m-k-1)*num + (n-1) % num], with [beta = zzero]
    exactly for the contributors [<= num].  Hence what the loops leave in
    the [num] slots (of each row) does not depend on what the workspace
    held before.  [num] is the slot count the routine computes, for a
    workspace with at least one reduction slot (diagonal assembly) and at
    least one slot per remaining tile row (column update). *)
Theorem workspace_first_write_overwrites (k : Z) :
  (1 < k < desc.mt dA → 1 ≤ tot dA dW →
   let num := imin (tot dA dW) (k - 1) in
   diag_accumulate dA k num
   = (λ m, core_omp_zgemm PlasmaNoTrans PlasmaNoTrans
             zmone (L k m) (H dA PlasmaLower m k)
             (if decide (m ≤ num) then zzero else zone)
             (W3 dA ((m - 1) `rem` num)))
       <$> seqZ 1 (k - 1)
   ∧ overwrite_then_accumulate (diag_accumulate dA k num)
   ∧ ∀ s s' j, agree_outside_slots dA s s' → 0 ≤ j < num →
       exec (diag_accumulate dA k num) s (W3 dA j)
       = exec (diag_accumulate dA k num) s' (W3 dA j))
  ∧ (0 ≤ k → k + 1 < desc.mt dA → desc.mt dA - k - 1 ≤ tot dA dW →
     let num := imin k (tot dA dW `quot` (desc.mt dA - k - 1)) in
     column_accumulate dA k num
     = seqZ 1 k ≫= (λ n,
         (λ m, core_omp_zgemm PlasmaNoTrans PlasmaNoTrans
                 zmone (L m n) (H dA PlasmaLower n k)
                 (if decide (n ≤ num) then zzero else zone)
                 (W4 dA ((m - k - 1) * num + (n - 1) `rem` num)))
           <$> seqZ (k + 1) (desc.mt dA - (k + 1)))
     ∧ overwrite_then_accumulate (column_accumulate dA k num)
     ∧ ∀ s s' m0 j, agree_outside_slots dA s s' →
         k + 1 ≤ m0 < desc.mt dA → 0 ≤ j < num →
         exec (column_accumulate dA k num) s
           (W4 dA ((m0 - k - 1) * num + j))
         = exec (column_accumulate dA k num) s'
             (W4 dA ((m0 - k - 1) * num + j))).
Proof.
  split.
  - intros Hk Htot num.
    assert (1 ≤ num ≤ k - 1) as Hnum.
    { subst num. unfold imin. case_match; lia. }
    destruct (accumulation_loops_first_write k num) as [[Hfw Hst] _];
      [lia|].
    split; [apply diag_accumulate_shape|]. split; [done|].
    intros s s' j Hag Hj. apply Hst; (done || lia).
  - intros Hk Hmt Htot num.
    split; [apply column_accumulate_shape|].
    destruct (decide (k = 0)) as [->|Hk0].
    + assert (num = 0) as ->.
      { subst num. unfold imin. case_match eqn:Hlt; [done|].
        apply Z.ltb_ge in Hlt.
        pose proof (Z.quot_pos (tot dA dW) (desc.mt dA - 0 - 1)). lia. }
      split; [|intros; lia].
      intros pre c post Heq. unfold column_accumulate in Heq.
      rewrite (seqZ_nil 1 0) in Heq by lia. by destruct pre.
    + assert (1 ≤ tot dA dW `quot` (desc.mt dA - k - 1)) as Hq.
      { apply Z.quot_le_lower_bound; lia. }
      assert (1 ≤ num ≤ k) as Hnum.
      { subst num. unfold imin. case_match; lia. }
      destruct (accumulation_loops_first_write k num) as [_ [Hfw Hst]];
        [lia|].
      split; [done|].
      intros s s' m0 j Hag Hm0 Hj. apply Hst; (done || lia).
Qed.
End FirstWrite.

Lemma workspace_first_write_overwrites_witness :
  overwrite_then_accumulate (diag_accumulate desc_A5 4 3)
  ∧ exec (diag_accumulate desc_A5 4 3) numbered_store (W3 desc_A5 1)
    = exec (diag_accumulate desc_A5 4 3) stale_store (W3 desc_A5 1)
  ∧ exec (column_accumulate desc_A5 2 2) numbered_store (W4 desc_A5 3)
    = exec (column_accumulate desc_A5 2 2) stale_store (W4 desc_A5 3).
Proof.
  assert (agree_outside_slots desc_A5 numbered_store stale_store) as Hag.
  { intros [[] m n] Ha; try reflexivity. simpl.
    destruct (decide (15 ≤ m ∧ n = 0)) as [[Hm ->]|Hm]; [|reflexivity].
    destruct (Ha (m - 15)); [lia|]. unfold W3. simpl. f_equal. lia. }
  pose proof (workspace_first_write_overwrites desc_A5 desc_W5 4)
    as [Hdiag _].
  pose proof (workspace_first_write_overwrites desc_A5 desc_W5 2)
    as [_ Hcol].
  destruct Hdiag as (_ & Hfirst & Hd); [simpl; lia|vm_compute; discriminate|].
  destruct Hcol as (_ & _ & Hc); [lia|simpl; lia|vm_compute; discriminate|].
  split; [exact Hfirst|]. split.
  - apply Hd; [done|vm_compute; split; discriminate || reflexivity].
  - apply (Hc _ _ 4 1); [done|simpl; lia|].
    vm_compute; split; discriminate || reflexivity.
Defined.

(** ** References to the band factor *)

Lemma tournament_Forall (P : call → Prop) rounds players skip body :
  (∀ m1 m2, Forall P (body m1 m2)) →
  Forall P (tournament rounds players skip body).
Proof.
  intros Hbody. revert players skip.
  induction rounds as [|r IH]; intros players skip; simpl; [constructor|].
  apply Forall_app. split; [|apply IH].
  apply Forall_bind, Forall_forall. intros b _. apply Hbody.
Qed.

Ltac in_band :=
  repeat first
    [ apply Forall_nil
    | apply Forall_cons; split
    | apply Forall_app; split
    | progress (unfold call_in_band, band_ok; simpl)
    | lia
    | exact I ].

Section Band.
Variables (dA dW : plasma_desc_t) (plasma : plasma_context_t).
Variables (ceil_log2 : Z → Z) (plasma_tile_mview : plasma_desc_t → Z → Z).

Lemma offdiag_in_band k : Forall call_in_band (offdiag dA k).
Proof.
  apply Forall_bind, Forall_forall. intros m _. simpl.
  unfold offdiag_row. case_decide; in_band.
Qed.

Lemma assemble_diag_in_band k :
  Forall call_in_band (assemble_diag dA dW ceil_log2 k).
Proof.
  unfold assemble_diag. case_decide; [|in_band].
  apply Forall_app. split; [|apply Forall_app; split].
  - apply Forall_bind, Forall_forall. intros m _. simpl. in_band.
  - apply tournament_Forall. intros m1 m2. in_band.
  - in_band.
Qed.

Lemma congruence_in_band k : Forall call_in_band (congruence k).
Proof. unfold congruence. repeat case_decide; in_band. Qed.

Lemma trailing_H_in_band k :
  Forall call_in_band (trailing_H dA k).1
  ∧ ∀ beta, Forall call_in_band (trailing_H_diag dA k beta).
Proof.
  unfold trailing_H, trailing_H_diag. split; [|intros beta];
    case_decide; in_band.
Qed.

Lemma column_update_in_band k :
  Forall call_in_band (column_update dA dW plasma ceil_log2 k).
Proof.
  unfold column_update, column_update_workspace, column_update_direct.
  case_decide.
  - apply Forall_app. split; [|apply Forall_app; split].
    + apply Forall_bind, Forall_forall. intros n _. simpl.
      apply Forall_bind, Forall_forall. intros m _. simpl.
      case_decide; in_band.
    + apply tournament_Forall. intros m1 m2.
      apply Forall_bind, Forall_forall. intros m _. simpl. in_band.
    + apply Forall_bind, Forall_forall. intros m _. simpl. in_band.
  - apply Forall_bind, Forall_forall. intros n _. simpl.
    apply Forall_bind, Forall_forall. intros m _. simpl. in_band.
Qed.

Lemma band_finalize_in_band k : Forall call_in_band (band_finalize k).
Proof. unfold band_finalize. case_decide; in_band. Qed.

Lemma panel_tasks_in_band k :
  Forall task_in_band (panel_tasks dA plasma_tile_mview k).
Proof.
  unfold panel_tasks, task_in_band. repeat (apply Forall_app; split).
  - in_band.
  - apply Forall_bind, Forall_forall. intros n _. simpl. in_band.
  - in_band.
Qed.

Lemma submit_in_band (cs : list call) :
  Forall call_in_band cs → Forall task_in_band (submit <$> cs).
Proof. intros Hcs. by rewrite Forall_fmap. Qed.

Lemma column_tasks_in_band k :
  Forall task_in_band
    (column_tasks dA dW plasma ceil_log2 plasma_tile_mview k).
Proof.
  unfold column_tasks.
  apply Forall_app; split; [apply submit_in_band, offdiag_in_band|].
  apply Forall_app; split; [apply submit_in_band, assemble_diag_in_band|].
  apply Forall_app; split; [apply submit_in_band, congruence_in_band|].
  apply Forall_app; split; [apply submit_in_band, trailing_H_in_band|].
  case_decide; [|constructor].
  apply Forall_app; split; [apply submit_in_band, trailing_H_in_band|].
  apply Forall_app; split; [apply submit_in_band, column_update_in_band|].
  apply Forall_app; split; [apply panel_tasks_in_band|].
  apply submit_in_band, band_finalize_in_band.
Qed.

Lemma upper_tasks_in_band k : Forall task_in_band (upper_tasks dA k).
Proof.
  unfold upper_tasks, task_in_band. repeat (apply Forall_app; split).
  - in_band.
  - apply Forall_bind, Forall_forall. intros m _. simpl. in_band.
  - apply Forall_bind, Forall_forall. intros m _. simpl.
    apply Forall_cons. split; [in_band|].
    apply Forall_bind, Forall_forall. intros n _. simpl. in_band.
Qed.

(** C9. Every tile of [T] named by a task of the factorization, in any
    operand position and in any column, has tile coordinates [(i, j)] with
    [|i - j| <= 1]: a diagonal tile [T(k,k)], a sub-diagonal tile
    [T(k,k-1)] or [T(k+1,k)], or the mirror [T(k,k+1)]. *)
Theorem band_references (uplo : plasma_enum_t)
    (sequence : plasma_sequence_t) (t : task) (i j : Z) :
  t ∈ plasma_pzhetrf_aa dA dW plasma ceil_log2 plasma_tile_mview
        uplo sequence →
  T i j ∈ task_operands t →
  Z.abs (i - j) ≤ 1 ∧ (j = i ∨ j = i - 1 ∨ j = i + 1).
Proof.
  intros Ht Hop.
  assert (Forall task_in_band
            (plasma_pzhetrf_aa dA dW plasma ceil_log2 plasma_tile_mview
               uplo sequence)) as Hall.
  { unfold plasma_pzhetrf_aa. repeat case_decide; [constructor|..].
    - apply Forall_bind, Forall_forall. intros k _.
      apply column_tasks_in_band.
    - apply Forall_bind, Forall_forall. intros k _.
      apply upper_tasks_in_band. }
  rewrite Forall_forall in Hall. specialize (Hall t Ht).
  unfold task_in_band in Hall. rewrite Forall_forall in Hall.
  specialize (Hall _ Hop). simpl in Hall. lia.
Qed.
End Band.

Lemma band_references_witness :
  Z.abs (2 - 1) ≤ 1 ∧ (1 = 2 ∨ 1 = 2 - 1 ∨ 1 = 2 + 1).
Proof.
  apply (band_references desc_A3 desc_W3 ctx_4 Z.log2_up (λ _ _, 2)
           PlasmaLower (async.mk_sequence PlasmaSuccess)
           (submit (conj_mirror (T 2 1) (T 1 2)))).
  - apply list_elem_of_In. vm_compute. tauto.
  - simpl. left.
Defined.

(** ** The failure position recorded by the panel task *)

Section PanelStatus.
Variables (dA : plasma_desc_t) (plasma : plasma_context_t).

Lemma report_failed k core_zgetrf (ranks : list Z) sr :
  async.status sr.1 ≠ PlasmaSuccess →
  fold_left (report dA k core_zgetrf) ranks sr = sr.
Proof.
  intros Hsr. induction ranks as [|r ranks IH]; [done|]. simpl.
  unfold report at 2, plasma_request_fail.
  repeat case_decide; done.
Qed.

Lemma report_first k core_zgetrf (ranks : list Z) sr :
  async.status sr.1 = PlasmaSuccess →
  (∀ rank, rank ∈ ranks → core_zgetrf rank ≠ 0 →
           k * desc.mb dA + core_zgetrf rank ≠ PlasmaSuccess) →
  (∃ rank, rank ∈ ranks ∧ core_zgetrf rank ≠ 0) →
  ∃ rank, rank ∈ ranks ∧ core_zgetrf rank ≠ 0
    ∧ fold_left (report dA k core_zgetrf) ranks sr
      = (async.mk_sequence (k * desc.mb dA + core_zgetrf rank),
         async.mk_request (k * desc.mb dA + core_zgetrf rank)).
Proof.
  intros Hsr Hcode. induction ranks as [|r ranks IH]; intros (rank & Hin & Hne).
  { by apply elem_of_nil in Hin. }
  simpl. unfold report at 2.
  destruct (decide (core_zgetrf r ≠ 0)) as [Hr|Hr].
  - exists r. split; [by left|]. split; [done|].
    unfold plasma_request_fail. rewrite decide_True by done.
    apply report_failed. simpl. apply Hcode; [by left|done].
  - apply elem_of_cons in Hin as [->|Hin]; [done|].
    destruct IH as (rank' & Hin' & Hne' & Heq).
    + intros rank0 H0. apply Hcode. by right.
    + by exists rank.
    + exists rank'. split; [by right|]. done.
Qed.

(** C4, as the code has it.  When some thread of the panel task of column
    [k] gets a non-zero [info] from [core_zgetrf] ([info] being a column
    of the panel, counted from one, so [1 <= info <= A.mb]), the status of
    the sequence and of the request becomes [k*A.mb + info] for one such
    thread.  With square tiles that value is [tempj + info]: counted from
    one, the column of [A] that holds the failing pivot, inside tile
    column [k].  It is never a row of the panel, which begins one tile
    lower, at [tempi = (k+1)*A.mb]: the row of the failing pivot,
    [tempi + info], is the recorded value plus [A.mb]. *)
Theorem panel_failure_position (k : Z) (core_zgetrf : Z → Z)
    (sr : plasma_sequence_t * plasma_request_t) :
  0 ≤ k → 0 < desc.mb dA → desc.nb dA = desc.mb dA →
  async.status sr.1 = PlasmaSuccess →
  (∀ rank, 0 ≤ core_zgetrf rank ≤ desc.mb dA) →
  (∃ rank, 0 ≤ rank < ctx.num_panel_threads plasma ∧ core_zgetrf rank ≠ 0) →
  ∃ rank,
    0 ≤ rank < ctx.num_panel_threads plasma ∧ core_zgetrf rank ≠ 0
    ∧ let sr' := panel_status dA plasma k core_zgetrf sr in
      async.status sr'.1 = k * desc.mb dA + core_zgetrf rank
      ∧ async.request_status sr'.2 = k * desc.mb dA + core_zgetrf rank
      ∧ async.status sr'.1 = k * desc.nb dA + core_zgetrf rank
      ∧ in_tile_column dA k (async.status sr'.1)
      ∧ ¬ in_panel_rows dA k (async.status sr'.1)
      ∧ async.status sr'.1 + desc.mb dA
        = (k + 1) * desc.mb dA + core_zgetrf rank.
Proof.
  intros Hk Hmb Hnb Hsr Hinfo (rank & Hrank & Hne).
  destruct (report_first k core_zgetrf
              (seqZ 0 (ctx.num_panel_threads plasma)) sr Hsr)
    as (r & Hr & Hr0 & Heq).
  { intros r _ Hr. specialize (Hinfo r). unfold PlasmaSuccess. nia. }
  { exists rank. split; [|done]. apply elem_of_seqZ. lia. }
  exists r. apply elem_of_seqZ in Hr. split; [lia|]. split; [done|].
  unfold panel_status. rewrite decide_True by done.
  fold (report dA k core_zgetrf). rewrite Heq. simpl.
  specialize (Hinfo r). unfold in_tile_column, in_panel_rows. rewrite Hnb.
  repeat split; lia.
Qed.
End PanelStatus.

Lemma panel_failure_position_witness :
  async.status
    (panel_status desc_A3 ctx_4 1 (λ _, 2)
       (async.mk_sequence PlasmaSuccess, async.mk_request PlasmaSuccess)).1
  = 4.
Proof.
  destruct (panel_failure_position desc_A3 ctx_4 1 (λ _, 2)
              (async.mk_sequence PlasmaSuccess,
               async.mk_request PlasmaSuccess))
    as (rank & _ & _ & Hst & _).
  - lia.
  - simpl. lia.
  - reflexivity.
  - reflexivity.
  - intros rank. simpl. lia.
  - exists 0. simpl. lia.
  - exact Hst.
Defined.

(** On the 6x6 matrix with 2x2 tiles, a zero pivot in the first column of
    the panel of column 0 (row 3, column 1, counted from one) is recorded
    as position 1, which is not one of the panel rows 3..6. *)
Lemma failure_position_outside_panel :
  async.status
    (panel_status desc_A3 ctx_4 0 (λ _, 1)
       (async.mk_sequence PlasmaSuccess, async.mk_request PlasmaSuccess)).1
  = 1
  ∧ ¬ in_panel_rows desc_A3 0 1
  ∧ ¬ failure_recorded_in_panel_rows.
Proof.
  split; [reflexivity|]. split.
  - unfold in_panel_rows. simpl. lia.
  - intros Hclaim.
    specialize (Hclaim desc_A3 ctx_4 0 (λ _, 1)).
    unfold in_panel_rows in Hclaim. simpl in Hclaim.
    assert (2 < 1 ≤ 6); [|lia].
    apply Hclaim; try lia. exists 0. lia.
Qed.

(** ** Tile ranges of the task stream *)

Ltac stage_tiles :=
  repeat first
    [ apply Forall_nil
    | apply Forall_cons; split
    | apply Forall_app; split
    | progress (unfold factor_call_in_range, workspace_call_in_range,
                factor_tiles_in_range, workspace_tiles_in_range,
                tile_in_range, in_matrix; simpl)
    | progress intros
    | lia
    | congruence
    | done ].

Section LowerTiles.
Variables (dA dW : plasma_desc_t) (plasma : plasma_context_t).
Variables (ceil_log2 : Z → Z) (plasma_tile_mview : plasma_desc_t → Z → Z).
Hypothesis square : desc.nt dA = desc.mt dA.

Lemma offdiag_factor_tiles k :
  0 ≤ k < desc.mt dA → Forall (factor_call_in_range dA dW) (offdiag dA k).
Proof.
  intros Hk. apply Forall_bind, Forall_forall.
  intros m Hm%elem_of_seqZ. simpl. unfold offdiag_row.
  case_decide; stage_tiles.
Qed.

Lemma assemble_diag_factor_tiles k :
  0 ≤ k < desc.mt dA →
  Forall (factor_call_in_range dA dW) (assemble_diag dA dW ceil_log2 k).
Proof.
  intros Hk. unfold assemble_diag. case_decide; [|stage_tiles].
  apply Forall_app. split; [|apply Forall_app; split].
  - apply Forall_bind, Forall_forall. intros m Hm%elem_of_seqZ. simpl.
    stage_tiles.
  - apply tournament_Forall. intros m1 m2. stage_tiles.
  - stage_tiles.
Qed.

Lemma congruence_factor_tiles k :
  0 ≤ k < desc.mt dA → Forall (factor_call_in_range dA dW) (congruence k).
Proof. intros Hk. unfold congruence. repeat case_decide; stage_tiles. Qed.

Lemma trailing_H_factor_tiles k :
  0 ≤ k < desc.mt dA →
  Forall (factor_call_in_range dA dW) (trailing_H dA k).1
  ∧ ∀ beta, Forall (factor_call_in_range dA dW) (trailing_H_diag dA k beta).
Proof.
  intros Hk. unfold trailing_H, trailing_H_diag.
  split; [|intros beta]; case_decide; stage_tiles.
Qed.

Lemma column_update_factor_tiles k :
  0 ≤ k < desc.mt dA →
  Forall (factor_call_in_range dA dW) (column_update dA dW plasma ceil_log2 k).
Proof.
  intros Hk.
  unfold column_update, column_update_workspace, column_update_direct.
  case_decide.
  - apply Forall_app. split; [|apply Forall_app; split].
    + apply Forall_bind, Forall_forall. intros n Hn%elem_of_seqZ. simpl.
      apply Forall_bind, Forall_forall. intros m Hm%elem_of_seqZ. simpl.
      case_decide; stage_tiles.
    + apply tournament_Forall. intros m1 m2.
      apply Forall_bind, Forall_forall. intros m _. simpl. stage_tiles.
    + apply Forall_bind, Forall_forall. intros m Hm%elem_of_seqZ. simpl.
      stage_tiles.
  - apply Forall_bind, Forall_forall. intros n Hn%elem_of_seqZ. simpl.
    apply Forall_bind, Forall_forall. intros m Hm%elem_of_seqZ. simpl.
    stage_tiles.
Qed.

Lemma band_finalize_factor_tiles k :
  0 ≤ k → k + 1 < desc.mt dA →
  Forall (factor_call_in_range dA dW) (band_finalize k).
Proof. intros Hk Hk'. unfold band_finalize. case_decide; stage_tiles. Qed.

Lemma panel_factor_tiles k :
  0 ≤ k → k + 1 < desc.mt dA →
  Forall (factor_tiles_in_range dA dW) (panel_tasks dA plasma_tile_mview k).
Proof.
  intros Hk Hk'. unfold panel_tasks.
  apply Forall_app; split; [stage_tiles|].
  apply Forall_app; split; [|stage_tiles].
  apply Forall_bind, Forall_forall. intros n Hn%elem_of_seqZ. simpl.
  stage_tiles.
Qed.

Lemma submit_factor_tiles (cs : list call) :
  Forall (factor_call_in_range dA dW) cs →
  Forall (factor_tiles_in_range dA dW) (submit <$> cs).
Proof. intros Hcs. by rewrite Forall_fmap. Qed.

Lemma column_factor_tiles k :
  0 ≤ k < desc.mt dA →
  Forall (factor_tiles_in_range dA dW)
    (column_tasks dA dW plasma ceil_log2 plasma_tile_mview k).
Proof.
  intros Hk. unfold column_tasks.
  apply Forall_app; split;
    [by apply submit_factor_tiles, offdiag_factor_tiles|].
  apply Forall_app; split;
    [by apply submit_factor_tiles, assemble_diag_factor_tiles|].
  apply Forall_app; split;
    [by apply submit_factor_tiles, congruence_factor_tiles|].
  apply Forall_app; split;
    [by apply submit_factor_tiles, trailing_H_factor_tiles|].
  case_decide as Hnt; [|constructor]. rewrite square in Hnt.
  apply Forall_app; split;
    [by apply submit_factor_tiles, trailing_H_factor_tiles|].
  apply Forall_app; split;
    [by apply submit_factor_tiles, column_update_factor_tiles|].
  apply Forall_app; split; [apply panel_factor_tiles; lia|].
  apply submit_factor_tiles, band_finalize_factor_tiles; lia.
Qed.

(** X1.  In the lower branch, on a matrix with as many tile columns as
    tile rows, every tile of [A] that a task names lies on or below the
    diagonal of the tile grid: [plasma_tile_addr(A, i, j)] has
    [0 <= j <= i < A.mt], so the macro [L(m,n) = A(m,n-1)] is never used
    with [n = 0].  Every tile of [T] that a task names has both
    coordinates in [0 .. A.mt-1]. *)
Theorem lower_branch_factor_tiles (sequence : plasma_sequence_t)
    (t : task) (a : tile_addr) :
  t ∈ plasma_pzhetrf_aa dA dW plasma ceil_log2 plasma_tile_mview
        PlasmaLower sequence →
  a ∈ task_operands t →
  match a with
  | plasma_tile_addr mat_A i j => 0 ≤ j ≤ i ∧ i < desc.mt dA
  | plasma_tile_addr mat_T i j => 0 ≤ i < desc.mt dA ∧ 0 ≤ j < desc.mt dA
  | plasma_tile_addr mat_W _ _ => True
  end.
Proof.
  intros Ht Ha. unfold plasma_pzhetrf_aa in Ht.
  case_decide; [by apply elem_of_nil in Ht|].
  rewrite decide_True in Ht by done.
  apply list_elem_of_bind in Ht as (k & Ht & Hk%elem_of_seqZ).
  pose proof (column_factor_tiles k ltac:(lia)) as Hall.
  rewrite Forall_forall in Hall. specialize (Hall t Ht).
  unfold factor_tiles_in_range in Hall. rewrite Forall_forall in Hall.
  specialize (Hall a Ha). destruct a as [[] i j]; simpl in *; auto.
Qed.
End LowerTiles.

Lemma lower_branch_factor_tiles_witness :
  tile_in_range desc_A3 desc_W3 (L 2 2).
Proof.
  apply (lower_branch_factor_tiles desc_A3 desc_W3 ctx_4 Z.log2_up (λ _ _, 2)
           eq_refl (async.mk_sequence PlasmaSuccess)
           (submit (core_omp_zlacpy PlasmaUpper (L 2 2) (T 2 1)))
           (L 2 2)).
  - apply list_elem_of_In. vm_compute. tauto.
  - simpl. left.
Defined.

(** *** Workspace tiles *)

Section WorkspaceTiles.
Variables (dA dW : plasma_desc_t) (plasma : plasma_context_t).
Variables (ceil_log2 : Z → Z) (plasma_tile_mview : plasma_desc_t → Z → Z).
Hypothesis square : desc.nt dA = desc.mt dA.
Hypothesis one_slot : 1 ≤ tot dA dW.
Hypothesis slot_per_row : ctx.max_threads plasma - 2 ≤ tot dA dW.

Lemma offdiag_workspace_tiles k :
  0 ≤ k < desc.mt dA → Forall (workspace_call_in_range dA dW) (offdiag dA k).
Proof.
  intros Hk. apply Forall_bind, Forall_forall.
  intros m Hm%elem_of_seqZ. simpl. unfold offdiag_row, tot in *.
  case_decide; stage_tiles.
Qed.

Lemma imin_bounds a b :
  1 ≤ a → 1 ≤ b → 1 ≤ imin a b ∧ imin a b ≤ a ∧ imin a b ≤ b.
Proof. intros. unfold imin. case_match eqn:Hlt; lia. Qed.

Lemma tournament_slots num rounds (body : Z → Z → list call)
    (Q : call → Prop) :
  1 ≤ num →
  (∀ m1 m2, 0 ≤ m1 < num → 0 ≤ m2 < num → Forall Q (body m1 m2)) →
  Forall Q (tournament rounds num 2 body).
Proof.
  intros Hnum Hbody. rewrite tournament_as_pairs.
  pose proof (tournament_pairs_bounds num rounds Hnum num 1 ltac:(lia)
                ltac:(lia)) as Hb.
  apply Forall_bind. change (2 * 1) with 2 in Hb.
  eapply Forall_impl; [exact Hb|]. simpl. intros [m1 m2] Hm. simpl in *.
  apply Hbody; lia.
Qed.

Lemma rem_slot n num : 0 ≤ n → 1 ≤ num → 0 ≤ n `rem` num < num.
Proof. intros. apply Z.rem_bound_pos; lia. Qed.

Lemma assemble_diag_workspace_tiles k :
  0 ≤ k < desc.mt dA →
  Forall (workspace_call_in_range dA dW) (assemble_diag dA dW ceil_log2 k).
Proof.
  intros Hk. unfold assemble_diag. case_decide; [|stage_tiles].
  destruct (imin_bounds (tot dA dW) (k - 1)) as (Hn1 & Hn2 & Hn3); [lia..|].
  unfold tot in *.
  apply Forall_app. split; [|apply Forall_app; split].
  - apply Forall_bind, Forall_forall. intros m Hm%elem_of_seqZ. simpl.
    pose proof (rem_slot (m - 1) _ ltac:(lia) Hn1).
    stage_tiles.
  - apply tournament_slots; [done|]. intros m1 m2 Hm1 Hm2. stage_tiles.
  - stage_tiles.
Qed.

Lemma congruence_workspace_tiles k :
  0 ≤ k < desc.mt dA → Forall (workspace_call_in_range dA dW) (congruence k).
Proof.
  intros Hk. unfold congruence, tot in *. repeat case_decide; stage_tiles.
Qed.

Lemma trailing_H_workspace_tiles k :
  0 ≤ k < desc.mt dA →
  Forall (workspace_call_in_range dA dW) (trailing_H dA k).1
  ∧ ∀ beta, Forall (workspace_call_in_range dA dW)
              (trailing_H_diag dA k beta).
Proof.
  intros Hk. unfold trailing_H, trailing_H_diag, tot in *.
  split; [|intros beta]; case_decide; stage_tiles.
Qed.

(** The slots of the workspace branch of the column update. *)
Lemma column_slot_bound k num m j :
  0 ≤ k → k + 1 ≤ m < desc.mt dA → 0 ≤ j → j < num ∨ (num = 0 ∧ j = 0) →
  num * (desc.mt dA - k - 1) ≤ tot dA dW →
  0 ≤ (m - k - 1) * num + j < tot dA dW.
Proof. intros Hk Hm Hj Hnum Htot. nia. Qed.

Lemma column_update_workspace_tiles k :
  0 ≤ k → k + 1 < desc.mt dA →
  Forall (workspace_call_in_range dA dW)
    (column_update dA dW plasma ceil_log2 k).
Proof.
  intros Hk Hk'.
  unfold column_update, column_update_workspace, column_update_direct.
  case_decide as Hbranch.
  - set (num := imin k (tot dA dW `quot` (desc.mt dA - k - 1))).
    assert (1 ≤ tot dA dW `quot` (desc.mt dA - k - 1)) as Hq.
    { apply Z.quot_le_lower_bound; lia. }
    assert (tot dA dW `quot` (desc.mt dA - k - 1) * (desc.mt dA - k - 1)
            ≤ tot dA dW) as Hq'.
    { rewrite Z.mul_comm. apply Z.mul_quot_le; lia. }
    assert (0 ≤ num ≤ k ∧ num * (desc.mt dA - k - 1) ≤ tot dA dW
            ∧ (1 ≤ k → 1 ≤ num)) as (Hnum & Hslots & Hnum1).
    { subst num. unfold imin. case_match eqn:Hlt.
      - apply Z.ltb_lt in Hlt. nia.
      - apply Z.ltb_ge in Hlt. nia. }
    pose proof (column_slot_bound k num) as Hslot.
    unfold tot in *.
    apply Forall_app. split; [|apply Forall_app; split].
    + apply Forall_bind, Forall_forall. intros n Hn%elem_of_seqZ. simpl.
      apply Forall_bind, Forall_forall. intros m Hm%elem_of_seqZ. simpl.
      pose proof (rem_slot (n - 1) num ltac:(lia) ltac:(lia)).
      specialize (Hslot m ((n - 1) `rem` num) ltac:(lia) ltac:(lia)
                    ltac:(lia) ltac:(lia) Hslots).
      case_decide; stage_tiles.
    + unfold column_reduce. destruct (decide (num = 0)) as [Hz|Hne].
      { rewrite Hz, tournament_no_players. constructor. }
      apply tournament_slots; [lia|]. intros m1 m2 Hm1 Hm2.
      apply Forall_bind, Forall_forall. intros m Hm%elem_of_seqZ. simpl.
      pose proof (Hslot m m1 ltac:(lia) ltac:(lia) ltac:(lia) ltac:(lia)
                    Hslots).
      pose proof (Hslot m m2 ltac:(lia) ltac:(lia) ltac:(lia) ltac:(lia)
                    Hslots).
      stage_tiles.
    + apply Forall_bind, Forall_forall. intros m Hm%elem_of_seqZ. simpl.
      pose proof (Hslot m 0 ltac:(lia) ltac:(lia) ltac:(lia) ltac:(lia)
                    Hslots) as H0.
      rewrite Z.add_0_r in H0.
      stage_tiles.
  - unfold tot in *.
    apply Forall_bind, Forall_forall. intros n Hn%elem_of_seqZ. simpl.
    apply Forall_bind, Forall_forall. intros m Hm%elem_of_seqZ. simpl.
    stage_tiles.
Qed.

Lemma band_finalize_workspace_tiles k :
  Forall (workspace_call_in_range dA dW) (band_finalize k).
Proof. unfold band_finalize. case_decide; stage_tiles. Qed.

Lemma panel_workspace_tiles k :
  Forall (workspace_tiles_in_range dA dW)
    (panel_tasks dA plasma_tile_mview k).
Proof.
  unfold panel_tasks.
  apply Forall_app; split; [stage_tiles|].
  apply Forall_app; split; [|stage_tiles].
  apply Forall_bind, Forall_forall. intros n Hn%elem_of_seqZ. simpl.
  stage_tiles.
Qed.

Lemma submit_workspace_tiles (cs : list call) :
  Forall (workspace_call_in_range dA dW) cs →
  Forall (workspace_tiles_in_range dA dW) (submit <$> cs).
Proof. intros Hcs. by rewrite Forall_fmap. Qed.

Lemma column_workspace_tiles k :
  0 ≤ k < desc.mt dA →
  Forall (workspace_tiles_in_range dA dW)
    (column_tasks dA dW plasma ceil_log2 plasma_tile_mview k).
Proof.
  intros Hk. unfold column_tasks.
  apply Forall_app; split;
    [by apply submit_workspace_tiles, offdiag_workspace_tiles|].
  apply Forall_app; split;
    [by apply submit_workspace_tiles, assemble_diag_workspace_tiles|].
  apply Forall_app; split;
    [by apply submit_workspace_tiles, congruence_workspace_tiles|].
  apply Forall_app; split;
    [by apply submit_workspace_tiles, trailing_H_workspace_tiles|].
  case_decide as Hnt; [|constructor]. rewrite square in Hnt.
  apply Forall_app; split;
    [by apply submit_workspace_tiles, trailing_H_workspace_tiles|].
  apply Forall_app; split;
    [apply submit_workspace_tiles, column_update_workspace_tiles; lia|].
  apply Forall_app; split; [apply panel_workspace_tiles|].
  apply submit_workspace_tiles, band_finalize_workspace_tiles.
Qed.

(** X2.  In the lower branch, on a matrix with as many tile columns as
    tile rows and a workspace with [tot = W.mt - 3*A.mt] reduction slots,
    [tot >= 1] and [tot >= max_threads - 2]: every workspace tile that a
    task names, through [W], [W2], [H], [W3] or [W4], is a tile
    [plasma_tile_addr(W, i, 0)] with [0 <= i < W.mt]. *)
Theorem lower_branch_workspace_tiles (sequence : plasma_sequence_t)
    (t : task) (i j : Z) :
  t ∈ plasma_pzhetrf_aa dA dW plasma ceil_log2 plasma_tile_mview
        PlasmaLower sequence →
  plasma_tile_addr mat_W i j ∈ task_operands t →
  j = 0 ∧ 0 ≤ i < desc.mt dW.
Proof.
  intros Ht Ha. unfold plasma_pzhetrf_aa in Ht.
  case_decide; [by apply elem_of_nil in Ht|].
  rewrite decide_True in Ht by done.
  apply list_elem_of_bind in Ht as (k & Ht & Hk%elem_of_seqZ).
  pose proof (column_workspace_tiles k ltac:(lia)) as Hall.
  rewrite Forall_forall in Hall. specialize (Hall t Ht).
  unfold workspace_tiles_in_range in Hall. rewrite Forall_forall in Hall.
  by apply (Hall _ Ha).
Qed.
End WorkspaceTiles.

Lemma lower_branch_workspace_tiles_witness :
  tile_in_range desc_A5 desc_W5 (W4 desc_A5 1).
Proof.
  apply (lower_branch_workspace_tiles desc_A5 desc_W5 ctx_4 Z.log2_up
           (λ _ _, 2) eq_refl ltac:(vm_compute; discriminate)
           ltac:(vm_compute; discriminate)
           (async.mk_sequence PlasmaSuccess)
           (submit (core_omp_zgeadd PlasmaNoTrans zone (W4 desc_A5 1) zone
                      (W4 desc_A5 0)))
           (1 + 3 * desc.mt desc_A5) 0).
  - apply list_elem_of_In. vm_compute. tauto.
  - simpl. left.
Defined.

(** ** The upper branch *)

Section UpperBranch.
Variables (dA dW : plasma_desc_t) (plasma : plasma_context_t).
Variables (ceil_log2 : Z → Z) (plasma_tile_mview : plasma_desc_t → Z → Z).

(** X3.  For every [uplo] other than [PlasmaLower] the routine takes the
    second branch.  None of its tasks belongs to the pivoted panel
    factorization (no [core_zgetrf], no pivot shift, no row
    interchange), and every tile it names is a tile [A(i,j)] on or above
    the diagonal, [0 <= i <= j < A.nt]; no tile of [T] or [W] is
    named. *)
Theorem upper_branch_tiles (uplo : plasma_enum_t)
    (sequence : plasma_sequence_t) (t : task) :
  uplo ≠ PlasmaLower →
  t ∈ plasma_pzhetrf_aa dA dW plasma ceil_log2 plasma_tile_mview
        uplo sequence →
  ¬ is_pivoting t
  ∧ ∀ a, a ∈ task_operands t →
      ∃ i j, a = A i j ∧ 0 ≤ i ≤ j ∧ j < desc.nt dA.
Proof.
  intros Hup Ht. unfold plasma_pzhetrf_aa in Ht.
  case_decide; [by apply elem_of_nil in Ht|].
  rewrite decide_False in Ht by done.
  apply list_elem_of_bind in Ht as (k & Ht & Hk%elem_of_seqZ).
  unfold upper_tasks in Ht.
  apply elem_of_app in Ht as [Ht|Ht]; [|apply elem_of_app in Ht as [Ht|Ht]].
  - apply list_elem_of_singleton in Ht as ->. split; [simpl; tauto|].
    intros a Ha. simpl in Ha. apply list_elem_of_singleton in Ha as ->.
    exists k, k. split; [done|lia].
  - apply list_elem_of_bind in Ht as (m & Ht & Hm%elem_of_seqZ).
    apply list_elem_of_singleton in Ht as ->. split; [simpl; tauto|].
    intros a Ha. simpl in Ha.
    apply elem_of_cons in Ha as [->|Ha%list_elem_of_singleton].
    + exists k, k. split; [done|lia].
    + subst a. exists k, m. split; [done|lia].
  - apply list_elem_of_bind in Ht as (m & Ht & Hm%elem_of_seqZ).
    apply elem_of_cons in Ht as [->|Ht].
    + split; [simpl; tauto|]. intros a Ha. simpl in Ha.
      apply elem_of_cons in Ha as [->|Ha%list_elem_of_singleton].
      * exists k, m. split; [done|lia].
      * subst a. exists m, m. split; [done|lia].
    + apply list_elem_of_bind in Ht as (n & Ht & Hn%elem_of_seqZ).
      apply list_elem_of_singleton in Ht as ->. split; [simpl; tauto|].
      intros a Ha. simpl in Ha.
      apply elem_of_cons in Ha as [->|Ha];
        [|apply elem_of_cons in Ha as [->|Ha%list_elem_of_singleton]].
      * exists k, n. split; [done|lia].
      * exists k, m. split; [done|lia].
      * subst a. exists n, m. split; [done|lia].
Qed.
End UpperBranch.

Lemma upper_branch_tiles_witness :
  ¬ is_pivoting (core_omp_zherk PlasmaUpper PlasmaConjTrans
                   zmone (A 0 2) zone (A 2 2))
  ∧ ∀ a, a ∈ task_operands (core_omp_zherk PlasmaUpper PlasmaConjTrans
                              zmone (A 0 2) zone (A 2 2)) →
      ∃ i j, a = A i j ∧ 0 ≤ i ≤ j ∧ j < desc.nt desc_A3.
Proof.
  apply (upper_branch_tiles desc_A3 desc_W3 ctx_4 Z.log2_up (λ _ _, 2)
           PlasmaUpper (async.mk_sequence PlasmaSuccess)).
  - discriminate.
  - apply list_elem_of_In. vm_compute. tauto.
Defined.

(** ** Tiles written by a column *)

Ltac stage_writes :=
  repeat first
    [ apply Forall_nil
    | apply Forall_cons; split
    | apply Forall_app; split
    | progress (unfold call_writes_in_column, written_in_column; simpl)
    | lia
    | done ].

Section ColumnWrites.
Variables (dA dW : plasma_desc_t) (plasma : plasma_context_t).
Variables (ceil_log2 : Z → Z) (plasma_tile_mview : plasma_desc_t → Z → Z).

Lemma column_calls_write k :
  Forall (call_writes_in_column k) (offdiag dA k)
  ∧ Forall (call_writes_in_column k) (assemble_diag dA dW ceil_log2 k)
  ∧ Forall (call_writes_in_column k) (congruence k)
  ∧ Forall (call_writes_in_column k) (trailing_H dA k).1
  ∧ (∀ beta, Forall (call_writes_in_column k) (trailing_H_diag dA k beta))
  ∧ Forall (call_writes_in_column k)
      (column_update dA dW plasma ceil_log2 k)
  ∧ Forall (call_writes_in_column k) (band_finalize k).
Proof.
  repeat split.
  - apply Forall_bind, Forall_forall. intros m _. simpl.
    unfold offdiag_row. case_decide; stage_writes.
  - unfold assemble_diag. case_decide; [|stage_writes].
    apply Forall_app. split; [|apply Forall_app; split].
    + apply Forall_bind, Forall_forall. intros m _. simpl. stage_writes.
    + apply tournament_Forall. intros m1 m2. stage_writes.
    + stage_writes.
  - unfold congruence. repeat case_decide; stage_writes.
  - unfold trailing_H. case_decide; stage_writes.
  - intros beta. unfold trailing_H_diag. case_decide; stage_writes.
  - unfold column_update, column_update_workspace, column_update_direct.
    case_decide.
    + apply Forall_app. split; [|apply Forall_app; split].
      * apply Forall_bind, Forall_forall. intros n _. simpl.
        apply Forall_bind, Forall_forall. intros m _. simpl.
        case_decide; stage_writes.
      * apply tournament_Forall. intros m1 m2.
        apply Forall_bind, Forall_forall. intros m _. simpl. stage_writes.
      * apply Forall_bind, Forall_forall. intros m Hm%elem_of_seqZ. simpl.
        stage_writes.
    + apply Forall_bind, Forall_forall. intros n _. simpl.
      apply Forall_bind, Forall_forall. intros m Hm%elem_of_seqZ. simpl.
      stage_writes.
  - unfold band_finalize. case_decide; stage_writes.
Qed.

(** X4.  In column [k] of the lower branch, a tile kernel or in-line
    loop (every task but the panel task, the pivot shift and the two
    interchanges) writes a workspace tile, one of the band tiles
    [T(k,k)], [T(k+1,k)], [T(k,k+1)], or a tile [plasma_tile_addr(A, i, k)]
    of column [k] of [A] below the diagonal ([k < i]).  It writes no
    other tile of [T], no tile of another column of [A], and no tile on
    or above the diagonal of [A]. *)
Theorem column_kernels_write (k : Z) (c : call) (a : tile_addr) :
  submit c ∈ column_tasks dA dW plasma ceil_log2 plasma_tile_mview k →
  dest c = Some a →
  match a with
  | plasma_tile_addr mat_W _ _ => True
  | plasma_tile_addr mat_T i j =>
      (i = k ∧ j = k) ∨ (i = k + 1 ∧ j = k) ∨ (i = k ∧ j = k + 1)
  | plasma_tile_addr mat_A i j => j = k ∧ k < i
  end.
Proof.
  intros Hc Hd.
  destruct (column_calls_write k) as (H1 & H2 & H3 & H4 & H5 & H6 & H7).
  assert (∀ cs, Forall (call_writes_in_column k) cs →
            submit c ∈ submit <$> cs → written_in_column k a) as Hin.
  { intros cs Hcs (c' & [= <-] & Hc')%list_elem_of_fmap.
    rewrite Forall_forall in Hcs. specialize (Hcs c Hc').
    unfold call_writes_in_column in Hcs. by rewrite Hd in Hcs. }
  unfold column_tasks in Hc.
  apply elem_of_app in Hc as [Hc|Hc]; [by apply (Hin _ H1)|].
  apply elem_of_app in Hc as [Hc|Hc]; [by apply (Hin _ H2)|].
  apply elem_of_app in Hc as [Hc|Hc]; [by apply (Hin _ H3)|].
  apply elem_of_app in Hc as [Hc|Hc]; [by apply (Hin _ H4)|].
  case_decide; [|by apply elem_of_nil in Hc].
  apply elem_of_app in Hc as [Hc|Hc];
    [by apply (Hin _ (H5 (trailing_H dA k).2))|].
  apply elem_of_app in Hc as [Hc|Hc]; [by apply (Hin _ H6)|].
  apply elem_of_app in Hc as [Hc|Hc]; [|by apply (Hin _ H7)].
  exfalso. unfold panel_tasks in Hc.
  repeat (apply elem_of_app in Hc as [Hc|Hc]).
  - repeat (apply elem_of_cons in Hc as [Hc|Hc];
            [try discriminate Hc; injection Hc as ->; discriminate Hd|]).
    by apply elem_of_nil in Hc.
  - apply list_elem_of_bind in Hc as (n & Hc & _).
    by apply list_elem_of_singleton in Hc.
  - repeat (apply elem_of_cons in Hc as [Hc|Hc];
            [try discriminate Hc; injection Hc as ->; discriminate Hd|]).
    by apply elem_of_nil in Hc.
Qed.
End ColumnWrites.

Lemma column_kernels_write_witness : written_in_column 1 (L 3 2).
Proof.
  apply (column_kernels_write desc_A5 desc_W5 ctx_4 Z.log2_up (λ _ _, 2) 1
           (core_omp_zgemm PlasmaNoTrans PlasmaNoTrans zmone (L 3 1)
              (H desc_A5 PlasmaLower 1 1) zone (L 3 2))
           (L 3 2)).
  - apply list_elem_of_In. vm_compute. tauto.
  - reflexivity.
Defined.

(** ** The diagonal block of H *)

Section DiagonalH.
Context {tile : Type} {ops : TileOps tile} {laws : TileLaws tile}.
Variables (dA dW : plasma_desc_t) (plasma : plasma_context_t).
Variables (ceil_log2 : Z → Z) (plasma_tile_mview : plasma_desc_t → Z → Z).
Implicit Types (s : store tile).

(** X5.  The calls under "computing H(k, k)", for a column [k > 0] that
    is not the last ([k+1 < A.nt]), where they follow the congruence
    block and precede the column update.  They leave in [H(k,k)] the
    product [T(k,k)*L(k,k)^H], preceded for [k > 1] by
    [T(k,k-1)*L(k,k-1)^H]; the first call of the two has [beta = 0], so
    the value does not depend on what [H(k,k)] held before.  No other
    tile is changed. *)
Theorem diagonal_H_block (k : Z) (s : store tile) :
  0 < k →
  let cs := (trailing_H dA k).1
            ++ trailing_H_diag dA k (trailing_H dA k).2 in
  exec cs s (H dA PlasmaLower k k)
  = (if decide (k > 1)
     then tile_add (H_diag_term k (k - 1) s) (H_diag_term k k s)
     else H_diag_term k k s)
  ∧ (∀ a, a ≠ H dA PlasmaLower k k → exec cs s a = s a)
  ∧ (k + 1 < desc.nt dA →
     column_tasks dA dW plasma ceil_log2 plasma_tile_mview k
     = ((submit <$> offdiag dA k)
        ++ (submit <$> assemble_diag dA dW ceil_log2 k)
        ++ (submit <$> congruence k))
       ++ (submit <$> cs)
       ++ (submit <$> column_update dA dW plasma ceil_log2 k)
       ++ panel_tasks dA plasma_tile_mview k
       ++ (submit <$> band_finalize k)).
Proof.
  intros Hk cs. split; [|split].
  - subst cs. unfold trailing_H, trailing_H_diag, H_diag_term.
    rewrite (decide_True (P := k > 0)) by lia.
    destruct (decide (k > 1)) as [Hk1|Hk1]; simpl.
    + rewrite !upd_eq.
      rewrite !upd_ne by (unfold H, T, L, W2; simpl; congruence).
      unfold zgemm. simpl. by rewrite tile_add_zero_l.
    + rewrite upd_eq. unfold zgemm. simpl. by rewrite tile_add_zero_l.
  - subst cs. unfold trailing_H, trailing_H_diag.
    rewrite (decide_True (P := k > 0)) by lia.
    destruct (decide (k > 1)) as [Hk1|Hk1]; simpl.
    + intros a Ha. by rewrite !upd_ne by done.
    + intros a Ha. by rewrite !upd_ne by done.
  - intros Hlast. unfold column_tasks. rewrite decide_True by done.
    subst cs. by rewrite fmap_app, <- !app_assoc.
Qed.
End DiagonalH.

Lemma diagonal_H_block_witness :
  exec ((trailing_H desc_A3 2).1
        ++ trailing_H_diag desc_A3 2 (trailing_H desc_A3 2).2)
    numbered_store (H desc_A3 PlasmaLower 2 2)
  = tile_add (H_diag_term 2 (2 - 1) numbered_store)
      (H_diag_term 2 2 numbered_store).
Proof.
  apply (diagonal_H_block desc_A3 desc_W3 ctx_4 Z.log2_up (λ _ _, 2) 2
           numbered_store).
  lia.
Defined.

(** ** The column update for [k >= 1] *)

Section ColumnUpdateBranches.
Context {tile : Type} {ops : TileOps tile} {laws : TileLaws tile}.
Variables (dA dW : plasma_desc_t) (plasma : plasma_context_t).
Variable ceil_log2 : Z → Z.
Implicit Types (s : store tile).

(** X6.  The column update of a column [k >= 1], with at least one
    workspace slot per tile row below row [k]
    ([A.mt - k - 1 <= tot]): whichever branch the number of threads
    selects, it leaves in [L(m,k+1)] its old value minus the sum over
    [n = 1 .. k] of [L(m,n)*H(n,k)], for every tile row [m > k]. *)
Theorem column_update_value (k m0 : Z) (s : store tile) :
  1 ≤ k → k + 1 ≤ m0 < desc.mt dA →
  desc.mt dA - k - 1 ≤ tot dA dW →
  (∀ p, 1 ≤ p → Z.log2_up p ≤ ceil_log2 p) →
  exec (column_update dA dW plasma ceil_log2 k) s (L m0 (k + 1))
  = tile_add (s (L m0 (k + 1)))
      (range_sum (λ n, tile_opp (tile_mul (s (L m0 n))
                                   (s (H dA PlasmaLower n k))))
         1 (k + 1)).
Proof.
  intros Hk Hm0 Htot Hlog.
  assert (m0 ∈ rows dA k) as Hrow by (apply elem_of_rows; lia).
  unfold column_update. case_decide.
  - rewrite (column_update_workspace_value dA dW ceil_log2);
      [done|lia|done| |done].
    apply Z.quot_le_lower_bound; lia.
  - by rewrite column_update_direct_value.
Qed.
End ColumnUpdateBranches.

Lemma column_update_value_witness :
  exec (column_update desc_A5 desc_W5 ctx_4 Z.log2_up 3) numbered_store
    (L 4 (3 + 1))
  = tile_add (numbered_store (L 4 (3 + 1)))
      (range_sum (λ n, tile_opp (tile_mul (numbered_store (L 4 n))
                                   (numbered_store (H desc_A5 PlasmaLower n 3))))
         1 (3 + 1)).
Proof.
  apply (column_update_value desc_A5 desc_W5 ctx_4 Z.log2_up 3 4
           numbered_store); [lia|vm_compute; split; [discriminate|reflexivity]
                            |vm_compute; discriminate|intros; lia].
Defined.

(** ** The pivots of the panel *)

Lemma shift_pivots_entries dA k count tempi (ipiv : buffer Z) :
  (∀ i, 0 ≤ i < count →
     shift_pivots dA k count tempi ipiv ((k + 1) * desc.mb dA + i)
     = ipiv ((k + 1) * desc.mb dA + i) + tempi)
  ∧ (∀ x, ¬ ((k + 1) * desc.mb dA ≤ x < (k + 1) * desc.mb dA + count) →
       shift_pivots dA k count tempi ipiv x = ipiv x).
Proof.
  unfold shift_pivots.
  destruct (decide (0 ≤ count)) as [Hc|Hc].
  2:{ rewrite seqZ_nil by lia. split; [lia|done]. }
  rewrite <- (Z2Nat.id count) by done.
  induction (Z.to_nat count) as [|n [IH1 IH2]]; [split; [lia|done]|].
  rewrite seqZ_S, fold_left_app. simpl. split.
  - intros i Hi. unfold poke at 1. case_decide as Heq.
    + replace i with (Z.of_nat n) by lia. rewrite IH2; [done|lia].
    + apply IH1. lia.
  - intros x Hx. unfold poke at 1. rewrite decide_False by lia.
    apply IH2. lia.
Qed.

Section Pivots.
Variables (dA : plasma_desc_t) (plasma_tile_mview : plasma_desc_t → Z → Z).
Hypothesis square_tiles : desc.nb dA = desc.mb dA.

(** X7.  The pivots of the panel of column [k], on square tiles.  The
    loop after the panel task adds [tempi = (k+1)*A.mb] to the
    [count = imin(tempm, mvak)] entries of [ipiv] from position [tempi]
    on, and changes no other entry; [ipiv] is the array as [core_zgetrf]
    left it.  A pivot that was a row [i+1 .. tempm] of the panel becomes
    a row [tempi+i+1 .. A.m] of the matrix.  The row interchanges on the
    earlier columns and the symmetric interchange on the trailing
    matrix are both submitted for the positions [tempi+1 .. tempi+count]
    that the loop has shifted, with increment 1. *)
Theorem panel_pivots_global (k : Z) (ipiv : buffer Z) :
  0 ≤ k →
  let tempi := (k + 1) * desc.mb dA in
  let tempm := desc.m dA - tempi in
  let count := imin tempm (plasma_tile_mview dA k) in
  let ipiv' :=
    fold_left (run_pivot_shift dA) (panel_tasks dA plasma_tile_mview k) ipiv in
  (∀ i, 0 ≤ i < count → ipiv' (tempi + i) = ipiv (tempi + i) + tempi)
  ∧ (∀ x, ¬ (tempi ≤ x < tempi + count) → ipiv' x = ipiv x)
  ∧ (∀ i, 0 ≤ i < count →
       i + 1 ≤ ipiv (tempi + i) ≤ tempm →
       tempi + i + 1 ≤ ipiv' (tempi + i) ≤ desc.m dA)
  ∧ Forall
      (λ t, match t with
            | core_zlaswp _ _ _ k1 k2 incx
            | core_omp_zlaswp_sym _ k1 k2 incx =>
                k1 = tempi + 1 ∧ k2 = tempi + count ∧ incx = 1
            | _ => True
            end)
      (panel_tasks dA plasma_tile_mview k).
Proof.
  intros Hk tempi tempm count ipiv'.
  assert (ipiv' = shift_pivots dA k count tempi ipiv) as ->.
  { subst ipiv'. unfold panel_tasks. rewrite !fold_left_app. simpl.
    set (p := shift_pivots _ _ _ _ _).
    assert (∀ (l : list Z) f q,
              (∀ n, run_pivot_shift dA q (f n) = q) →
              fold_left (run_pivot_shift dA) (l ≫= (λ n, [f n])) q = q)
      as Hskip.
    { intros l f q Hf. induction l as [|n l IHl]; [done|].
      rewrite bind_cons. simpl. by rewrite Hf. }
    by rewrite Hskip. }
  destruct (shift_pivots_entries dA k count tempi ipiv) as [H1 H2].
  fold tempi in H1, H2.
  split; [done|]. split; [done|]. split.
  - intros i Hi Hloc. rewrite H1 by done. unfold tempm in Hloc. lia.
  - unfold panel_tasks. fold tempi tempm count. rewrite square_tiles.
    fold tempi.
    apply Forall_app; split; [repeat constructor|].
    apply Forall_app; split.
    + apply Forall_bind, Forall_forall. intros n _. simpl.
      repeat constructor; lia.
    + repeat constructor; lia.
Qed.
End Pivots.

Lemma panel_pivots_global_witness :
  let tempi := (0 + 1) * desc.mb desc_A3 in
  let tempm := desc.m desc_A3 - tempi in
  let count := imin tempm 2 in
  let ipiv' :=
    fold_left (run_pivot_shift desc_A3) (panel_tasks desc_A3 (λ _ _, 2) 0)
      (λ _, 2) in
  (∀ i, 0 ≤ i < count → ipiv' (tempi + i) = 2 + tempi)
  ∧ (∀ x, ¬ (tempi ≤ x < tempi + count) → ipiv' x = 2)
  ∧ (∀ i, 0 ≤ i < count →
       i + 1 ≤ 2 ≤ tempm →
       tempi + i + 1 ≤ ipiv' (tempi + i) ≤ desc.m desc_A3)
  ∧ Forall
      (λ t, match t with
            | core_zlaswp _ _ _ k1 k2 incx
            | core_omp_zlaswp_sym _ k1 k2 incx =>
                k1 = tempi + 1 ∧ k2 = tempi + count ∧ incx = 1
            | _ => True
            end)
      (panel_tasks desc_A3 (λ _ _, 2) 0).
Proof.
  apply (panel_pivots_global desc_A3 (λ _ _, 2) eq_refl 0 (λ _, 2)). lia.
Defined.

(** ** Reduction trees: the operations as a list *)

Lemma insert_next_all st kernel col row rowpiv :
  insert_next st kernel col row rowpiv
  = insert_all st [op.mk kernel col row rowpiv].
Proof. done. Qed.

Lemma insert_all_app st os1 os2 :
  insert_all st (os1 ++ os2) = insert_all (insert_all st os1) os2.
Proof. unfold insert_all. by rewrite fold_left_app. Qed.

Lemma insert_all_count st os :
  (insert_all st os).2 = st.2 + Z.of_nat (length os).
Proof.
  revert st. induction os as [|o os IH]; intros st; simpl; [lia|].
  unfold insert_all in *. simpl. rewrite IH. simpl. lia.
Qed.

Lemma insert_all_length st os :
  length (insert_all st os).1 = length st.1.
Proof.
  revert st. induction os as [|o os IH]; intros st; [done|].
  unfold insert_all in *. simpl. rewrite IH. simpl.
  unfold plasma_rh_tree_operation_insert. by rewrite length_insert.
Qed.

(** Insertions that stay inside the array overwrite the rows from the
    counter on, and nothing else. *)
Lemma insert_all_rows (arr : list operation) (i : Z) os :
  0 ≤ i → (Z.to_nat i + length os ≤ length arr)%nat →
  (insert_all (arr, i) os).1
  = take (Z.to_nat i) arr ++ os ++ drop (Z.to_nat i + length os) arr.
Proof.
  revert arr i. induction os as [|o os IH]; intros arr i Hi Hlen.
  { simpl. rewrite Nat.add_0_r. by rewrite take_drop. }
  simpl in Hlen. unfold insert_all in *. simpl.
  unfold insert_next at 2. simpl.
  rewrite IH; [|lia|].
  2:{ unfold plasma_rh_tree_operation_insert. rewrite length_insert.
      rewrite Z2Nat.inj_add by lia. simpl. lia. }
  unfold plasma_rh_tree_operation_insert.
  replace (Z.to_nat (i + 1)) with (S (Z.to_nat i)) by lia.
  destruct o as [ke c r p]. simpl.
  rewrite take_S_r with (x := op.mk ke c r p).
  2:{ apply list_lookup_insert_eq. lia. }
  rewrite take_insert_ge by lia.
  rewrite drop_insert_lt by lia.
  rewrite <- app_assoc. simpl. do 4 f_equal. lia.
Qed.

Lemma triangle_even (n : Z) : 2 * (((n + 1) * n) `quot` 2) = (n + 1) * n.
Proof.
  destruct (Z.Even_or_Odd n) as [[h ->]|[h ->]].
  - replace ((2 * h + 1) * (2 * h)) with ((2 * h + 1) * h * 2) by lia.
    rewrite Z.quot_mul by lia. lia.
  - replace ((2 * h + 1 + 1) * (2 * h + 1)) with ((h + 1) * (2 * h + 1) * 2)
      by lia.
    rewrite Z.quot_mul by lia. lia.
Qed.

(** The operations of the flat tree, in the order of insertion. *)
Lemma flat_fold mt (ks : list Z) st :
  fold_left
    (λ st k,
       fold_left (λ st m, insert_next st PlasmaTSKernel k m k)
         (seqZ (k + 1) (mt - (k + 1)))
         (insert_next st PlasmaGEKernel k k (-1)))
    ks st
  = insert_all st
      (k ← ks;
       op.mk PlasmaGEKernel k k (-1)
       :: ((λ m, op.mk PlasmaTSKernel k m k)
             <$> seqZ (k + 1) (mt - (k + 1)))).
Proof.
  unfold insert_all. rewrite fold_left_bind.
  apply fold_left_ext_in. intros acc k _. simpl.
  by rewrite fold_left_fmap.
Qed.

Lemma flat_length mt (n : nat) :
  Z.of_nat n ≤ mt →
  2 * Z.of_nat (length
        (k ← seqZ 0 (Z.of_nat n);
         op.mk PlasmaGEKernel k k (-1)
         :: ((λ m, op.mk PlasmaTSKernel k m k)
               <$> seqZ (k + 1) (mt - (k + 1)))))
  = 2 * Z.of_nat n * mt - Z.of_nat n * (Z.of_nat n - 1).
Proof.
  induction n as [|n IH]; intros Hn; [done|].
  rewrite seqZ_S, bind_app, length_app.
  rewrite Nat2Z.inj_add, Z.mul_add_distr_l, IH by lia.
  simpl. rewrite app_nil_r. simpl. rewrite length_fmap, length_seqZ.
  lia.
Qed.

Lemma filler_length (rows0 : list Z) (arr : list operation) :
  length
    (fold_left
       (λ ops i, plasma_rh_tree_operation_insert ops i no_kernel (-1) (-1) (-1))
       rows0 arr)
  = length arr.
Proof.
  revert arr. induction rows0 as [|i rows0 IH]; intros arr; [done|].
  simpl. rewrite IH. unfold plasma_rh_tree_operation_insert.
  by rewrite length_insert.
Qed.

Lemma imin_spec a b : imin a b = Z.min a b.
Proof. unfold imin. case_match eqn:Hlt; lia. Qed.

Section Flat.
Variables (mt nt : Z).
Hypothesis mt_nonneg : 0 ≤ mt.
Hypothesis nt_nonneg : 0 ≤ nt.

Lemma flat_count :
  Z.of_nat (length (seqZ 0 (imin mt nt) ≫= flat_column mt)) = flat_nops mt nt
  ∧ 2 * flat_nops mt nt
    = 2 * imin mt nt * mt - imin mt nt * (imin mt nt - 1).
Proof.
  set (minnt := imin mt nt).
  assert (0 ≤ minnt ≤ mt) as Hmin.
  { subst minnt. rewrite imin_spec. lia. }
  pose proof (flat_length mt (Z.to_nat minnt)) as Hlen.
  rewrite Z2Nat.id in Hlen by lia. specialize (Hlen ltac:(lia)).
  unfold flat_nops. fold minnt. pose proof (triangle_even minnt).
  unfold flat_column. lia.
Qed.

(** The flat tree fills the whole array. *)
Lemma flat_run (block : list operation) :
  length block = Z.to_nat (flat_nops mt nt) →
  plasma_rh_tree_flat mt nt block
  = tree.mk (seqZ 0 (imin mt nt) ≫= flat_column mt) (flat_nops mt nt) false.
Proof.
  intros Hblock. destruct flat_count as [Hos _].
  unfold plasma_rh_tree_flat. simpl.
  fold (flat_nops mt nt). rewrite flat_fold.
  change (seqZ 0 (imin mt nt) ≫= _)
    with (seqZ 0 (imin mt nt) ≫= flat_column mt).
  set (os := seqZ 0 (imin mt nt) ≫= flat_column mt) in *.
  rewrite insert_all_count. simpl. rewrite Hos. f_equal.
  - rewrite insert_all_rows; [|done|].
    2:{ rewrite filler_length. simpl. lia. }
    simpl. rewrite drop_ge, app_nil_r; [done|].
    rewrite filler_length. lia.
  - apply bool_decide_eq_false_2. tauto.
Qed.

(** X8.  [plasma_rh_tree_operations] (the flat tree) on a grid of [mt] by
    [nt] tiles, with the array of [nops] rows it allocates.  The array it
    leaves is, column after column for [k < min(mt,nt)], the
    triangularization of the diagonal tile [(k,k)] by the GE kernel
    followed by the annihilation of the rows [k+1 .. mt-1] by the TS
    kernel against row [k], and nothing else: no row written by the
    initialisation loop and no row of the allocated block is left.  The
    count handed back is the [nops] computed beforehand, so the message
    is not printed, and twice the count is
    [2*minnt*mt - minnt*(minnt-1)]. *)
Theorem flat_tree_operations (block : list operation) :
  length block = Z.to_nat (flat_nops mt nt) →
  let r := plasma_rh_tree_operations mt nt block in
  tree.operations r = seqZ 0 (imin mt nt) ≫= flat_column mt
  ∧ tree.noperations r = flat_nops mt nt
  ∧ tree.message r = false
  ∧ 2 * tree.noperations r
    = 2 * imin mt nt * mt - imin mt nt * (imin mt nt - 1).
Proof.
  intros Hblock r. subst r. unfold plasma_rh_tree_operations.
  rewrite flat_run by done. simpl.
  split; [done|]. split; [done|]. split; [done|]. apply flat_count.
Qed.
End Flat.

Lemma flat_tree_operations_witness :
  let r := plasma_rh_tree_operations 3 2 (stale_block 5) in
  tree.operations r = seqZ 0 (imin 3 2) ≫= flat_column 3
  ∧ tree.noperations r = flat_nops 3 2
  ∧ tree.message r = false
  ∧ 2 * tree.noperations r = 2 * imin 3 2 * 3 - imin 3 2 * (imin 3 2 - 1).
Proof.
  apply (flat_tree_operations 3 2 ltac:(lia) ltac:(lia) (stale_block 5)).
  reflexivity.
Defined.

(** ** PLASMA-Tree *)

Lemma elem_of_strided lo hi step x :
  0 < step →
  x ∈ strided lo hi step ↔ ∃ i, 0 ≤ i ∧ x = lo + i * step ∧ x < hi.
Proof.
  intros Hstep. unfold strided. rewrite list_elem_of_fmap. split.
  - intros (i & -> & Hi%elem_of_seqZ). exists i. split; [lia|]. split; [done|].
    assert (i + 1 ≤ (hi - lo + step - 1) `div` step) as Hle by lia.
    pose proof (Z.mul_div_le (hi - lo + step - 1) step Hstep). nia.
  - intros (i & Hi & -> & Hlt). exists i. split; [done|].
    apply elem_of_seqZ. split; [lia|].
    assert (i + 1 ≤ (hi - lo + step - 1) `div` step); [|lia].
    apply Z.div_le_lower_bound; [done|]. nia.
Qed.

Lemma NoDup_strided lo hi step : 0 < step → NoDup (strided lo hi step).
Proof.
  intros Hstep. unfold strided. apply NoDup_fmap_2; [|apply NoDup_seqZ].
  intros i j Heq. nia.
Qed.

Lemma length_strided lo hi step :
  0 < step → lo ≤ hi →
  Z.of_nat (length (strided lo hi step)) = (hi - lo + step - 1) `div` step.
Proof.
  intros Hstep Hlo. unfold strided. rewrite length_fmap, length_seqZ.
  rewrite Z2Nat.id; [done|]. apply Z.div_pos; lia.
Qed.

Lemma plasmatree_blocks_fold mt k st :
  fold_left
    (λ st M,
       fold_left (λ st m, insert_next st PlasmaTSKernel k m M)
         (seqZ (M + 1) (imin (M + BS) mt - (M + 1)))
         (insert_next st PlasmaGEKernel k M (-1)))
    (strided k mt BS) st
  = insert_all st (plasmatree_blocks mt k).
Proof.
  unfold insert_all, plasmatree_blocks. rewrite fold_left_bind.
  apply fold_left_ext_in. intros acc M _. simpl.
  by rewrite fold_left_fmap.
Qed.

(** With one unit of fuel per tile row the rounds run to the end. *)
Lemma plasmatree_rounds_list fuel mt k rd st :
  1 ≤ rd → (Z.to_nat (mt - k - rd) ≤ fuel)%nat →
  plasmatree_rounds fuel mt k rd st
  = Some (insert_all st (plasmatree_merges fuel mt k rd)).
Proof.
  revert rd st. induction fuel as [|fuel IH]; intros rd st Hrd Hfuel; simpl.
  { case_decide; [lia|done]. }
  case_decide; [|done].
  rewrite IH by lia. f_equal. rewrite insert_all_app. f_equal.
  unfold insert_all. by rewrite fold_left_fmap.
Qed.

Lemma plasmatree_merges_fuel fuel fuel' mt k rd :
  1 ≤ rd → (Z.to_nat (mt - k - rd) ≤ fuel)%nat →
  (Z.to_nat (mt - k - rd) ≤ fuel')%nat →
  plasmatree_merges fuel mt k rd = plasmatree_merges fuel' mt k rd.
Proof.
  revert fuel' rd. induction fuel as [|fuel IH]; intros fuel' rd Hrd H1 H2.
  - destruct fuel'; simpl; case_decide; done || lia.
  - destruct fuel'; simpl; case_decide; try (done || lia).
    f_equal. apply IH; lia.
Qed.

(** The rounds from stride [rd] on annihilate the rows whose distance to
    the diagonal is a multiple of [rd]. *)
Lemma plasmatree_merges_rows fuel mt k rd m :
  1 ≤ rd → (Z.to_nat (mt - k - rd) ≤ fuel)%nat →
  m ∈ op.row <$> plasmatree_merges fuel mt k rd
  ↔ k < m < mt ∧ (m - k) `mod` rd = 0.
Proof.
  revert rd. induction fuel as [|fuel IH]; intros rd Hrd Hfuel; simpl.
  { rewrite decide_False by lia. split; [by intros ?%elem_of_nil|].
    intros [Hm Hmod]. rewrite Z.mod_small in Hmod by lia. lia. }
  case_decide as Hlt.
  2:{ split; [by intros ?%elem_of_nil|].
      intros [Hm Hmod]. rewrite Z.mod_small in Hmod by lia. lia. }
  rewrite fmap_app, elem_of_app, IH by lia.
  rewrite <- list_fmap_compose, list_elem_of_fmap. split.
  - intros [(M & -> & HM)|[Hm Hmod]].
    + apply elem_of_strided in HM as (i & Hi & -> & Hlt'); [|lia]. simpl.
      split; [nia|].
      replace (k + i * (2 * rd) + rd - k) with ((2 * i + 1) * rd) by lia.
      apply Z.mod_mul. lia.
    + split; [done|].
      apply Z.mod_divide in Hmod as [q Hq]; [|lia].
      rewrite Hq. replace (q * (rd * 2)) with (q * 2 * rd) by lia.
      apply Z.mod_mul. lia.
  - intros [Hm Hmod].
    apply Z.mod_divide in Hmod as [q Hq]; [|lia].
    destruct (Z.Even_or_Odd q) as [[h ->]|[h ->]].
    + right. split; [done|]. rewrite Hq.
      replace (2 * h * rd) with (h * (rd * 2)) by lia.
      apply Z.mod_mul. lia.
    + left. exists (k + h * (2 * rd)). simpl. split; [lia|].
      apply elem_of_strided; [lia|]. exists h. split; [nia|]. split; [done|].
      lia.
Qed.

Lemma plasmatree_merges_NoDup fuel mt k rd :
  1 ≤ rd → (Z.to_nat (mt - k - rd) ≤ fuel)%nat →
  NoDup (op.row <$> plasmatree_merges fuel mt k rd).
Proof.
  revert rd. induction fuel as [|fuel IH]; intros rd Hrd Hfuel; simpl.
  { case_decide; constructor. }
  case_decide as Hlt; [|constructor].
  rewrite fmap_app. apply NoDup_app. split; [|split].
  - rewrite <- list_fmap_compose. apply NoDup_fmap_2.
    + intros M M' Heq. simpl in Heq. lia.
    + apply NoDup_strided. lia.
  - intros m Hm Hm'. apply plasmatree_merges_rows in Hm' as [_ Hmod]; [|lia..].
    rewrite <- list_fmap_compose in Hm.
    apply list_elem_of_fmap in Hm as (M & -> & HM).
    apply elem_of_strided in HM as (i & Hi & -> & _); [|lia]. simpl in Hmod.
    replace (k + i * (2 * rd) + rd - k) with (rd + i * (rd * 2)) in Hmod
      by lia.
    rewrite Z.mod_add, Z.mod_small in Hmod by lia. lia.
  - apply IH; lia.
Qed.

Lemma plasmatree_merges_kernel fuel mt k rd o :
  o ∈ plasmatree_merges fuel mt k rd →
  op.col o = k ∧ op.kernel o = PlasmaTTKernel.
Proof.
  revert rd. induction fuel as [|fuel IH]; intros rd; simpl.
  { case_decide; by intros ?%elem_of_nil. }
  case_decide; [|by intros ?%elem_of_nil].
  intros [Ho|Ho]%elem_of_app; [|by eapply IH].
  by apply list_elem_of_fmap in Ho as (M & -> & _).
Qed.

Lemma filter_all {X} (P : X → Prop) `{∀ x, Decision (P x)} (l : list X) :
  Forall P l → filter P l = l.
Proof.
  induction 1 as [|x l Hx _ IH]; [done|].
  by rewrite filter_cons_True, IH.
Qed.

Lemma annihilated_app ops1 ops2 k :
  annihilated (ops1 ++ ops2) k = annihilated ops1 k ++ annihilated ops2 k.
Proof. unfold annihilated. by rewrite filter_app, fmap_app. Qed.

Lemma triangularized_app ops1 ops2 k :
  triangularized (ops1 ++ ops2) k
  = triangularized ops1 k ++ triangularized ops2 k.
Proof. unfold triangularized. by rewrite filter_app, fmap_app. Qed.

Lemma annihilated_other ops k :
  Forall (λ o, op.col o ≠ k) ops → annihilated ops k = [].
Proof.
  intros Hops. unfold annihilated. rewrite filter_none; [done|].
  rewrite Forall_forall in Hops. intros o Ho [Hc _]. by apply (Hops o).
Qed.

Lemma triangularized_other ops k :
  Forall (λ o, op.col o ≠ k) ops → triangularized ops k = [].
Proof.
  intros Hops. unfold triangularized. rewrite filter_none; [done|].
  rewrite Forall_forall in Hops. intros o Ho [Hc _]. by apply (Hops o).
Qed.

(** The part of a column-by-column list that belongs to one column. *)
Lemma annihilated_columns (column : Z → list operation) (n k : Z) :
  (∀ k', Forall (λ o, op.col o = k') (column k')) →
  0 ≤ k < n →
  annihilated (seqZ 0 n ≫= column) k = annihilated (column k) k
  ∧ triangularized (seqZ 0 n ≫= column) k = triangularized (column k) k.
Proof.
  intros Hcol Hk.
  replace n with (k + (1 + (n - k - 1))) by lia.
  rewrite seqZ_app, (seqZ_app _ 1) by lia.
  rewrite !bind_app, !annihilated_app, !triangularized_app.
  assert (∀ lo len, k < lo ∨ lo + len ≤ k →
            Forall (λ o, op.col o ≠ k) (seqZ lo len ≫= column)) as Hoff.
  { intros lo len Hlo. apply Forall_bind, Forall_forall.
    intros k' Hk'%elem_of_seqZ. simpl.
    eapply Forall_impl; [apply Hcol|]. simpl. intros o ->. lia. }
  rewrite (annihilated_other (seqZ 0 k ≫= _)),
    (annihilated_other (seqZ (0 + k + 1) _ ≫= _)),
    (triangularized_other (seqZ 0 k ≫= _)),
    (triangularized_other (seqZ (0 + k + 1) _ ≫= _))
    by (apply Hoff; lia).
  rewrite (seqZ_cons _ 1), seqZ_nil by lia.
  rewrite !bind_cons. change ([] ≫= column) with (@nil operation).
  rewrite !app_nil_r. simpl.
  by replace (0 + k) with k by lia.
Qed.

Lemma column_length ops k :
  Forall (λ o, op.col o = k) ops →
  length ops = (length (triangularized ops k) + length (annihilated ops k))%nat.
Proof.
  intros Hops. unfold triangularized, annihilated. rewrite !length_fmap.
  induction Hops as [|o ops Ho _ IH]; [done|].
  rewrite !filter_cons. simpl.
  destruct (decide (op.kernel o = PlasmaGEKernel)) as [Hk|Hk].
  - rewrite decide_True, decide_False by tauto. simpl. lia.
  - rewrite decide_False, decide_True by tauto. simpl. lia.
Qed.

Lemma plasmatree_blocks_rows mt k :
  triangularized (plasmatree_blocks mt k) k = strided k mt BS
  ∧ annihilated (plasmatree_blocks mt k) k
    = (M ← strided k mt BS; seqZ (M + 1) (imin (M + BS) mt - (M + 1)))
  ∧ Forall (λ o, op.col o = k) (plasmatree_blocks mt k).
Proof.
  unfold plasmatree_blocks.
  induction (strided k mt BS) as [|M Ms (IH1 & IH2 & IH3)]; [done|].
  rewrite !bind_cons. fold (app (A := operation)).
  change (?x :: ?l ++ ?r) with ((x :: l) ++ r).
  rewrite triangularized_app, annihilated_app, IH1, IH2.
  split; [|split].
  - f_equal. unfold triangularized. rewrite filter_cons_True by done.
    simpl. rewrite filter_none; [done|].
    intros o (m & -> & _)%list_elem_of_fmap [_ ?]. done.
  - f_equal. unfold annihilated. rewrite filter_cons_False by (simpl; tauto).
    rewrite filter_all.
    + rewrite <- list_fmap_compose. apply list_fmap_id.
    + apply Forall_fmap, Forall_forall. intros m _. simpl. done.
  - apply Forall_app. split; [|done]. constructor; [done|].
    apply Forall_fmap, Forall_forall. intros m _. done.
Qed.

Lemma plasmatree_blocks_annihilated mt k m :
  m ∈ annihilated (plasmatree_blocks mt k) k
  ↔ k < m < mt ∧ (m - k) `mod` BS ≠ 0.
Proof.
  destruct (plasmatree_blocks_rows mt k) as (_ & -> & _).
  rewrite list_elem_of_bind. unfold BS. split.
  - intros (M & Hm%elem_of_seqZ & HM). rewrite imin_spec in Hm.
    apply elem_of_strided in HM as (i & Hi & -> & Hlt); [|lia].
    split; [lia|].
    replace (m - k) with ((m - (k + i * 4)) + i * 4) by lia.
    rewrite Z.mod_add, Z.mod_small by lia. lia.
  - intros [Hm Hmod].
    exists (k + (m - k) `div` 4 * 4).
    pose proof (Z.div_mod (m - k) 4 ltac:(lia)) as Hdm.
    pose proof (Z.mod_pos_bound (m - k) 4 ltac:(lia)) as Hb.
    split; [apply elem_of_seqZ; rewrite imin_spec; lia|].
    apply elem_of_strided; [lia|]. exists ((m - k) `div` 4).
    split; [apply Z.div_pos; lia|]. split; [done|]. lia.
Qed.

Lemma plasmatree_blocks_NoDup mt k :
  NoDup (annihilated (plasmatree_blocks mt k) k).
Proof.
  destruct (plasmatree_blocks_rows mt k) as (_ & -> & _).
  apply NoDup_bind.
  - intros M M' m HM HM' Hm%elem_of_seqZ Hm'%elem_of_seqZ.
    apply elem_of_strided in HM as (i & Hi & -> & _); [|done].
    apply elem_of_strided in HM' as (i' & Hi' & -> & _); [|done].
    rewrite imin_spec in Hm, Hm'. unfold BS in *. lia.
  - intros M _. apply NoDup_seqZ.
  - by apply NoDup_strided.
Qed.

Lemma plasmatree_column_list fuel mt st k :
  0 ≤ k → (Z.to_nat mt ≤ fuel)%nat →
  plasmatree_column fuel mt st k
  = Some (insert_all st (plasmatree_column_ops fuel mt k)).
Proof.
  intros Hk Hfuel. unfold plasmatree_column, plasmatree_column_ops.
  rewrite plasmatree_blocks_fold, plasmatree_rounds_list
    by (unfold BS; lia).
  by rewrite insert_all_app.
Qed.

Lemma plasmatree_columns_list fuel mt (ks : list Z) st :
  Forall (λ k, 0 ≤ k) ks → (Z.to_nat mt ≤ fuel)%nat →
  fold_left (λ st k, st ← st; plasmatree_column fuel mt st k) ks (Some st)
  = Some (insert_all st (ks ≫= plasmatree_column_ops fuel mt)).
Proof.
  intros Hks Hfuel. revert st.
  induction Hks as [|k ks Hk _ IH]; intros st; [done|].
  rewrite bind_cons, insert_all_app. simpl.
  rewrite plasmatree_column_list by done. by rewrite IH.
Qed.

Lemma plasmatree_column_col fuel mt k :
  Forall (λ o, op.col o = k) (plasmatree_column_ops fuel mt k).
Proof.
  apply Forall_app. split; [apply plasmatree_blocks_rows|].
  apply Forall_forall. intros o Ho.
  by apply plasmatree_merges_kernel in Ho as [? _].
Qed.

Lemma plasmatree_merges_annihilated fuel mt k rd :
  annihilated (plasmatree_merges fuel mt k rd) k
  = op.row <$> plasmatree_merges fuel mt k rd
  ∧ triangularized (plasmatree_merges fuel mt k rd) k = [].
Proof.
  unfold annihilated, triangularized. split.
  - rewrite filter_all; [done|]. apply Forall_forall. intros o Ho.
    apply plasmatree_merges_kernel in Ho as [-> ->]. done.
  - rewrite filter_none; [done|]. intros o Ho [_ Hk].
    apply plasmatree_merges_kernel in Ho as [_ Ho]. congruence.
Qed.

(** In column [k] every tile below the diagonal is annihilated once. *)
Lemma plasmatree_column_rows fuel mt k :
  0 ≤ k → (Z.to_nat mt ≤ fuel)%nat →
  annihilated (plasmatree_column_ops fuel mt k) k
    ≡ₚ seqZ (k + 1) (mt - (k + 1))
  ∧ triangularized (plasmatree_column_ops fuel mt k) k = strided k mt BS.
Proof.
  intros Hk Hfuel. unfold plasmatree_column_ops.
  rewrite annihilated_app, triangularized_app.
  destruct (plasmatree_merges_annihilated fuel mt k BS) as [-> ->].
  destruct (plasmatree_blocks_rows mt k) as (Htri & _ & _).
  rewrite Htri, app_nil_r. split; [|done].
  assert (1 ≤ BS ∧ (Z.to_nat (mt - k - BS) ≤ fuel)%nat) as [H1 H2]
    by (unfold BS; lia).
  apply NoDup_Permutation.
  - apply NoDup_app. split; [apply plasmatree_blocks_NoDup|].
    split; [|by apply plasmatree_merges_NoDup].
    intros m Hm%plasmatree_blocks_annihilated Hm'.
    apply plasmatree_merges_rows in Hm'; [|done..]. lia.
  - apply NoDup_seqZ.
  - intros m. rewrite elem_of_app, plasmatree_blocks_annihilated,
      plasmatree_merges_rows, elem_of_seqZ by done.
    destruct (decide ((m - k) `mod` BS = 0)); lia.
Qed.

Lemma plasmatree_count fuel mt (n : nat) :
  0 ≤ mt → (Z.to_nat mt ≤ fuel)%nat → Z.of_nat n ≤ mt →
  2 * Z.of_nat (length (seqZ 0 (Z.of_nat n) ≫= plasmatree_column_ops fuel mt))
  ≤ 2 * (mt `quot` BS + 1) * Z.of_nat n
    + 2 * mt * Z.of_nat n - (Z.of_nat n + 1) * Z.of_nat n.
Proof.
  intros Hmt Hfuel. induction n as [|n IH]; intros Hn.
  { rewrite seqZ_nil by lia. simpl. lia. }
  rewrite seqZ_S, bind_app, length_app, Nat2Z.inj_add. simpl.
  rewrite app_nil_r. replace (0 + Z.of_nat n) with (Z.of_nat n) by lia.
  rewrite (column_length (plasmatree_column_ops _ _ _) (Z.of_nat n))
    by apply plasmatree_column_col.
  destruct (plasmatree_column_rows fuel mt (Z.of_nat n)) as [Hann ->];
    [lia|done|].
  rewrite Hann, length_seqZ, Nat2Z.inj_add, length_strided by (unfold BS; lia).
  rewrite Z.quot_div_nonneg by (unfold BS; lia). unfold BS.
  assert ((mt - Z.of_nat n + 4 - 1) `div` 4 ≤ mt `div` 4 + 1).
  { replace (mt `div` 4 + 1) with ((mt + 1 * 4) `div` 4)
      by (rewrite Z.div_add; lia).
    apply Z.div_le_mono; lia. }
  rewrite Z.quot_div_nonneg in IH by (unfold BS; lia). unfold BS in IH.
  lia.
Qed.

Lemma plasmatree_merges_pivots fuel mt k rd o :
  1 ≤ rd → rd `mod` BS = 0 →
  o ∈ plasmatree_merges fuel mt k rd →
  op.rowpiv o ∈ strided k mt BS ∧ op.rowpiv o < op.row o.
Proof.
  revert rd. induction fuel as [|fuel IH]; intros rd Hrd Hmod; simpl.
  { case_decide; by intros ?%elem_of_nil. }
  case_decide; [|by intros ?%elem_of_nil].
  intros [Ho|Ho]%elem_of_app.
  - apply list_elem_of_fmap in Ho as (M & -> & HM). simpl.
    apply elem_of_strided in HM as (i & Hi & -> & Hlt); [|lia].
    split; [|lia]. apply elem_of_strided; [done|].
    apply Z.mod_divide in Hmod as [q Hq]; [|done].
    unfold BS in Hq. assert (1 ≤ q) by lia.
    exists (i * 2 * q). split; [nia|]. split; [unfold BS; nia|lia].
  - apply (IH (rd * 2)); [lia| |done].
    rewrite Z.mul_comm. rewrite <- Z.mul_mod_idemp_r, Hmod by done. done.
Qed.

Lemma plasmatree_blocks_pivots mt k o :
  o ∈ plasmatree_blocks mt k → op.kernel o ≠ PlasmaGEKernel →
  op.rowpiv o ∈ strided k mt BS ∧ op.rowpiv o < op.row o.
Proof.
  unfold plasmatree_blocks. intros (M & Ho & HM)%list_elem_of_bind Hk.
  apply elem_of_cons in Ho as [->|Ho]; [done|].
  apply list_elem_of_fmap in Ho as (m & -> & Hm%elem_of_seqZ). simpl.
  split; [done|lia].
Qed.

Section PlasmaTree.
Variables (fuel : nat) (mt nt : Z).
Hypothesis mt_nonneg : 0 ≤ mt.
Hypothesis nt_nonneg : 0 ≤ nt.
Hypothesis enough_fuel : (Z.to_nat mt ≤ fuel)%nat.

Lemma plasmatree_run (block : list operation) :
  plasma_rh_tree_plasmatree fuel mt nt block
  = let ops := seqZ 0 (imin mt nt) ≫= plasmatree_column_ops fuel mt in
    Some (tree.mk (insert_all (block, 0) ops).1 (Z.of_nat (length ops))
            (bool_decide (Z.of_nat (length ops) > plasmatree_nops mt nt))).
Proof.
  unfold plasma_rh_tree_plasmatree. fold (plasmatree_nops mt nt).
  rewrite plasmatree_columns_list; [|apply Forall_seqZ; lia|done].
  simpl. by rewrite insert_all_count.
Qed.

(** The operations inserted are never more than the rows allocated. *)
Lemma plasmatree_length_bound :
  Z.of_nat (length (seqZ 0 (imin mt nt) ≫= plasmatree_column_ops fuel mt))
  ≤ plasmatree_nops mt nt.
Proof.
  assert (0 ≤ imin mt nt ≤ mt) as Hmin by (rewrite imin_spec; lia).
  pose proof (plasmatree_count fuel mt (Z.to_nat (imin mt nt))) as Hc.
  rewrite Z2Nat.id in Hc by lia.
  specialize (Hc mt_nonneg enough_fuel ltac:(lia)).
  pose proof (triangle_even (imin mt nt)) as Hev.
  unfold plasmatree_nops. lia.
Qed.

(** X9.  [plasma_rh_tree_plasmatree] on a grid of [mt] by [nt] tiles
    returns: the loop [for (rd = BS; rd < mt-k; rd *= 2)] ends in every
    column within [mt] rounds.  The number of operations it hands back
    is at most the bound [nops = (mt/BS+1)*minnt + mt*minnt
    - (minnt+1)*minnt/2] it allocates for, so no operation is stored
    past the end of the array and the message is not printed. *)
Theorem plasmatree_within_bound (block : list operation) :
  ∃ r, plasma_rh_tree_plasmatree fuel mt nt block = Some r
    ∧ 0 ≤ tree.noperations r ≤ plasmatree_nops mt nt
    ∧ tree.message r = false.
Proof.
  rewrite plasmatree_run. eexists. split; [done|]. simpl.
  pose proof plasmatree_length_bound as Hle.
  split; [lia|]. apply bool_decide_eq_false_2. lia.
Qed.

(** X10.  PLASMA-Tree, in every column [k < min(mt,nt)] of the operations
    it hands back.  The rows annihilated by a TS or a TT kernel are the
    rows [k+1 .. mt-1], each of them once.  The rows triangularized by
    the GE kernel are the heads [k, k+BS, k+2*BS, ...] of the blocks, in
    this order.  Every annihilation has for its pivot one of these
    heads, and the pivot lies above the annihilated row. *)
Theorem plasmatree_annihilates_once (block : list operation) (k : Z) :
  length block = Z.to_nat (plasmatree_nops mt nt) →
  0 ≤ k < imin mt nt →
  ∃ r, plasma_rh_tree_plasmatree fuel mt nt block = Some r
    ∧ let ops := take (Z.to_nat (tree.noperations r)) (tree.operations r) in
      annihilated ops k ≡ₚ seqZ (k + 1) (mt - (k + 1))
      ∧ triangularized ops k = strided k mt BS
      ∧ ∀ o, o ∈ ops → op.col o = k → op.kernel o ≠ PlasmaGEKernel →
          op.rowpiv o ∈ triangularized ops k ∧ op.rowpiv o < op.row o.
Proof.
  intros Hblock Hk.
  rewrite plasmatree_run. eexists. split; [done|].
  pose proof plasmatree_length_bound as Hn. simpl.
  rewrite Nat2Z.id.
  rewrite insert_all_rows; [|done|simpl; lia].
  simpl. rewrite take_app_length.
  destruct (annihilated_columns (plasmatree_column_ops fuel mt)
              (imin mt nt) k) as [-> ->].
  { apply plasmatree_column_col. }
  { done. }
  destruct (plasmatree_column_rows fuel mt k) as [Hann Htri]; [lia|done|].
  split; [done|]. split; [done|].
  intros o (k' & Ho & Hk')%list_elem_of_bind Hcol Hker.
  pose proof (plasmatree_column_col fuel mt k') as Hall.
  rewrite Forall_forall in Hall. rewrite (Hall o Ho) in Hcol. subst k'.
  rewrite Htri. apply elem_of_app in Ho as [Ho|Ho].
  - by apply plasmatree_blocks_pivots.
  - by apply plasmatree_merges_pivots in Ho.
Qed.
End PlasmaTree.

Lemma plasmatree_within_bound_witness :
  ∃ r, plasma_rh_tree_plasmatree 9 9 3 (stale_block 30) = Some r
    ∧ 0 ≤ tree.noperations r ≤ plasmatree_nops 9 3
    ∧ tree.message r = false.
Proof.
  apply (plasmatree_within_bound 9 9 3 ltac:(lia) ltac:(lia) ltac:(lia)
           (stale_block 30)).
Defined.

Lemma plasmatree_annihilates_once_witness :
  ∃ r, plasma_rh_tree_plasmatree 9 9 3 (stale_block 30) = Some r
    ∧ let ops := take (Z.to_nat (tree.noperations r)) (tree.operations r) in
      annihilated ops 1 ≡ₚ seqZ (1 + 1) (9 - (1 + 1))
      ∧ triangularized ops 1 = strided 1 9 BS
      ∧ ∀ o, o ∈ ops → op.col o = 1 → op.kernel o ≠ PlasmaGEKernel →
          op.rowpiv o ∈ triangularized ops 1 ∧ op.rowpiv o < op.row o.
Proof.
  apply (plasmatree_annihilates_once 9 9 3 ltac:(lia) ltac:(lia) ltac:(lia)
           (stale_block 30) 1);
    [reflexivity|vm_compute; split; [discriminate|reflexivity]].
Defined.

(** ** The greedy tree *)

Lemma downto_fmap lo hi :
  downto lo hi = (λ k, hi - k - 1) <$> seqZ 0 (hi - lo).
Proof.
  unfold downto. destruct (decide (0 ≤ hi - lo)) as [Hle|Hlt].
  2:{ by rewrite !seqZ_nil by lia. }
  rewrite <- (Z2Nat.id (hi - lo)) by done.
  assert (hi = lo + Z.of_nat (Z.to_nat (hi - lo))) as Hhi by lia.
  revert Hhi. generalize (Z.to_nat (hi - lo)) as n. clear Hle.
  intros n. revert hi. induction n as [|n IH]; intros hi Hhi; [done|].
  rewrite seqZ_S, reverse_snoc.
  rewrite (seqZ_cons 0) by lia. rewrite fmap_cons.
  f_equal; [lia|].
  rewrite (IH (hi - 1)) by lia.
  replace (Z.pred (Z.of_nat (S n))) with (Z.of_nat n) by lia.
  rewrite <- (fmap_add_seqZ 1 0). rewrite <- list_fmap_compose.
  apply list_fmap_ext. intros i k _. simpl. lia.
Qed.

Lemma half_bounds (d : Z) :
  0 ≤ d → 0 ≤ d `quot` 2 ∧ 2 * (d `quot` 2) ≤ d ∧ d ≤ 2 * (d `quot` 2) + 1.
Proof.
  intros Hd. rewrite Z.quot_div_nonneg by lia.
  pose proof (Z.div_mod d 2 ltac:(lia)).
  pose proof (Z.mod_pos_bound d 2 ltac:(lia)). lia.
Qed.

Lemma Zsum_cons x l : Zsum (x :: l) = x + Zsum l.
Proof. done. Qed.

Lemma Zsum_app l1 l2 : Zsum (l1 ++ l2) = Zsum l1 + Zsum l2.
Proof.
  induction l1 as [|x l1 IH]; [done|].
  rewrite <- app_comm_cons, !Zsum_cons. lia.
Qed.

Lemma Zsum_le (f g : Z → Z) (l : list Z) :
  (∀ j, j ∈ l → f j ≤ g j) → Zsum (f <$> l) ≤ Zsum (g <$> l).
Proof.
  induction l as [|x l IH]; intros Hfg; [done|].
  rewrite !fmap_cons, !Zsum_cons.
  pose proof (Hfg x ltac:(left)).
  specialize (IH ltac:(intros j Hj; apply Hfg; by right)). lia.
Qed.

Lemma Zsum_lt (f g : Z → Z) (l : list Z) j0 :
  (∀ j, j ∈ l → f j ≤ g j) → j0 ∈ l → f j0 < g j0 →
  Zsum (f <$> l) < Zsum (g <$> l).
Proof.
  induction l as [|x l IH]; intros Hfg Hj0 Hlt.
  { by apply elem_of_nil in Hj0. }
  rewrite !fmap_cons, !Zsum_cons.
  pose proof (Hfg x ltac:(left)).
  assert (∀ j, j ∈ l → f j ≤ g j) as Hfg'
    by (intros j Hj; apply Hfg; by right).
  apply elem_of_cons in Hj0 as [->|Hj0].
  - pose proof (Zsum_le f g l Hfg'). lia.
  - specialize (IH Hfg' Hj0 Hlt). lia.
Qed.

Lemma Zsum_ext (f g : Z → Z) (l : list Z) :
  (∀ j, j ∈ l → f j = g j) → Zsum (f <$> l) = Zsum (g <$> l).
Proof.
  intros Hfg. f_equal. apply list_fmap_ext. intros i j Hj.
  apply Hfg. by eapply list_elem_of_lookup_2.
Qed.

(** Changing one term of a sum. *)
Lemma Zsum_update (f g : Z → Z) (n j0 : Z) :
  0 ≤ j0 < n → (∀ j, 0 ≤ j < n → j ≠ j0 → g j = f j) →
  Zsum (g <$> seqZ 0 n) = Zsum (f <$> seqZ 0 n) + (g j0 - f j0).
Proof.
  intros Hj0 Hfg.
  replace n with (j0 + (1 + (n - j0 - 1))) by lia.
  rewrite seqZ_app, (seqZ_app _ 1) by lia.
  rewrite !fmap_app, !Zsum_app.
  rewrite (Zsum_ext g f (seqZ 0 j0))
    by (intros j Hj%elem_of_seqZ; apply Hfg; lia).
  rewrite (Zsum_ext g f (seqZ (0 + j0 + 1) _))
    by (intros j Hj%elem_of_seqZ; apply Hfg; lia).
  rewrite !(seqZ_cons _ 1), !(seqZ_nil _ (Z.pred 1)) by lia.
  rewrite !fmap_cons, !Zsum_cons.
  replace (0 + j0) with j0 by lia. unfold Zsum. simpl. lia.
Qed.

Lemma counter_insert_eq (l : list Z) (j v : Z) :
  0 ≤ j → (Z.to_nat j < length l)%nat →
  counter (<[Z.to_nat j := v]> l) j = v.
Proof. intros ??. unfold counter. by apply list_lookup_total_insert_eq. Qed.

Lemma counter_insert_ne (l : list Z) (j j' v : Z) :
  0 ≤ j → 0 ≤ j' → j ≠ j' →
  counter (<[Z.to_nat j := v]> l) j' = counter l j'.
Proof.
  intros ???. unfold counter. apply list_lookup_total_insert_ne. lia.
Qed.

Lemma triangularize_rows mt j lo len j' :
  triangularized
    ((λ k, op.mk PlasmaGEKernel j (mt - k - 1) (-1)) <$> seqZ lo len) j'
  = (if decide (j' = j) then (λ k, mt - k - 1) <$> seqZ lo len else [])
  ∧ annihilated
      ((λ k, op.mk PlasmaGEKernel j (mt - k - 1) (-1)) <$> seqZ lo len) j'
    = [].
Proof.
  unfold triangularized, annihilated. split.
  - case_decide as Hj.
    + subst j'. rewrite filter_all.
      * by rewrite <- list_fmap_compose.
      * apply Forall_fmap, Forall_forall. intros k _. done.
    + rewrite filter_none; [done|].
      intros o (k & -> & _)%list_elem_of_fmap [? _]. simpl in *. congruence.
  - rewrite filter_none; [done|].
    intros o (k & -> & _)%list_elem_of_fmap [_ ?]. done.
Qed.

Lemma eliminate_rows mt j (piv : Z → Z) lo len j' :
  annihilated
    ((λ kk, op.mk PlasmaTTKernel j (mt - kk - 1) (piv kk)) <$> seqZ lo len) j'
  = (if decide (j' = j) then (λ k, mt - k - 1) <$> seqZ lo len else [])
  ∧ triangularized
      ((λ kk, op.mk PlasmaTTKernel j (mt - kk - 1) (piv kk)) <$> seqZ lo len)
      j'
    = [].
Proof.
  unfold triangularized, annihilated. split.
  - case_decide as Hj.
    + subst j'. rewrite filter_all.
      * by rewrite <- list_fmap_compose.
      * apply Forall_fmap, Forall_forall. intros k _. done.
    + rewrite filter_none; [done|].
      intros o (k & -> & _)%list_elem_of_fmap [? _]. simpl in *. congruence.
  - rewrite filter_none; [done|].
    intros o (k & -> & _)%list_elem_of_fmap [_ ?]. done.
Qed.

(** One visit of a column, as a list of insertions. *)
Lemma greedy_column_list mt st j :
  0 < mt →
  (j = 0 → counter (greedy.NT st) 0 = 0 ∨ counter (greedy.NT st) 0 = mt) →
  let NTj := counter (greedy.NT st) j in
  let NZj := counter (greedy.NZ st) j in
  let nTnew := if decide (j = 0) then mt
               else counter (greedy.NZ st) (j - 1) in
  let batch := (NTj - NZj) `quot` 2 in
  greedy_column mt st j
  = greedy.mk (<[Z.to_nat j := NZj + batch]> (greedy.NZ st))
      (<[Z.to_nat j := nTnew]> (greedy.NT st))
      (insert_all (greedy.out st)
         (greedy_triangularize mt j NTj nTnew
          ++ greedy_eliminate mt j NZj batch)).
Proof.
  intros Hmt H0. simpl. unfold greedy_column. fold (counter (greedy.NT st) j).
  fold (counter (greedy.NZ st) j).
  fold (counter (greedy.NZ st) (j - 1)).
  rewrite insert_all_app.
  replace (counter (greedy.NZ st) j
           + (counter (greedy.NT st) j - counter (greedy.NZ st) j) `quot` 2
           - counter (greedy.NZ st) j)
    with ((counter (greedy.NT st) j - counter (greedy.NZ st) j) `quot` 2)
    by lia.
  destruct (decide (j = 0)) as [->|Hj].
  - f_equal; [f_equal; lia|].
    unfold insert_all at 1, greedy_eliminate. rewrite fold_left_fmap.
    f_equal. unfold greedy_triangularize, insert_all.
    destruct (H0 eq_refl) as [HNT|HNT]; rewrite HNT.
    + rewrite decide_True by lia. rewrite downto_fmap, !fold_left_fmap.
      by rewrite !Z.sub_0_r.
    + rewrite decide_False by lia. by rewrite seqZ_nil by lia.
  - f_equal.
    unfold insert_all at 1, greedy_eliminate. rewrite fold_left_fmap.
    f_equal. unfold greedy_triangularize, insert_all.
    by rewrite fold_left_fmap.
Qed.

Lemma legal_nil : legal [].
Proof. intros pre o post Heq. by destruct pre. Qed.

(** Legality of a list extended at the end. *)
Lemma legal_app os os' :
  legal os →
  (∀ pre o post, os' = pre ++ o :: post → legal_next (os ++ pre) o) →
  legal (os ++ os').
Proof.
  intros Hos Hos' pre o post Heq.
  apply app_eq_app in Heq as [k [[-> Hk]|[-> Hk]]].
  - destruct k as [|o' k].
    + specialize (Hos' [] o post). rewrite !app_nil_r in Hos'.
      apply Hos'. by symmetry.
    + injection Hk as -> ->. by apply (Hos pre o' k).
  - by apply (Hos' k o post).
Qed.

Lemma fmap_seqZ_split {X} (f : Z → X) lo len (pre : list X) o post :
  f <$> seqZ lo len = pre ++ o :: post →
  ∃ x, lo ≤ x < lo + len ∧ pre = f <$> seqZ lo (x - lo) ∧ o = f x.
Proof.
  intros Heq. apply fmap_app_inv in Heq as (l1 & l2' & -> & Hc & Hseq).
  symmetry in Hc. apply fmap_cons_inv in Hc as (x & l2 & -> & _ & ->).
  apply seqZ_split in Hseq as [-> Hx]. by exists x.
Qed.

Lemma elem_of_bottom_rows mt x lo len :
  mt - x - 1 ∈ (λ k, mt - k - 1) <$> seqZ lo len ↔ lo ≤ x < lo + len.
Proof.
  rewrite list_elem_of_fmap. split.
  - intros (k & Heq & Hk%elem_of_seqZ). lia.
  - intros Hx. exists x. split; [done|]. by apply elem_of_seqZ.
Qed.

(** Triangularizing the tiles counted [NTj .. nTnew) of column [j], when
    the tiles counted below [NTj] are triangularized, those below [NZj]
    annihilated, and the left neighbours counted below [nTnew]
    annihilated. *)
Lemma legal_triangularize mt os j NZj NTj nTnew :
  legal os → 0 ≤ NZj ≤ NTj →
  triangularized os j = (λ k, mt - k - 1) <$> seqZ 0 NTj →
  annihilated os j = (λ k, mt - k - 1) <$> seqZ 0 NZj →
  (j = 0 ∨ ∃ NZp, nTnew ≤ NZp
             ∧ annihilated os (j - 1) = (λ k, mt - k - 1) <$> seqZ 0 NZp) →
  legal (os ++ greedy_triangularize mt j NTj nTnew).
Proof.
  intros Hos HNZ Htri Hann Hprev. apply legal_app; [done|].
  intros pre o post (x & Hx & -> & ->)%fmap_seqZ_split.
  unfold legal_next. simpl.
  rewrite !triangularized_app, !annihilated_app, Htri, Hann.
  destruct (triangularize_rows mt j NTj (x - NTj) j) as [-> ->].
  rewrite decide_True, app_nil_r, <- fmap_app, <- seqZ_app by lia.
  rewrite !elem_of_bottom_rows. split; [lia|]. split; [lia|].
  destruct Hprev as [->|(NZp & Hle & Hprev)]; [by left|right].
  rewrite Hprev.
  destruct (triangularize_rows mt j NTj (x - NTj) (j - 1)) as [_ ->].
  rewrite app_nil_r, elem_of_bottom_rows. lia.
Qed.

(** Annihilating [batch] tiles from the one counted [NZj], each with the
    tile [batch] places above it, when these are all triangularized. *)
Lemma legal_eliminate mt os j NZj NT batch :
  legal os → 0 ≤ NZj → 0 ≤ batch → NZj + 2 * batch ≤ NT →
  triangularized os j = (λ k, mt - k - 1) <$> seqZ 0 NT →
  annihilated os j = (λ k, mt - k - 1) <$> seqZ 0 NZj →
  legal (os ++ greedy_eliminate mt j NZj batch).
Proof.
  intros Hos HNZ Hbatch HNT Htri Hann. apply legal_app; [done|].
  intros pre o post (x & Hx & -> & ->)%fmap_seqZ_split.
  unfold legal_next. simpl.
  rewrite !triangularized_app, !annihilated_app, Htri, Hann.
  destruct (eliminate_rows mt j (λ kk, mt - kk - 1 - batch) NZj (x - NZj) j)
    as [-> ->].
  rewrite decide_True, app_nil_r, <- fmap_app, <- seqZ_app by lia.
  replace (mt - x - 1 - batch) with (mt - (x + batch) - 1) by lia.
  rewrite !elem_of_bottom_rows. lia.
Qed.

Section Greedy.
Variables (mt minnt : Z) (block : list operation).
Hypothesis minnt_pos : 1 ≤ minnt.
Hypothesis minnt_le : minnt ≤ mt.

(** A visit of a column keeps the invariant; it inserts as many
    operations as its two counters grow by. *)
Lemma greedy_column_inv st os j :
  0 ≤ j < minnt → greedy_inv mt minnt block st os →
  ∃ os', greedy_inv mt minnt block (greedy_column mt st j) (os ++ os').
Proof.
  intros Hj [HlZ HlT HNZ HNT0 HNT Hout Htri Hann Hcount Hlegal].
  rewrite greedy_column_list; [|lia|done].
  set (NTj := counter (greedy.NT st) j).
  set (NZj := counter (greedy.NZ st) j).
  set (nTnew := if decide (j = 0) then mt
                else counter (greedy.NZ st) (j - 1)).
  set (batch := (NTj - NZj) `quot` 2).
  destruct (HNZ j Hj) as [HZj HZj'].
  fold NTj NZj in HZj, HZj'.
  destruct (half_bounds (NTj - NZj) ltac:(lia)) as (Hb0 & Hb1 & Hb2).
  fold batch in Hb0, Hb1, Hb2.
  assert (NTj ≤ nTnew) as HTnew.
  { subst nTnew. case_decide as Hj0.
    - subst j. fold NTj in HNT0. lia.
    - apply HNT. lia. }
  exists (greedy_triangularize mt j NTj nTnew
          ++ greedy_eliminate mt j NZj batch).
  split; simpl.
  - by rewrite length_insert.
  - by rewrite length_insert.
  - intros j' Hj'. destruct (decide (j' = j)) as [->|Hne].
    + rewrite !counter_insert_eq by lia. lia.
    + rewrite !counter_insert_ne by lia. by apply HNZ.
  - destruct (decide (j = 0)) as [->|Hne].
    + rewrite counter_insert_eq by lia. subst nTnew. by right.
    + rewrite counter_insert_ne by lia. done.
  - intros j' Hj'. destruct (decide (j' = j)) as [->|Hne].
    + rewrite counter_insert_eq, counter_insert_ne by lia.
      subst nTnew. by rewrite decide_False by lia.
    + rewrite counter_insert_ne by lia.
      destruct (decide (j' - 1 = j)) as [Heq|Hne'].
      * rewrite Heq, counter_insert_eq by lia.
        specialize (HNT j' Hj'). rewrite Heq in HNT. fold NZj in HNT. lia.
      * rewrite counter_insert_ne by lia. by apply HNT.
  - by rewrite Hout, <- insert_all_app.
  - intros j' Hj'. rewrite !triangularized_app, Htri by done.
    unfold greedy_triangularize.
    destruct (triangularize_rows mt j NTj (nTnew - NTj) j') as [-> _].
    unfold greedy_eliminate.
    destruct (eliminate_rows mt j (λ kk, mt - kk - 1 - batch) NZj batch j')
      as [_ ->].
    rewrite app_nil_r. destruct (decide (j' = j)) as [->|Hne].
    + rewrite counter_insert_eq by lia. fold NTj.
      rewrite <- fmap_app. f_equal.
      replace nTnew with (NTj + (nTnew - NTj)) at 2 by lia.
      by rewrite seqZ_app by lia.
    + rewrite counter_insert_ne by lia. by rewrite app_nil_r.
  - intros j' Hj'. rewrite !annihilated_app, Hann by done.
    unfold greedy_triangularize.
    destruct (triangularize_rows mt j NTj (nTnew - NTj) j') as [_ ->].
    unfold greedy_eliminate.
    destruct (eliminate_rows mt j (λ kk, mt - kk - 1 - batch) NZj batch j')
      as [-> _].
    simpl. destruct (decide (j' = j)) as [->|Hne].
    + rewrite counter_insert_eq by lia. fold NZj.
      rewrite <- fmap_app. f_equal. by rewrite seqZ_app by lia.
    + rewrite counter_insert_ne by lia. by rewrite app_nil_r.
  - rewrite !length_app, !Nat2Z.inj_add, Hcount.
    unfold greedy_triangularize, greedy_eliminate.
    rewrite !length_fmap, !length_seqZ, !Z2Nat.id by lia.
    rewrite (Zsum_update
               (λ j, counter (greedy.NT st) j + counter (greedy.NZ st) j)
               (λ j', counter (<[Z.to_nat j:=nTnew]> (greedy.NT st)) j'
                      + counter (<[Z.to_nat j:=NZj + batch]> (greedy.NZ st)) j')
               minnt j Hj).
    + rewrite !counter_insert_eq by lia. fold NTj NZj. lia.
    + intros j' Hj' Hne. by rewrite !counter_insert_ne by lia.
  - rewrite app_assoc.
    apply (legal_eliminate mt _ j NZj nTnew batch); [|lia..| |].
    + apply (legal_triangularize mt os j NZj NTj nTnew);
        [done|lia|by apply Htri|by apply Hann|].
      destruct (decide (j = 0)) as [->|Hne]; [by left|right].
      exists (counter (greedy.NZ st) (j - 1)). split.
      * unfold nTnew. destruct (decide (j = 0)); [done|lia].
      * apply Hann. lia.
    + rewrite triangularized_app, Htri by done.
      unfold greedy_triangularize.
      destruct (triangularize_rows mt j NTj (nTnew - NTj) j) as [-> _].
      rewrite decide_True, <- fmap_app by done. f_equal.
      replace nTnew with (NTj + (nTnew - NTj)) at 2 by lia.
      by rewrite seqZ_app by lia.
    + rewrite annihilated_app, Hann by done.
      unfold greedy_triangularize.
      destruct (triangularize_rows mt j NTj (nTnew - NTj) j) as [_ ->].
      by rewrite app_nil_r.
Qed.

Lemma greedy_pass_inv (js : list Z) st os :
  Forall (λ j, 0 ≤ j < minnt) js → greedy_inv mt minnt block st os →
  ∃ os', greedy_inv mt minnt block (fold_left (greedy_column mt) js st)
           (os ++ os').
Proof.
  intros Hjs. revert st os.
  induction Hjs as [|j js Hj _ IH]; intros st os Hinv.
  { exists []. by rewrite app_nil_r. }
  destruct (greedy_column_inv st os j Hj Hinv) as (os1 & Hinv1).
  destruct (IH _ _ Hinv1) as (os2 & Hinv2).
  exists (os1 ++ os2). by rewrite app_assoc.
Qed.

Lemma downto_S (n : nat) :
  downto 0 (Z.of_nat (S n)) = Z.of_nat n :: downto 0 (Z.of_nat n).
Proof using Type.
  unfold downto. rewrite !Z.sub_0_r, seqZ_S, reverse_snoc. f_equal. 
Qed.

(** A pass over the columns reads, for every column, the counters as
    they were when the pass began. *)
Lemma greedy_pass_counters (n : nat) st os :
  Z.of_nat n ≤ minnt → greedy_inv mt minnt block st os →
  let st' := fold_left (greedy_column mt) (downto 0 (Z.of_nat n)) st in
  ∀ j, 0 ≤ j < minnt →
    counter (greedy.NT st') j
    = (if decide (j < Z.of_nat n)
       then (if decide (j = 0) then mt else counter (greedy.NZ st) (j - 1))
       else counter (greedy.NT st) j)
    ∧ counter (greedy.NZ st') j
      = (if decide (j < Z.of_nat n)
         then counter (greedy.NZ st) j
              + (counter (greedy.NT st) j - counter (greedy.NZ st) j) `quot` 2
         else counter (greedy.NZ st) j).
Proof.
  revert st os. induction n as [|n IH]; intros st os Hn Hinv; simpl.
  { intros j Hj. by rewrite !decide_False by lia. }
  intros j Hj. rewrite downto_S. simpl.
  assert (0 ≤ Z.of_nat n < minnt) as Hcol by lia.
  destruct (greedy_column_inv st os _ Hcol Hinv) as (os1 & Hinv1).
  destruct (IH _ _ ltac:(lia) Hinv1 j Hj) as [-> ->].
  destruct Hinv as [HlZ HlT HNZ HNT0 _ _ _ _ _ _].
  rewrite greedy_column_list; [|lia|done]. simpl.
  destruct (decide (j = Z.of_nat n)) as [->|Hne].
  - rewrite !counter_insert_eq by lia.
    repeat case_decide; try lia; done.
  - rewrite !(counter_insert_ne _ _ j) by lia.
    repeat case_decide; try lia; try done.
    all: by rewrite counter_insert_ne by lia.
Qed.

(** No column can triangularize or annihilate more tiles than it has
    on and below, or below, the diagonal. *)
Lemma greedy_bounds st os (j : nat) :
  greedy_inv mt minnt block st os → Z.of_nat j < minnt →
  counter (greedy.NT st) (Z.of_nat j) ≤ mt - Z.of_nat j
  ∧ counter (greedy.NZ st) (Z.of_nat j) ≤ mt - Z.of_nat j - 1.
Proof.
  intros [_ _ HNZ HNT0 HNT _ _ _ _ _]. induction j as [|j IH]; intros Hj.
  - destruct (HNZ 0 ltac:(lia)). change (Z.of_nat 0) with 0. lia.
  - destruct (IH ltac:(lia)) as [_ IHz].
    specialize (HNT (Z.of_nat (S j)) ltac:(lia)).
    replace (Z.of_nat (S j) - 1) with (Z.of_nat j) in HNT by lia.
    destruct (HNZ (Z.of_nat (S j)) ltac:(lia)). lia.
Qed.

(** When the loop condition fails every column is complete. *)
Lemma greedy_finished st os :
  greedy_inv mt minnt block st os → ¬ greedy_unfinished mt minnt st →
  ∀ j, 0 ≤ j < minnt → greedy_complete mt st j.
Proof.
  intros Hinv Hfin.
  assert (∀ d : nat, Z.of_nat d < minnt →
            greedy_complete mt st (minnt - 1 - Z.of_nat d)) as Hdown.
  { induction d as [|d IH]; intros Hd.
    - unfold greedy_unfinished in Hfin.
      fold (counter (greedy.NT st) (minnt - 1)) in Hfin.
      fold (counter (greedy.NZ st) (minnt - 1)) in Hfin.
      pose proof (greedy_bounds st os (Z.to_nat (minnt - 1)) Hinv) as Hb.
      rewrite Z2Nat.id in Hb by lia. specialize (Hb ltac:(lia)).
      replace (minnt - 1 - Z.of_nat 0) with (minnt - 1) by lia.
      unfold greedy_complete. lia.
    - destruct (IH ltac:(lia)) as [IHt _].
      set (j := minnt - 1 - Z.of_nat (S d)).
      replace (minnt - 1 - Z.of_nat d) with (j + 1) in IHt by lia.
      pose proof (greedy_bounds st os (Z.to_nat j) Hinv) as Hb.
      rewrite Z2Nat.id in Hb by lia. specialize (Hb ltac:(lia)).
      destruct Hinv as [_ _ HNZ _ HNT _ _ _ _ _].
      specialize (HNT (j + 1) ltac:(lia)).
      replace (j + 1 - 1) with j in HNT by lia.
      destruct (HNZ j ltac:(lia)). unfold greedy_complete. lia. }
  intros j Hj. specialize (Hdown (Z.to_nat (minnt - 1 - j)) ltac:(lia)).
  by replace (minnt - 1 - Z.of_nat (Z.to_nat (minnt - 1 - j))) with j
    in Hdown by lia.
Qed.

(** While the loop condition holds, a pass advances some column. *)
Lemma greedy_progress st os (j : nat) :
  greedy_inv mt minnt block st os → Z.of_nat j < minnt →
  let st' := fold_left (greedy_column mt) (downto 0 minnt) st in
  (∃ i, 0 ≤ i ≤ Z.of_nat j
        ∧ (counter (greedy.NT st) i < counter (greedy.NT st') i
           ∨ counter (greedy.NZ st) i < counter (greedy.NZ st') i))
  ∨ (∀ i, 0 ≤ i ≤ Z.of_nat j → greedy_complete mt st i).
Proof.
  intros Hinv Hj st'.
  pose proof (greedy_pass_counters (Z.to_nat minnt) st os) as Hpass.
  rewrite Z2Nat.id in Hpass by lia.
  specialize (Hpass ltac:(lia) Hinv). simpl in Hpass. fold st' in Hpass.
  induction j as [|j IH].
  - destruct (Hpass 0 ltac:(lia)) as [Ht Hz].
    rewrite !decide_True in Ht, Hz by lia.
    rewrite (decide_True (P := 0 = 0)) in Ht by done.
    destruct Hinv as [_ _ HNZ HNT0 _ _ _ _ _ _].
    destruct (HNZ 0 ltac:(lia)) as [Hz0 Hz1].
    destruct (decide (counter (greedy.NT st) 0 < mt)) as [Hlt|Hge].
    { left. exists 0. split; [lia|]. left. lia. }
    destruct (decide (counter (greedy.NZ st) 0 < mt - 1)) as [Hlt|Hge'].
    { left. exists 0. split; [lia|]. right. rewrite Hz.
      pose proof (half_bounds
                    (counter (greedy.NT st) 0 - counter (greedy.NZ st) 0)
                    ltac:(lia)). lia. }
    right. intros i Hi. replace i with 0 by lia.
    unfold greedy_complete. lia.
  - destruct (IH ltac:(lia)) as [(i & Hi & Hprog)|Hdone].
    { left. exists i. split; [lia|done]. }
    set (c := Z.of_nat (S j)).
    destruct (Hdone (c - 1) ltac:(lia)) as [_ Hzprev].
    destruct (Hpass c ltac:(lia)) as [Ht Hz].
    rewrite !decide_True in Ht, Hz by lia.
    rewrite decide_False in Ht by lia.
    pose proof (greedy_bounds st os (S j) Hinv Hj) as [Hbt Hbz].
    fold c in Hbt, Hbz.
    destruct Hinv as [_ _ HNZ _ _ _ _ _ _ _].
    destruct (HNZ c ltac:(lia)) as [Hz0 Hz1].
    destruct (decide (counter (greedy.NT st) c < mt - c)) as [Hlt|Hge].
    { left. exists c. split; [lia|]. left. lia. }
    destruct (decide (counter (greedy.NZ st) c < mt - c - 1)) as [Hlt|Hge'].
    { left. exists c. split; [lia|]. right. rewrite Hz.
      pose proof (half_bounds
                    (counter (greedy.NT st) c - counter (greedy.NZ st) c)
                    ltac:(lia)). lia. }
    right. intros i Hi. destruct (decide (i = c)) as [->|Hne].
    + unfold greedy_complete. lia.
    + apply Hdone. lia.
Qed.

Lemma greedy_monotone st os j :
  greedy_inv mt minnt block st os → 0 ≤ j < minnt →
  let st' := fold_left (greedy_column mt) (downto 0 minnt) st in
  counter (greedy.NT st) j ≤ counter (greedy.NT st') j
  ∧ counter (greedy.NZ st) j ≤ counter (greedy.NZ st') j.
Proof.
  intros Hinv Hj st'.
  pose proof (greedy_pass_counters (Z.to_nat minnt) st os) as Hpass.
  rewrite Z2Nat.id in Hpass by lia.
  specialize (Hpass ltac:(lia) Hinv j Hj). simpl in Hpass. fold st' in Hpass.
  destruct Hpass as [-> ->]. rewrite !(decide_True (P := j < minnt)) by lia.
  destruct Hinv as [_ _ HNZ HNT0 HNT _ _ _ _ _].
  destruct (HNZ j Hj) as [Hz0 Hz1].
  pose proof (half_bounds (counter (greedy.NT st) j - counter (greedy.NZ st) j)
                ltac:(lia)).
  split; [|lia]. case_decide as Hj0.
  - subst j. lia.
  - apply HNT. lia.
Qed.

Lemma greedy_total (n : nat) :
  Zsum ((λ j, (mt - j) + (mt - j - 1)) <$> seqZ 0 (Z.of_nat n))
  = 2 * mt * Z.of_nat n - Z.of_nat n * Z.of_nat n.
Proof using Type.
  induction n as [|n IH]; [unfold Zsum; simpl; lia|].
  rewrite seqZ_S, fmap_app, Zsum_app, IH. unfold Zsum. simpl. lia.
Qed.

Lemma greedy_nops_closed :
  (mt * minnt - ((minnt - 1) * minnt) `quot` 2)
  + (mt * minnt - ((minnt + 1) * minnt) `quot` 2)
  = 2 * mt * minnt - minnt * minnt.
Proof using Type.
  pose proof (triangle_even minnt) as H1.
  pose proof (triangle_even (minnt - 1)) as H2.
  replace ((minnt - 1 + 1) * (minnt - 1)) with ((minnt - 1) * minnt) in H2
    by lia.
  lia.
Qed.

Lemma greedy_count_le st os :
  greedy_inv mt minnt block st os →
  Z.of_nat (length os) ≤ 2 * mt * minnt - minnt * minnt.
Proof.
  intros Hinv. pose proof (greedy_total (Z.to_nat minnt)) as Htot.
  rewrite Z2Nat.id in Htot by lia. rewrite <- Htot.
  rewrite (inv_count _ _ _ _ _ Hinv). apply Zsum_le.
  intros j Hj%elem_of_seqZ.
  pose proof (greedy_bounds st os (Z.to_nat j) Hinv) as Hb.
  rewrite Z2Nat.id in Hb by lia. specialize (Hb ltac:(lia)). lia.
Qed.

(** With one unit of fuel per operation still to insert, the loop runs
    until its condition fails. *)
Lemma greedy_loop_terminates (fuel : nat) st os :
  greedy_inv mt minnt block st os →
  (Z.to_nat (2 * mt * minnt - minnt * minnt - Z.of_nat (length os))
   ≤ fuel)%nat →
  ∃ st' os', greedy_loop fuel mt minnt st = Some st'
    ∧ greedy_inv mt minnt block st' os'
    ∧ ¬ greedy_unfinished mt minnt st'.
Proof.
  revert st os. induction fuel as [|fuel IH]; intros st os Hinv Hfuel.
  - simpl. case_decide as Hun; [|by exists st, os].
    exfalso.
    destruct (greedy_pass_inv (downto 0 minnt) st os) as (os' & Hinv');
      [|done|].
    { unfold downto. apply Forall_reverse, Forall_seqZ. lia. }
    pose proof (greedy_count_le _ _ Hinv') as Hle.
    assert (Z.of_nat (length os) < Z.of_nat (length (os ++ os'))); [|lia].
    rewrite (inv_count _ _ _ _ _ Hinv), (inv_count _ _ _ _ _ Hinv').
    destruct (greedy_progress st os (Z.to_nat (minnt - 1)) Hinv ltac:(lia))
      as [(i & Hi & Hprog)|Hdone].
    + apply (Zsum_lt _ _ _ i).
      * intros j Hj%elem_of_seqZ.
        pose proof (greedy_monotone st os j Hinv ltac:(lia)). simpl in *.
        lia.
      * apply elem_of_seqZ. lia.
      * pose proof (greedy_monotone st os i Hinv ltac:(lia)). simpl in *.
        lia.
    + destruct (Hdone (minnt - 1) ltac:(lia)) as [Ht Hz].
      unfold greedy_unfinished in Hun. unfold counter in Ht, Hz. lia.
  - simpl. case_decide as Hun; [|by exists st, os].
    destruct (greedy_pass_inv (downto 0 minnt) st os) as (os' & Hinv');
      [|done|].
    { unfold downto. apply Forall_reverse, Forall_seqZ. lia. }
    apply (IH _ _ Hinv').
    assert (Z.of_nat (length os) < Z.of_nat (length (os ++ os'))); [|lia].
    rewrite (inv_count _ _ _ _ _ Hinv), (inv_count _ _ _ _ _ Hinv').
    destruct (greedy_progress st os (Z.to_nat (minnt - 1)) Hinv ltac:(lia))
      as [(i & Hi & Hprog)|Hdone].
    + apply (Zsum_lt _ _ _ i).
      * intros j Hj%elem_of_seqZ.
        pose proof (greedy_monotone st os j Hinv ltac:(lia)). simpl in *.
        lia.
      * apply elem_of_seqZ. lia.
      * pose proof (greedy_monotone st os i Hinv ltac:(lia)). simpl in *.
        lia.
    + destruct (Hdone (minnt - 1) ltac:(lia)) as [Ht Hz].
      unfold greedy_unfinished in Hun. unfold counter in Ht, Hz. lia.
Qed.
End Greedy.

Lemma greedy_initial mt minnt (block : list operation) :
  1 ≤ minnt →
  let zeros := (λ _ : Z, 0) <$> seqZ 0 minnt in
  greedy_inv mt minnt block (greedy.mk zeros zeros (block, 0)) [].
Proof.
  intros Hmin zeros.
  assert (∀ j, 0 ≤ j < minnt → counter zeros j = 0) as Hzero.
  { intros j Hj. unfold counter, zeros.
    rewrite list_lookup_total_fmap; [done..|]. rewrite length_seqZ. lia. }
  split; simpl.
  - unfold zeros. by rewrite length_fmap, length_seqZ.
  - unfold zeros. by rewrite length_fmap, length_seqZ.
  - intros j Hj. rewrite Hzero by done. lia.
  - left. apply Hzero. lia.
  - intros j Hj. rewrite !Hzero by lia. lia.
  - done.
  - intros j Hj. by rewrite Hzero.
  - intros j Hj. by rewrite Hzero.
  - rewrite (Zsum_ext _ (λ _, 0)).
    + clear. induction (seqZ 0 minnt) as [|x l IH]; [done|].
      rewrite fmap_cons, Zsum_cons. lia.
    + intros j Hj%elem_of_seqZ. rewrite !Hzero by lia. done.
  - apply legal_nil.
Qed.

Section GreedyTree.
Variables (fuel : nat) (mt nt : Z).
Hypothesis mt_pos : 1 ≤ mt.
Hypothesis nt_pos : 1 ≤ nt.
Hypothesis enough_fuel : (Z.to_nat (greedy_nops mt nt) ≤ fuel)%nat.

Lemma greedy_run (block : list operation) :
  length block = Z.to_nat (greedy_nops mt nt) →
  ∃ os, plasma_rh_tree_greedy fuel mt nt block
        = Some (tree.mk os (greedy_nops mt nt) false)
    ∧ greedy_nops mt nt = 2 * mt * imin mt nt - imin mt nt * imin mt nt
    ∧ legal os
    ∧ ∀ j, 0 ≤ j < imin mt nt →
        triangularized os j = downto j mt
        ∧ annihilated os j = downto (j + 1) mt.
Proof.
  intros Hblock. unfold plasma_rh_tree_greedy. fold (greedy_nops mt nt).
  set (minnt := imin mt nt).
  assert (1 ≤ minnt ≤ mt) as Hmin by (subst minnt; rewrite imin_spec; lia).
  assert (greedy_nops mt nt = 2 * mt * minnt - minnt * minnt) as Hnops.
  { unfold greedy_nops. fold minnt. apply greedy_nops_closed. }
  destruct (greedy_loop_terminates mt minnt block ltac:(lia) ltac:(lia) fuel
              _ [] (greedy_initial mt minnt block ltac:(lia)))
    as (st & os & -> & Hinv & Hfin).
  { simpl. rewrite Hnops in enough_fuel. lia. }
  pose proof (greedy_finished mt minnt block ltac:(lia) ltac:(lia) st os
                Hinv Hfin) as Hall.
  assert (Z.of_nat (length os) = greedy_nops mt nt) as Hlen.
  { rewrite (inv_count _ _ _ _ _ Hinv), Hnops.
    pose proof (greedy_total mt (Z.to_nat minnt)) as Htot.
    rewrite Z2Nat.id in Htot by lia. rewrite <- Htot.
    apply Zsum_ext. intros j Hj%elem_of_seqZ.
    destruct (Hall j ltac:(lia)) as [-> ->]. done. }
  exists os. simpl.
  rewrite (inv_out _ _ _ _ _ Hinv), insert_all_count. simpl.
  rewrite insert_all_rows; [|done|simpl; lia]. simpl.
  rewrite drop_ge, app_nil_r by lia.
  split.
  { do 2 f_equal; [lia|]. apply bool_decide_eq_false_2. lia. }
  split; [done|]. split; [apply (inv_legal _ _ _ _ _ Hinv)|].
  intros j Hj. destruct (Hall j Hj) as [Ht Hz].
  rewrite (inv_tri _ _ _ _ _ Hinv), (inv_ann _ _ _ _ _ Hinv) by done.
  rewrite Ht, Hz, !downto_fmap.
  by replace (mt - (j + 1)) with (mt - j - 1) by lia.
Qed.

(** X11.  [plasma_rh_tree_greedy] on a grid of [mt >= 1] by [nt >= 1]
    tiles, with the array of [nops] rows it allocates.  The [while] loop
    ends: as long as its condition holds a pass over the columns inserts
    an operation, so [nops] passes are enough.  The count handed back is
    the [nops] computed beforehand, [2*mt*minnt - minnt*minnt], so the
    message is not printed and the array is filled to its last row.  In
    every column [j < min(mt,nt)] the GE kernel triangularizes the rows
    [mt-1] down to [j], each once and in this order, and the TT kernel
    annihilates the rows [mt-1] down to [j+1], each once and in this
    order. *)
Theorem greedy_tree_complete (block : list operation) :
  length block = Z.to_nat (greedy_nops mt nt) →
  ∃ r, plasma_rh_tree_greedy fuel mt nt block = Some r
    ∧ tree.noperations r = greedy_nops mt nt
    ∧ tree.message r = false
    ∧ tree.noperations r = 2 * mt * imin mt nt - imin mt nt * imin mt nt
    ∧ ∀ j, 0 ≤ j < imin mt nt →
        triangularized (tree.operations r) j = downto j mt
        ∧ annihilated (tree.operations r) j = downto (j + 1) mt.
Proof.
  intros Hblock.
  destruct (greedy_run block Hblock) as (os & -> & Hn & _ & Hrows).
  eexists. split; [done|]. simpl. done.
Qed.

(** X12.  The operations of the greedy tree come in a legal order: a
    tile is triangularized once, before it is annihilated and, right of
    the first column, after its left neighbour has been annihilated; a
    TT kernel annihilates a triangularized tile that has not been
    annihilated, with a pivot that is triangularized and has not been
    annihilated. *)
Theorem greedy_tree_legal (block : list operation) :
  length block = Z.to_nat (greedy_nops mt nt) →
  ∃ r, plasma_rh_tree_greedy fuel mt nt block = Some r
    ∧ legal (tree.operations r).
Proof.
  intros Hblock.
  destruct (greedy_run block Hblock) as (os & -> & _ & Hlegal & _).
  eexists. split; [done|]. done.
Qed.
End GreedyTree.

Lemma greedy_tree_complete_witness :
  ∃ r, plasma_rh_tree_greedy 15 4 3 (stale_block 15) = Some r
    ∧ tree.noperations r = greedy_nops 4 3
    ∧ tree.message r = false
    ∧ tree.noperations r = 2 * 4 * imin 4 3 - imin 4 3 * imin 4 3
    ∧ ∀ j, 0 ≤ j < imin 4 3 →
        triangularized (tree.operations r) j = downto j 4
        ∧ annihilated (tree.operations r) j = downto (j + 1) 4.
Proof.
  apply (greedy_tree_complete 15 4 3 ltac:(lia) ltac:(lia)
           ltac:(vm_compute; lia) (stale_block 15)).
  reflexivity.
Defined.

Lemma greedy_tree_legal_witness :
  ∃ r, plasma_rh_tree_greedy 15 4 3 (stale_block 15) = Some r
    ∧ legal (tree.operations r).
Proof.
  apply (greedy_tree_legal 15 4 3 ltac:(lia) ltac:(lia)
           ltac:(vm_compute; lia) (stale_block 15)).
  reflexivity.
Defined.

(** ** Legal orders of operations *)

Lemma square_rows k (piv : Z → Z) lo len k' :
  annihilated ((λ m, op.mk PlasmaTSKernel k m (piv m)) <$> seqZ lo len) k'
  = (if decide (k' = k) then seqZ lo len else [])
  ∧ triangularized
      ((λ m, op.mk PlasmaTSKernel k m (piv m)) <$> seqZ lo len) k'
    = [].
Proof.
  unfold triangularized, annihilated. split.
  - case_decide as Hj.
    + subst k'. rewrite filter_all.
      * rewrite <- list_fmap_compose. apply list_fmap_id.
      * apply Forall_fmap, Forall_forall. intros m _. done.
    + rewrite filter_none; [done|].
      intros o (m & -> & _)%list_elem_of_fmap [? _]. simpl in *. congruence.
  - rewrite filter_none; [done|].
    intros o (m & -> & _)%list_elem_of_fmap [_ ?]. done.
Qed.

Lemma triangle_rows k r p k' :
  triangularized [op.mk PlasmaGEKernel k r p] k'
  = (if decide (k' = k) then [r] else [])
  ∧ annihilated [op.mk PlasmaGEKernel k r p] k' = [].
Proof.
  unfold triangularized, annihilated. split.
  - case_decide.
    + by rewrite filter_cons_True by done.
    + by rewrite filter_cons_False by (simpl; intros [? _]; congruence).
  - by rewrite filter_cons_False by (simpl; tauto).
Qed.

Lemma flat_column_rows mt k :
  triangularized (flat_column mt k) k = [k]
  ∧ annihilated (flat_column mt k) k = seqZ (k + 1) (mt - (k + 1))
  ∧ Forall (λ o, op.col o = k) (flat_column mt k).
Proof.
  unfold flat_column.
  change (?x :: ?l) with ([x] ++ l).
  rewrite triangularized_app, annihilated_app.
  destruct (square_rows k (λ _, k) (k + 1) (mt - (k + 1)) k) as [-> ->].
  rewrite decide_True by done. split; [|split].
  - unfold triangularized. by rewrite filter_cons_True by done.
  - unfold annihilated. by rewrite filter_cons_False by (simpl; tauto).
  - apply Forall_app. split; [by constructor|].
    apply Forall_fmap, Forall_forall. intros m _. done.
Qed.

(** The flat tree, column after column. *)
Lemma flat_columns_legal mt (n : nat) :
  Z.of_nat n ≤ mt → legal (seqZ 0 (Z.of_nat n) ≫= flat_column mt).
Proof.
  induction n as [|n IH]; intros Hn; [apply legal_nil|].
  rewrite seqZ_S, bind_app. simpl. rewrite app_nil_r.
  set (k := Z.of_nat n). set (os := seqZ 0 k ≫= flat_column mt).
  assert (triangularized os k = [] ∧ annihilated os k = []) as [Ht Ha].
  { split; [apply triangularized_other|apply annihilated_other].
    all: apply Forall_bind, Forall_forall; intros k' Hk'%elem_of_seqZ.
    all: eapply Forall_impl; [apply flat_column_rows|].
    all: simpl; intros o ->; lia. }
  assert (k = 0 ∨ annihilated os (k - 1) = seqZ k (mt - k)) as Hprev.
  { destruct (decide (k = 0)) as [?|Hk]; [by left|right]. unfold os.
    destruct (annihilated_columns (flat_column mt) k (k - 1)) as [-> _].
    - intros k'. apply flat_column_rows.
    - lia.
    - destruct (flat_column_rows mt (k - 1)) as (_ & -> & _).
      f_equal; lia. }
  apply legal_app; [apply IH; lia|].
  intros pre o post Heq. unfold flat_column in Heq.
  replace (0 + k) with k in Heq by lia.
  destruct pre as [|g pre].
  - injection Heq as <- _. unfold legal_next. simpl.
    rewrite app_nil_r, Ht, Ha.
    split; [apply not_elem_of_nil|]. split; [apply not_elem_of_nil|].
    destruct Hprev as [?|Hprev]; [by left|right].
    rewrite Hprev. apply elem_of_seqZ. lia.
  - injection Heq as <- Heq.
    apply fmap_seqZ_split in Heq as (m & Hm & -> & ->).
    unfold legal_next. simpl.
    change (?x :: ?l) with ([x] ++ l).
    rewrite !triangularized_app, !annihilated_app, Ht, Ha.
    destruct (square_rows k (λ _, k) (k + 1) (m - (k + 1)) k) as [-> ->].
    destruct (square_rows k (λ _, k) (k + 1) (m - (k + 1)) (k - 1))
      as [-> _].
    destruct (triangle_rows k k (-1) k) as [-> ->].
    destruct (triangle_rows k k (-1) (k - 1)) as [_ ->].
    rewrite !decide_True, decide_False by lia.
    simpl. rewrite !elem_of_seqZ, !list_elem_of_singleton.
    split; [done|]. split; [lia|]. split; [lia|]. split; [lia|].
    rewrite app_nil_r.
    destruct Hprev as [?|Hprev]; [by left|right].
    rewrite Hprev. apply elem_of_seqZ. lia.
Qed.

Lemma plasmatree_block_rows mt k M k' :
  triangularized (plasmatree_block mt k M) k'
  = (if decide (k' = k) then [M] else [])
  ∧ annihilated (plasmatree_block mt k M) k'
    = (if decide (k' = k) then seqZ (M + 1) (imin (M + BS) mt - (M + 1))
       else []).
Proof.
  unfold plasmatree_block. change (?x :: ?l) with ([x] ++ l).
  rewrite triangularized_app, annihilated_app.
  destruct (square_rows k (λ _, M) (M + 1) (imin (M + BS) mt - (M + 1)) k')
    as [-> ->].
  destruct (triangle_rows k M (-1) k') as [-> ->].
  by rewrite app_nil_r.
Qed.

Lemma plasmatree_blocks_of_rows mt k (Ms : list Z) k' :
  triangularized (Ms ≫= plasmatree_block mt k) k'
  = (if decide (k' = k) then Ms else [])
  ∧ annihilated (Ms ≫= plasmatree_block mt k) k'
    = (if decide (k' = k)
       then M ← Ms; seqZ (M + 1) (imin (M + BS) mt - (M + 1)) else []).
Proof.
  induction Ms as [|M Ms [IH1 IH2]]; [by case_decide|].
  rewrite !bind_cons, triangularized_app, annihilated_app, IH1, IH2.
  destruct (plasmatree_block_rows mt k M k') as [-> ->].
  by case_decide.
Qed.

(** The blocks of one column, on top of the operations [os] of the
    columns before it. *)
Lemma plasmatree_blocks_legal mt k os (b : nat) :
  legal os → 0 ≤ k →
  triangularized os k = [] → annihilated os k = [] →
  (k = 0 ∨ ∀ x, k ≤ x < mt → x ∈ annihilated os (k - 1)) →
  k + (Z.of_nat b - 1) * BS < mt →
  legal (os ++ (((λ i, k + i * BS) <$> seqZ 0 (Z.of_nat b))
                  ≫= plasmatree_block mt k)).
Proof.
  intros Hos Hk Ht Ha Hprev. induction b as [|b IH]; intros Hb.
  { simpl. by rewrite app_nil_r. }
  rewrite seqZ_S, fmap_app, bind_app, app_assoc. simpl. rewrite app_nil_r.
  set (Ms := (λ i, k + i * BS) <$> seqZ 0 (Z.of_nat b)).
  set (M := k + Z.of_nat b * BS).
  assert (∀ x, x ∈ Ms → k ≤ x ∧ x + BS ≤ M) as HMs.
  { intros x (i & -> & Hi%elem_of_seqZ)%list_elem_of_fmap.
    unfold M, BS. lia. }
  assert (k ≤ M < mt) as HM by (unfold M, BS in *; lia).
  apply legal_app; [apply IH; unfold BS in *; lia|].
  intros pre o post Heq.
  assert (∀ pre', triangularized ((os ++ Ms ≫= plasmatree_block mt k) ++ pre') k
                  = Ms ++ triangularized pre' k
                  ∧ annihilated ((os ++ Ms ≫= plasmatree_block mt k) ++ pre') k
                    = (M' ← Ms; seqZ (M' + 1) (imin (M' + BS) mt - (M' + 1)))
                      ++ annihilated pre' k) as Hpre.
  { intros pre'. rewrite !triangularized_app, !annihilated_app, Ht, Ha.
    destruct (plasmatree_blocks_of_rows mt k Ms k) as [-> ->].
    by rewrite !decide_True by done. }
  assert (∀ pre' x, Forall (λ o, op.col o = k) pre' →
            k = 0 ∨ (k ≤ x < mt →
            x ∈ annihilated ((os ++ Ms ≫= plasmatree_block mt k) ++ pre')
                  (k - 1))) as Hready.
  { intros pre' x Hcol. destruct Hprev as [?|Hprev]; [by left|right].
    intros Hx. rewrite !annihilated_app. apply elem_of_app. left.
    apply elem_of_app. left. by apply Hprev. }
  assert (∀ x, x ∈ (M' ← Ms; seqZ (M' + 1) (imin (M' + BS) mt - (M' + 1)))
               → x < M) as Hrows.
  { intros x (M' & Hx%elem_of_seqZ & HM')%list_elem_of_bind.
    apply HMs in HM'. rewrite imin_spec in Hx. lia. }
  replace (0 + Z.of_nat b) with (Z.of_nat b) in Heq by lia.
  fold M in Heq. unfold plasmatree_block in Heq.
  destruct pre as [|g pre].
  - injection Heq as <- _. unfold legal_next. simpl.
    destruct (Hpre []) as [-> ->]. rewrite !app_nil_r.
    split; [intros Hin%HMs; unfold BS in Hin; lia|].
    split; [intros Hin%Hrows; lia|].
    destruct (Hready [] M) as [?|Hr]; [done|by left|right].
    rewrite app_nil_r in Hr. apply Hr. lia.
  - injection Heq as <- Heq.
    apply fmap_seqZ_split in Heq as (m & Hm & -> & ->).
    rewrite imin_spec in Hm.
    unfold legal_next. simpl.
    destruct (Hpre (op.mk PlasmaGEKernel k M (-1)
                    :: ((λ m, op.mk PlasmaTSKernel k m M)
                          <$> seqZ (M + 1) (m - (M + 1))))) as [-> ->].
    change (?x :: ?l) with ([x] ++ l).
    rewrite triangularized_app, annihilated_app.
    destruct (square_rows k (λ _, M) (M + 1) (m - (M + 1)) k) as [-> ->].
    destruct (triangle_rows k M (-1) k) as [-> ->].
    rewrite !decide_True by done. simpl. rewrite ?app_nil_r.
    rewrite !elem_of_app, !elem_of_seqZ, ?list_elem_of_singleton.
    split; [by right|].
    split; [intros [Hin%Hrows|Hin]; lia|].
    split; [intros [Hin%HMs|Hin]; unfold BS in *; lia|].
    split; [intros [Hin%Hrows|Hin]; lia|].
    destruct (Hready ([op.mk PlasmaGEKernel k M (-1)]
                      ++ ((λ m, op.mk PlasmaTSKernel k m M)
                            <$> seqZ (M + 1) (m - (M + 1)))) m)
      as [?|Hr]; [|by left|right].
    + apply Forall_app. split; [by constructor|].
      apply Forall_fmap, Forall_forall. intros m' _. done.
    + apply Hr. lia.
Qed.

Lemma annihilating_rows ker k (r p : Z → Z) (l : list Z) k' :
  ker ≠ PlasmaGEKernel →
  annihilated ((λ i, op.mk ker k (r i) (p i)) <$> l) k'
  = (if decide (k' = k) then r <$> l else [])
  ∧ triangularized ((λ i, op.mk ker k (r i) (p i)) <$> l) k' = [].
Proof.
  intros Hker. unfold triangularized, annihilated. split.
  - case_decide as Hj.
    + subst k'. rewrite filter_all.
      * by rewrite <- list_fmap_compose.
      * apply Forall_fmap, Forall_forall. intros m _. done.
    + rewrite filter_none; [done|].
      intros o (m & -> & _)%list_elem_of_fmap [? _]. simpl in *. congruence.
  - rewrite filter_none; [done|].
    intros o (m & -> & _)%list_elem_of_fmap [_ ?]. done.
Qed.

(** The merging rounds from stride [rd] on, on top of operations [os]
    that have triangularized the first tile of every block of column [k]
    and annihilated no tile at a multiple of [rd] from the diagonal. *)
Lemma plasmatree_merges_legal fuel mt k rd os :
  legal os → 1 ≤ rd → rd `mod` BS = 0 →
  (∀ x, x ∈ triangularized os k ↔ x ∈ strided k mt BS) →
  (∀ x, x ∈ annihilated os k → (x - k) `mod` rd ≠ 0) →
  legal (os ++ plasmatree_merges fuel mt k rd).
Proof.
  revert rd os. induction fuel as [|fuel IH]; intros rd os Hos Hrd Hmod Ht Ha.
  { simpl. case_decide; by rewrite app_nil_r. }
  simpl. case_decide as Hlt; [|by rewrite app_nil_r].
  apply Z.mod_divide in Hmod as [q Hq]; [|done].
  unfold BS in Hq. assert (1 ≤ q) as Hq1 by lia.
  set (round := (λ M, op.mk PlasmaTTKernel k (M + rd) M)
                  <$> strided k (mt - rd) (2 * rd)).
  assert (round = (λ i, op.mk PlasmaTTKernel k (k + i * (2 * rd) + rd)
                          (k + i * (2 * rd)))
                    <$> seqZ 0 ((mt - rd - k + 2 * rd - 1) `div` (2 * rd)))
    as Hround.
  { unfold round, strided. by rewrite <- list_fmap_compose. }
  assert (∀ l k', annihilated
            ((λ i, op.mk PlasmaTTKernel k (k + i * (2 * rd) + rd)
                     (k + i * (2 * rd))) <$> l) k'
          = (if decide (k' = k) then (λ i, k + i * (2 * rd) + rd) <$> l
             else [])
          ∧ triangularized
              ((λ i, op.mk PlasmaTTKernel k (k + i * (2 * rd) + rd)
                       (k + i * (2 * rd))) <$> l) k' = []) as Hrows.
  { intros l k'.
    apply (annihilating_rows PlasmaTTKernel k
             (λ i, k + i * (2 * rd) + rd) (λ i, k + i * (2 * rd))). done. }
  rewrite app_assoc. apply IH.
  - apply legal_app; [done|]. rewrite Hround.
    intros pre o post (x & Hx & -> & ->)%fmap_seqZ_split.
    assert (k + x * (2 * rd) + rd < mt) as Hin.
    { assert (k + x * (2 * rd) ∈ strided k (mt - rd) (2 * rd)) as Hs.
      { unfold strided. apply list_elem_of_fmap. exists x. split; [done|].
        apply elem_of_seqZ. lia. }
      apply elem_of_strided in Hs as (i & _ & _ & ?); lia. }
    unfold legal_next. simpl.
    rewrite !triangularized_app, !annihilated_app.
    destruct (Hrows (seqZ 0 (x - 0)) k) as [-> ->].
    rewrite decide_True, app_nil_r by done.
    rewrite !Ht, !elem_of_app.
    split; [|split; [|split]].
    + apply elem_of_strided; [done|]. exists (x * 2 * q).
      unfold BS. split; [nia|]. split; [nia|lia].
    + intros [Hin'%Ha|(i & Heq & Hi%elem_of_seqZ)%list_elem_of_fmap].
      * replace (k + x * (2 * rd) - k) with (x * 2 * rd) in Hin' by lia.
        by rewrite Z.mod_mul in Hin' by lia.
      * assert (2 * x = 2 * i + 1) by nia. lia.
    + apply elem_of_strided; [done|]. exists (x * 2 * q + q).
      unfold BS. split; [nia|]. split; [nia|lia].
    + intros [Hin'%Ha|(i & Heq & Hi%elem_of_seqZ)%list_elem_of_fmap].
      * replace (k + x * (2 * rd) + rd - k) with ((x * 2 + 1) * rd)
          in Hin' by lia.
        by rewrite Z.mod_mul in Hin' by lia.
      * assert (x = i) by nia. lia.
  - lia.
  - rewrite Z.mul_comm, <- Z.mul_mod_idemp_r by done.
    replace (rd `mod` BS) with 0; [done|]. symmetry.
    apply Z.mod_divide; [done|]. by exists q.
  - intros x. rewrite triangularized_app, Hround.
    destruct (Hrows (seqZ 0 ((mt - rd - k + 2 * rd - 1) `div` (2 * rd))) k)
      as [_ ->].
    by rewrite app_nil_r.
  - intros x. rewrite annihilated_app, Hround.
    destruct (Hrows (seqZ 0 ((mt - rd - k + 2 * rd - 1) `div` (2 * rd))) k)
      as [-> _].
    rewrite decide_True by done.
    intros [Hx%Ha|(i & -> & Hi%elem_of_seqZ)%list_elem_of_fmap]%elem_of_app.
    + intros Hm. apply Hx. apply Z.mod_divide in Hm as [c Hc]; [|lia].
      rewrite Hc. replace (c * (rd * 2)) with (c * 2 * rd) by lia.
      apply Z.mod_mul. lia.
    + replace (k + i * (2 * rd) + rd - k) with (rd + i * (rd * 2)) by lia.
      rewrite Z.mod_add, Z.mod_small by lia. lia.
Qed.

Lemma plasmatree_blocks_as_block mt k :
  plasmatree_blocks mt k
  = ((λ i, k + i * BS) <$> seqZ 0 ((mt - k + BS - 1) `div` BS))
      ≫= plasmatree_block mt k.
Proof. done. Qed.

Lemma plasmatree_columns_legal fuel mt (n : nat) :
  0 ≤ mt → (Z.to_nat mt ≤ fuel)%nat → Z.of_nat n ≤ mt →
  legal (seqZ 0 (Z.of_nat n) ≫= plasmatree_column_ops fuel mt).
Proof.
  intros Hmt Hfuel. induction n as [|n IH]; intros Hn; [apply legal_nil|].
  rewrite seqZ_S, bind_app. simpl. rewrite app_nil_r.
  set (k := Z.of_nat n). set (os := seqZ 0 k ≫= plasmatree_column_ops fuel mt).
  assert (triangularized os k = [] ∧ annihilated os k = []) as [Ht Ha].
  { split; [apply triangularized_other|apply annihilated_other].
    all: apply Forall_bind, Forall_forall; intros k' Hk'%elem_of_seqZ.
    all: eapply Forall_impl; [apply plasmatree_column_col|].
    all: simpl; intros o ->; lia. }
  assert (k = 0 ∨ ∀ x, k ≤ x < mt → x ∈ annihilated os (k - 1)) as Hprev.
  { destruct (decide (k = 0)) as [?|Hk]; [by left|right]. unfold os.
    destruct (annihilated_columns (plasmatree_column_ops fuel mt) k (k - 1))
      as [-> _].
    - intros k'. apply plasmatree_column_col.
    - lia.
    - destruct (plasmatree_column_rows fuel mt (k - 1)) as [Hperm _];
        [lia|done|].
      intros x Hx. rewrite Hperm. apply elem_of_seqZ. lia. }
  replace (0 + k) with k by lia. unfold plasmatree_column_ops.
  rewrite app_assoc.
  assert (0 < (mt - k + BS - 1) `div` BS) as Hcnt.
  { apply Z.div_str_pos. unfold BS. lia. }
  apply plasmatree_merges_legal; [|done|done|..].
  - rewrite plasmatree_blocks_as_block.
    rewrite <- (Z2Nat.id ((mt - k + BS - 1) `div` BS)) by lia.
    apply plasmatree_blocks_legal; [apply IH; lia|lia|done..|].
    rewrite Z2Nat.id by lia.
    pose proof (Z.mul_div_le (mt - k + BS - 1) BS ltac:(done)).
    unfold BS in *. lia.
  - intros x. rewrite triangularized_app, Ht. simpl.
    by destruct (plasmatree_blocks_rows mt k) as (-> & _ & _).
  - intros x. rewrite annihilated_app, Ha. simpl.
    by intros [_ ?]%plasmatree_blocks_annihilated.
Qed.

Section Legal.
Variables (fuel : nat) (mt nt : Z).

(** X13.  The operations of the flat tree come in a legal order: every
    diagonal tile [(k,k)] is triangularized once, right of the first
    column after the TS kernel of column [k-1] has annihilated its left
    neighbour; every TS kernel annihilates a tile that is neither
    triangularized nor annihilated yet, against the triangularized tile
    [(k,k)], which is never annihilated. *)
Theorem flat_tree_legal (block : list operation) :
  0 ≤ mt → 0 ≤ nt →
  length block = Z.to_nat (flat_nops mt nt) →
  legal (tree.operations (plasma_rh_tree_operations mt nt block)).
Proof.
  intros Hmt Hnt Hblock. unfold plasma_rh_tree_operations.
  rewrite flat_run by done. simpl.
  assert (0 ≤ imin mt nt ≤ mt) as Hmin by (rewrite imin_spec; lia).
  pose proof (flat_columns_legal mt (Z.to_nat (imin mt nt))) as Hl.
  rewrite Z2Nat.id in Hl by lia. apply Hl. lia.
Qed.

(** X14.  The operations of PLASMA-Tree come in a legal order: the head
    of a block is triangularized once, after its left neighbour has been
    annihilated; inside a block the TS kernel annihilates full tiles
    against the head; in the merging rounds the TT kernel annihilates
    the head of a block against the head of another block, both
    triangularized and neither annihilated before. *)
Theorem plasmatree_legal (block : list operation) :
  0 ≤ mt → 0 ≤ nt → (Z.to_nat mt ≤ fuel)%nat →
  length block = Z.to_nat (plasmatree_nops mt nt) →
  ∃ r, plasma_rh_tree_plasmatree fuel mt nt block = Some r
    ∧ legal (take (Z.to_nat (tree.noperations r)) (tree.operations r)).
Proof.
  intros Hmt Hnt Hfuel Hblock.
  rewrite plasmatree_run by done. eexists. split; [done|].
  pose proof (plasmatree_length_bound fuel mt nt Hmt Hnt Hfuel) as Hn.
  simpl. rewrite Nat2Z.id.
  rewrite insert_all_rows; [|done|simpl; lia].
  simpl. rewrite take_app_length.
  assert (0 ≤ imin mt nt ≤ mt) as Hmin by (rewrite imin_spec; lia).
  pose proof (plasmatree_columns_legal fuel mt (Z.to_nat (imin mt nt))) as Hl.
  rewrite Z2Nat.id in Hl by lia. apply Hl; lia.
Qed.
End Legal.

Lemma flat_tree_legal_witness :
  legal (tree.operations (plasma_rh_tree_operations 3 2 (stale_block 5))).
Proof.
  apply (flat_tree_legal 3 2 (stale_block 5)); [lia|lia|reflexivity].
Defined.

Lemma plasmatree_legal_witness :
  ∃ r, plasma_rh_tree_plasmatree 9 9 3 (stale_block 30) = Some r
    ∧ legal (take (Z.to_nat (tree.noperations r)) (tree.operations r)).
Proof.
  apply (plasmatree_legal 9 9 3 (stale_block 30)); [lia|lia|lia|reflexivity].
Defined.
